(** * Embedding backward and renormalisation (ATen/native/cuda/Embedding.cu)

    A shallow embedding of the three CUDA kernels of [Embedding.cu] and of
    the two host entry points that launch them, followed by the properties
    the specification states about them.

    Conventions of the embedding.
    - Machine integers are [Z]; every narrowing conversion the source
      performs ([(int) x], an [int] parameter or an [int] local receiving
      a 64-bit value) is written out with [to_int].
    - Device arrays are functions from an element offset to a value, the
      way the kernels see them through raw pointers.
    - A kernel is embedded thread by thread.  The threads of a phase (the
      code between two [__syncthreads()]) run one after the other in
      thread-index order, the blocks of a grid in block-index order.
    - The gradient path computes over exact rationals ([Qc]); the
      renormalisation path needs roots and computes over the reals.  The
      renormalisation is also given over the operations of any
      instantiation of its kernel's element types, for what holds
      whatever they compute. *)

From Stdlib Require Import ZArith List Bool Lia QArith Qcanon Permutation Sorted String.
From Stdlib Require Import Reals Lra.
Import ListNotations.
Local Open Scope Z_scope.

(** ** Machine integers, loops and thread ranges *)

Definition WARP_SIZE : Z := 32.
Definition BLOCKDIMY : Z := 32.

(** [(int) x]: a 64-bit value narrowed to a 32-bit two's-complement [int]. *)
Definition to_int (x : Z) : Z := (x + 2 ^ 31) mod 2 ^ 32 - 2 ^ 31.

(** Modelled from the spec: THCCeilDiv of THCDeviceUtils.cuh, the rounded-up
    quotient used to size the grids. *)
Definition THCCeilDiv (a b : Z) : Z := (a + b - 1) / b.

(** [lo, lo+1, ..., lo+len-1]. *)
Fixpoint zseq (lo : Z) (len : nat) : list Z :=
  match len with
  | O => []
  | S k => lo :: zseq (lo + 1) k
  end.

(** The values [0 .. n-1] of a thread or block index of extent [n]. *)
Definition zrange (n : Z) : list Z := zseq 0 (Z.to_nat n).

(** [for (i = start; i < stop; i += step) body]; [fuel] bounds the number of
    iterations. *)
Fixpoint for_loop {S : Type} (fuel : nat) (i stop step : Z)
    (body : Z -> S -> S) (s : S) : S :=
  match fuel with
  | O => s
  | Datatypes.S k =>
      if i <? stop then for_loop k (i + step) stop step body (body i s) else s
  end.

(** Assignment to one element of an array. *)
Definition upd {A : Type} (m : Z -> A) (a : Z) (v : A) : Z -> A :=
  fun x => if x =? a then v else m x.

(** ** Global memory holding the gradient-weight table

    [cells] is the content; [stores] records the offset of every store the
    kernels perform, most recent first. *)

Record gmem : Type := { cells : Z -> Qc; stores : list Z }.

Definition gstore (a : Z) (v : Qc) (m : gmem) : gmem :=
  {| cells := upd (cells m) a v; stores := a :: stores m |}.

(** [at::zeros]: the freshly allocated table. *)
Definition zeros : gmem := {| cells := fun _ => 0%Qc; stores := [] |}.

Definition store_count (m : gmem) (a : Z) : Z :=
  Z.of_nat (count_occ Z.eq_dec (stores m) a).

(** ** Warp vote and bit scan *)

(** Modelled from the spec: WARP_BALLOT of THCDeviceUtils.cuh; bit [lane] of
    the result is set exactly when that lane's predicate is non-zero. *)
Definition WARP_BALLOT (pred : Z -> bool) : Z :=
  fold_right (fun lane acc => if pred lane then Z.lor (Z.shiftl 1 lane) acc else acc)
             0 (zrange WARP_SIZE).

(** The CUDA intrinsic [__ffs]: one plus the position of the least
    significant set bit of a 32-bit word, 0 when no bit is set. *)
Definition ffs (x : Z) : Z :=
  match find (fun i => Z.testbit x i) (zrange 32) with
  | Some i => i + 1
  | None => 0
  end.

(** ** The small-batch kernel, [embedding_backward_feature_kernel]

    Launched with blocks of [WARP_SIZE] x [BLOCKDIMY] threads.  The dynamic
    shared memory of a block is split in two arrays: [smem], one
    accumulator per thread ([my_s] is the row of [smem] of the thread's
    warp), and [indices_batch], [WARP_SIZE*BLOCKDIMY] ints. *)

Definition N_BATCH_SLOTS : Z := WARP_SIZE * BLOCKDIMY.

(** The state a block works on.  [oob] is an observer, not program state:
    it is raised by the first read of [indices_batch] outside its
    [N_BATCH_SLOTS] slots and never lowered. *)
Record block_state : Type :=
  { smem : Z -> Qc; indices_batch : Z -> Z; grad_weight : gmem; oob : bool }.

Definition in_batch_buffer (slot : Z) : bool :=
  (0 <=? slot) && (slot <? N_BATCH_SLOTS).

(** A read of [indices_batch[slot]]: the value and the updated observer. *)
Definition read_batch (st : block_state) (slot : Z) : Z * block_state :=
  (indices_batch st slot,
   {| smem := smem st; indices_batch := indices_batch st;
      grad_weight := grad_weight st;
      oob := oob st || negb (in_batch_buffer slot) |}).

Definition set_smem (st : block_state) (slot : Z) (v : Qc) : block_state :=
  {| smem := upd (smem st) slot v; indices_batch := indices_batch st;
     grad_weight := grad_weight st; oob := oob st |}.

Definition set_batch (st : block_state) (slot : Z) (v : Z) : block_state :=
  {| smem := smem st; indices_batch := upd (indices_batch st) slot v;
     grad_weight := grad_weight st; oob := oob st |}.

Definition set_grad_weight (st : block_state) (m : gmem) : block_state :=
  {| smem := smem st; indices_batch := indices_batch st;
     grad_weight := m; oob := oob st |}.

(** The threads of one block, [threadIdx.y] major: pairs
    [(threadIdx.x, threadIdx.y)]. *)
Definition block_threads (dim_x dim_y : Z) : list (Z * Z) :=
  flat_map (fun ty => map (fun tx => (tx, ty)) (zrange dim_x)) (zrange dim_y).

(** One phase of a block: every thread runs the code between two barriers. *)
Definition run_phase {S : Type} (dim_x dim_y : Z) (code : Z -> Z -> S -> S) (s : S) : S :=
  fold_left (fun s t => code (fst t) (snd t) s) (block_threads dim_x dim_y) s.

Section FeatureKernel.
(** The kernel's parameters. *)
Variables (indices : Z -> Z) (grad : Z -> Qc) (n stride padding_idx : Z).
Variable blockIdx_x : Z.

Definition blockDim_x : Z := WARP_SIZE.
Definition blockDim_y : Z := BLOCKDIMY.

(** Lines 46-48: the block loads a batch of indices. *)
Definition load_batch (batch_start threadIdx_x threadIdx_y : Z)
    (st : block_state) : block_state :=
  let tid := threadIdx_x + threadIdx_y * blockDim_x in
  if batch_start + tid <? n
  then set_batch st tid (to_int (indices (batch_start + tid)))
  else st.

(** Lines 57-64: every warp stages its incoming gradient row. *)
Definition stage_grad (batch_start chunk_start threadIdx_x threadIdx_y : Z)
    (st : block_state) : block_state :=
  let s := to_int stride in
  let f := threadIdx_x + blockIdx_x * blockDim_x in
  let src_row := chunk_start + threadIdx_y in
  let (dst_row, st) := read_batch st (src_row - batch_start) in
  if (src_row <? n) && (f <? s) && negb (dst_row =? padding_idx)
  then set_smem st (WARP_SIZE * threadIdx_y + threadIdx_x)
                (grad (src_row * stride + f))
  else st.

(** Lines 86-91: the leader folds the staged values of its peers, lowest
    peer first. *)
Fixpoint fold_peers (fuel : nat) (matchmask threadIdx_x threadIdx_y : Z)
    (sm : Z -> Qc) : Z -> Qc :=
  match fuel with
  | O => sm
  | S k =>
      if matchmask =? 0 then sm
      else
        let first_remaining_peer := ffs matchmask - 1 in
        let my := WARP_SIZE * threadIdx_y + threadIdx_x in
        let sm := upd sm my
                    (sm my + sm (threadIdx_x + WARP_SIZE * first_remaining_peer)%Z)%Qc in
        fold_peers k (Z.lxor matchmask (Z.shiftl 1 first_remaining_peer))
                   threadIdx_x threadIdx_y sm
  end.

(** The predicate lane [lane] of a warp contributes to the ballot
    (lines 75-78). *)
Definition match_found (st : block_state) (batch_start chunk_start dst_row lane : Z) : bool :=
  let n_this_chunk :=
    if n - chunk_start <? blockDim_y then n - chunk_start else blockDim_y in
  (dst_row =? indices_batch st (chunk_start - batch_start + lane))
  && negb (n_this_chunk <=? lane).

(** Lines 73-95: leader election and the single add of the leader. *)
Definition elect_and_add (batch_start chunk_start threadIdx_x threadIdx_y : Z)
    (st : block_state) : block_state :=
  let s := to_int stride in
  let f := threadIdx_x + blockIdx_x * blockDim_x in
  let src_row := chunk_start + threadIdx_y in
  let dst_row := indices_batch st (src_row - batch_start) in
  if negb (dst_row =? padding_idx) && (src_row <? n) then
    let (_, st) := read_batch st (chunk_start - batch_start + threadIdx_x) in
    let matchmask := WARP_BALLOT (match_found st batch_start chunk_start dst_row) in
    let first_remaining_peer := ffs matchmask - 1 in
    if threadIdx_y =? first_remaining_peer then
      let matchmask := Z.lxor matchmask (Z.shiftl 1 first_remaining_peer) in
      let sm := fold_peers 32 matchmask threadIdx_x threadIdx_y (smem st) in
      let st := {| smem := sm; indices_batch := indices_batch st;
                   grad_weight := grad_weight st; oob := oob st |} in
      if f <? s then
        let a := dst_row * stride + f in
        let my := WARP_SIZE * threadIdx_y + threadIdx_x in
        set_grad_weight st
          (gstore a (cells (grad_weight st) a + sm my)%Qc (grad_weight st))
      else st
    else st
  else st.

(** Lines 51-96: one chunk of [blockDim.y] indices. *)
Definition process_chunk (batch_start chunk_start : Z) (st : block_state) : block_state :=
  let st := run_phase blockDim_x blockDim_y (stage_grad batch_start chunk_start) st in
  run_phase blockDim_x blockDim_y (elect_and_add batch_start chunk_start) st.

(** Lines 43-97: the whole kernel, for one block. *)
Definition embedding_backward_feature_kernel (st : block_state) : block_state :=
  for_loop (Z.to_nat n) 0 n (blockDim_x * blockDim_y)
    (fun batch_start st =>
       let st := run_phase blockDim_x blockDim_y (load_batch batch_start) st in
       for_loop (Z.to_nat n) batch_start n blockDim_y
         (process_chunk batch_start) st)
    st.
End FeatureKernel.

(** The launch [<<<grid, block, shared, stream>>>] of the small-batch
    kernel.  Shared memory is not initialised by the launch: block [b]
    starts from the arbitrary content [junk_s b], [junk_i b]. *)
Definition launch_feature_kernel (junk_s : Z -> Z -> Qc) (junk_i : Z -> Z -> Z)
    (grid_x : Z) (indices : Z -> Z) (grad : Z -> Qc) (n stride padding_idx : Z)
    (gw : gmem) : gmem * bool :=
  fold_left
    (fun acc b =>
       let st := embedding_backward_feature_kernel indices grad n stride padding_idx b
                   {| smem := junk_s b; indices_batch := junk_i b;
                      grad_weight := fst acc; oob := snd acc |} in
       (grad_weight st, oob st))
    (zrange grid_x) (gw, false).

(** ** The sorted kernel, [embedding_backward_kernel]

    Launched on a grid of [grid.x] x [grid.y] blocks of 32 x 4 threads:
    one warp per sorted position, [grid.y] tiles of 128 features. *)

Definition SZ : Z := 4.

Section BackwardKernel.
Variables (input indices : Z -> Z) (grad_output : Z -> Qc).
(** [count] is the null pointer when frequency scaling is off. *)
Variable count : option (Z -> Z).
Variables (numel stride padding_idx : Z).
Variables (blockIdx_x blockIdx_y threadIdx_x threadIdx_y : Z).

Definition scale_at (idx : Z) : Qc :=
  match count with
  | Some c => (1 / Q2Qc (inject_Z (c idx)))%Qc
  | None => 1%Qc
  end.

Definition start_feature : Z := threadIdx_x + blockIdx_y * 32 * SZ.
Definition weight_row (idx : Z) : Z := to_int (to_int (input idx) * stride).
Definition grad_row (idx : Z) : Z := to_int (to_int (indices idx) * stride).

(** Lines 132-142: the thread loads its [SZ] features of the gradient row
    and of the weight row into the register arrays [gradient] and
    [weight].  An element the loop skips is indeterminate (0 here); it
    is never stored. *)
Definition load_rows (idx : Z) (gw : gmem) : (Z -> Qc) * (Z -> Qc) :=
  fold_left
    (fun (r : (Z -> Qc) * (Z -> Qc)) ii =>
       let feature_dim := start_feature + ii * WARP_SIZE in
       if feature_dim <? stride
       then (upd (fst r) ii (grad_output (grad_row idx + feature_dim)),
             upd (snd r) ii (cells gw (weight_row idx + feature_dim)))
       else r)
    (zrange SZ) (fun _ => 0%Qc, fun _ => 0%Qc).

(** Lines 144-147: [weight[ii] += gradient[ii] * scale]. *)
Definition add_scaled (scale : Qc) (gradient weight : Z -> Qc) : Z -> Qc :=
  fold_left (fun w ii => upd w ii (w ii + gradient ii * scale)%Qc)
            (zrange SZ) weight.

(** Lines 149-155: the thread stores [weight] back. *)
Definition store_row (idx : Z) (weight : Z -> Qc) (gw : gmem) : gmem :=
  fold_left
    (fun gw ii =>
       let feature_dim := start_feature + ii * WARP_SIZE in
       if feature_dim <? stride
       then gstore (weight_row idx + feature_dim) (weight ii) gw
       else gw)
    (zrange SZ) gw.

(** Lines 127-155, the body of the do-while, for sorted position [idx]. *)
Definition accumulate_row (idx : Z) (gw : gmem) : gmem :=
  let scale := scale_at idx in
  let regs := load_rows idx gw in
  let weight := add_scaled scale (fst regs) (snd regs) in
  store_row idx weight gw.

(** Lines 126-158: [do { ...; idx++; } while (idx < numel && input[idx] ==
    input[idx - 1])]. *)
Fixpoint walk_run (fuel : nat) (idx : Z) (gw : gmem) : gmem :=
  match fuel with
  | O => gw
  | S k =>
      let gw := accumulate_row idx gw in
      let idx := idx + 1 in
      if (idx <? numel) && (input idx =? input (idx - 1))
      then walk_run k idx gw
      else gw
  end.

(** Lines 107-159: one thread of the kernel. *)
Definition embedding_backward_kernel (gw : gmem) : gmem :=
  let idx := blockIdx_x * 4 + threadIdx_y in
  if (idx <? numel)
     && ((idx =? 0) || negb (input idx =? input (idx - 1)))
     && negb (input idx =? padding_idx)
  then walk_run (Z.to_nat (numel - idx)) idx gw
  else gw.
End BackwardKernel.

(** The launch of the sorted kernel on [dim3 grid(grid_x, grid_y)],
    [dim3 block(32, 4)]. *)
Definition launch_backward_kernel (grid_x grid_y : Z)
    (input indices : Z -> Z) (grad_output : Z -> Qc) (count : option (Z -> Z))
    (numel stride padding_idx : Z) (gw : gmem) : gmem :=
  fold_left
    (fun gw bx =>
       fold_left
         (fun gw by_ =>
            run_phase 32 4
              (fun tx ty =>
                 embedding_backward_kernel input indices grad_output count
                   numel stride padding_idx bx by_ tx ty)
              gw)
         (zrange grid_y) gw)
    (zrange grid_x) gw.

(** ** The Thrust primitives the host code calls *)

(** [thrust::inclusive_scan_by_key(keys, values, out, pred, op)]: a
    segmented inclusive scan; a segment ends where [pred] fails between
    two consecutive keys. *)
Fixpoint scan_by_key_from {V : Type} (pred : Z -> Z -> bool) (op : V -> V -> V)
    (prev_key : Z) (prev_out : V) (keys : list Z) (values : list V) : list V :=
  match keys, values with
  | k :: keys', v :: values' =>
      let out := if pred prev_key k then op prev_out v else v in
      out :: scan_by_key_from pred op k out keys' values'
  | _, _ => []
  end.

Definition inclusive_scan_by_key {V : Type} (pred : Z -> Z -> bool) (op : V -> V -> V)
    (keys : list Z) (values : list V) : list V :=
  match keys, values with
  | k :: keys', v :: values' => v :: scan_by_key_from pred op k v keys' values'
  | _, _ => []
  end.

(** Lines 285-304: the two scans that fill [count].  The second call runs
    over reverse iterators, in place. *)
Definition frequency_counts (sorted : list Z) : list Z :=
  let count :=
    inclusive_scan_by_key Z.eqb Z.add sorted (repeat 1 (List.length sorted)) in
  rev (inclusive_scan_by_key Z.eqb Z.max (rev sorted) (rev count)).

(** [thrust::unique_copy]: the input without the elements equal to their
    predecessor. *)
Fixpoint unique_copy (l : list Z) : list Z :=
  match l with
  | [] => []
  | x :: t =>
      match t with
      | [] => [x]
      | y :: _ => if x =? y then unique_copy t else x :: unique_copy t
      end
  end.

(** ** Tensors and the argument checks *)

Inductive ScalarType : Type :=
  kByte | kChar | kShort | kInt | kLong | kHalf | kFloat | kDouble.

Definition ScalarType_eqb (a b : ScalarType) : bool :=
  match a, b with
  | kByte, kByte | kChar, kChar | kShort, kShort | kInt, kInt
  | kLong, kLong | kHalf, kHalf | kFloat, kFloat | kDouble, kDouble => true
  | _, _ => false
  end.

(** What the host code reads of a tensor: its element type, whether its
    storage is contiguous, the GPU it lives on, its shape, and its elements
    in row-major order. *)
Record Tensor (A : Type) : Type :=
  { scalar_type : ScalarType;
    is_contiguous : bool;
    get_device : Z;
    sizes : list Z;
    elements : list A }.

Arguments scalar_type {A} _.
Arguments is_contiguous {A} _.
Arguments get_device {A} _.
Arguments sizes {A} _.
Arguments elements {A} _.

Definition tensor_numel {A : Type} (t : Tensor A) : Z := Z.of_nat (List.length (elements t)).
Definition tensor_dim {A : Type} (t : Tensor A) : Z := Z.of_nat (List.length (sizes t)).
(** [t.size(-1)]. *)
Definition size_last {A : Type} (t : Tensor A) : Z := last (sizes t) 1.

(** [t.data<T>()] of a contiguous tensor: the pointer to its elements. *)
Definition data_ptr {A : Type} (d : A) (l : list A) : Z -> A :=
  fun a => if a <? 0 then d else nth (Z.to_nat a) l d.

(** The outcome of a host function: a value, or the error it raised. *)
Inductive result (A : Type) : Type :=
| Ok (a : A)
| Error (msg : string).

Arguments Ok {A} _.
Arguments Error {A} _.

Definition bind {A B : Type} (r : result A) (k : A -> result B) : result B :=
  match r with
  | Ok a => k a
  | Error msg => Error msg
  end.

Notation "'check' c ';;' k" := (bind c (fun _ => k))
  (at level 10, c at level 200, k at level 200).

(** Modelled from the spec: checkScalarType, checkContiguous, checkSameGPU and
    checkDim of ATen/TensorUtils.h, which raise when the named argument has
    another element type, a non-contiguous layout, another device than its
    partner, or another rank. *)
Definition checkScalarType {A : Type} (t : Tensor A) (ty : ScalarType) : result unit :=
  if ScalarType_eqb (scalar_type t) ty then Ok tt
  else Error "expected scalar type"%string.

Definition checkContiguous {A : Type} (t : Tensor A) : result unit :=
  if is_contiguous t then Ok tt else Error "expected contiguous tensor"%string.

Definition checkSameGPU {A B : Type} (t1 : Tensor A) (t2 : Tensor B) : result unit :=
  if get_device t1 =? get_device t2 then Ok tt
  else Error "expected tensors on the same GPU"%string.

Definition checkDim {A : Type} (t : Tensor A) (dim : Z) : result unit :=
  if tensor_dim t =? dim then Ok tt else Error "expected tensor of other rank"%string.

(** Modelled from the spec: THCudaCheck(cudaGetLastError()), which raises when
    the launch before it faulted. *)
Definition THCudaCheck (faulted : bool) : result unit :=
  if faulted then Error "cuda runtime error"%string else Ok tt.

(** ** The host entry point of the backward pass *)

Section Host.
(** [thrust::sort_by_key]: not stable, so any function that meets its
    contract may stand for it. *)
Variable sort_by_key : list Z -> list Z -> list Z * list Z.
(** The content of shared memory when a block starts. *)
Variables (junk_s : Z -> Z -> Qc) (junk_i : Z -> Z -> Z).

(** Lines 223-246: the launch of the small-batch kernel and the check
    that follows it. *)
Definition direct_path (grad : Z -> Qc) (indices : Tensor Z)
    (num_indices stride padding_idx : Z) (grad_weight : gmem) : result gmem :=
  let grid := THCCeilDiv stride WARP_SIZE in
  let launched :=
    launch_feature_kernel junk_s junk_i grid
      (data_ptr 0 (elements indices)) grad
      (to_int num_indices) stride (to_int padding_idx) grad_weight in
  check THCudaCheck (snd launched) ;;
  Ok (fst launched).

(** Lines 249-323: sort, count when asked to, and launch the sorted
    kernel. *)
Definition sorted_path (grad : Z -> Qc) (indices : Tensor Z)
    (num_indices stride padding_idx : Z) (scale_grad_by_freq : bool)
    (grad_weight : gmem) : result gmem :=
  let (sorted_indices, orig_indices) :=
    sort_by_key (elements indices) (zrange num_indices) in
  let count :=
    if scale_grad_by_freq
    then Some (data_ptr 0 (frequency_counts sorted_indices))
    else None in
  let launched :=
    launch_backward_kernel
      (THCCeilDiv num_indices 4) (THCCeilDiv stride 128)
      (data_ptr 0 sorted_indices) (data_ptr 0 orig_indices) grad count
      num_indices stride (to_int padding_idx) grad_weight in
  check THCudaCheck false ;;
  Ok launched.

(** Line 222: the test that selects the small-batch kernel. *)
Definition takes_direct_path (num_indices : Z) (scale_grad_by_freq : bool) : bool :=
  (num_indices <=? 768) && negb scale_grad_by_freq.

Definition embedding_backward_cuda (grad_ : Tensor Qc) (indices : Tensor Z)
    (num_weights padding_idx : Z) (scale_grad_by_freq : bool) : result gmem :=
  check checkScalarType indices kLong ;;
  check checkContiguous indices ;;
  check checkSameGPU grad_ indices ;;
  let num_indices := tensor_numel indices in
  (* grad_.contiguous().view({num_indices, grad_.size(-1)}) *)
  check (if num_indices * size_last grad_ =? tensor_numel grad_ then Ok tt
         else Error "invalid argument to view"%string) ;;
  let grad := data_ptr 0%Qc (elements grad_) in
  let grad_weight := zeros in
  let stride := size_last grad_ in
  if takes_direct_path num_indices scale_grad_by_freq
  then direct_path grad indices num_indices stride padding_idx grad_weight
  else sorted_path grad indices num_indices stride padding_idx scale_grad_by_freq
         grad_weight.
End Host.

(** ** Renormalisation: [renorm_kernel] and [embedding_renorm_cuda_]

    The weight table is computed over the reals.  A value of the
    accumulation type is [Some x], or [None] when the arithmetic has no
    real result (a NaN, which every later operation propagates and every
    comparison rejects). *)

(** [std::pow] on finite arguments.  A negative base has a result only at
    a whole exponent; the pole at base 0 with a negative exponent has none
    here. *)
Definition std_pow (x y : R) : option R :=
  if Req_dec_T y 0 then Some 1%R
  else if Rlt_dec 0 x then Some (Rpower x y)
  else if Req_dec_T x 0 then (if Rlt_dec 0 y then Some 0%R else None)
  else if Req_dec_T y (IZR (Int_part y)) then Some (powerRZ x (Int_part y))
  else None.

(** [a + b] of the accumulation type. *)
Definition acc_add (a b : option R) : option R :=
  match a, b with
  | Some x, Some y => Some (x + y)%R
  | _, _ => None
  end.

(** Lines 178-184: what one element [x] of a row adds to the thread's [v]. *)
Definition norm_term (norm_type x : R) : option R :=
  if Req_dec_T norm_type 1 then Some (Rabs x)
  else if Req_dec_T norm_type 2 then Some (x * x)%R
  else std_pow x norm_type.

(** Modelled from the spec: reduceBlock of THCReduceApplyUtils.cuh with
    ReduceAdd, the sum of the values of all threads of the block, starting
    from [init]. *)
Definition reduceBlock (vs : list (option R)) (init : option R) : option R :=
  fold_left acc_add vs init.

Definition RENORM_THREADS : Z := 128.

Section RenormKernel.
Variables (indices : Z -> Z) (max_norm norm_type : R) (dim : Z).
Variable blockIdx_x : Z.

Definition base_index : Z := to_int (indices blockIdx_x * dim).

(** Lines 175-185: the partial sum of thread [tid]. *)
Definition partial_norm (weights : Z -> R) (tid : Z) : option R :=
  for_loop (Z.to_nat dim) tid dim RENORM_THREADS
    (fun i v => acc_add v (norm_term norm_type (weights (base_index + i))))
    (Some 0%R).

(** Lines 187-192: [sdata[0]], the norm every thread reads after the
    barrier. *)
Definition row_norm (weights : Z -> R) : option R :=
  match reduceBlock (map (partial_norm weights) (zrange RENORM_THREADS)) (Some 0%R) with
  | Some v => std_pow v (1 / norm_type)
  | None => None
  end.

(** Lines 198-200: thread [tid] rescales its elements of the row. *)
Definition rescale (factor : R) (tid : Z) (weights : Z -> R) : Z -> R :=
  for_loop (Z.to_nat dim) tid dim RENORM_THREADS
    (fun i w => upd w (base_index + i) (w (base_index + i)%Z * factor)%R)
    weights.

(** Lines 172-201: one block of the kernel. *)
Definition renorm_kernel (weights : Z -> R) : Z -> R :=
  match row_norm weights with
  | Some norm =>
      if Rlt_dec max_norm norm
      then
        let factor := (max_norm / (norm + 1e-7))%R in
        fold_left (fun w tid => rescale factor tid w) (zrange RENORM_THREADS) weights
      else weights
  | None => weights
  end.
End RenormKernel.

(** The launch [<<<grid, block, ...>>>] with [dim3 grid(num_unique_indices)],
    [dim3 block(128)]. *)
Definition launch_renorm_kernel (grid_x : Z) (indices : Z -> Z)
    (max_norm norm_type : R) (dim : Z) (weights : Z -> R) : Z -> R :=
  fold_left (fun w b => renorm_kernel indices max_norm norm_type dim b w)
            (zrange grid_x) weights.

(** Lines 326-368.  [self] is changed in place: the tensor returned is
    [self] with the elements the kernel left in its storage. *)
Definition embedding_renorm_cuda_ (self : Tensor R) (indices : Tensor Z)
    (max_norm norm_type : R) : result (Tensor R) :=
  check checkContiguous self ;;
  check checkContiguous indices ;;
  check checkDim self 2 ;;
  check checkSameGPU self indices ;;
  let unique_indices := unique_copy (elements indices) in
  let num_unique_indices := to_int (Z.of_nat (List.length unique_indices)) in
  let dim := to_int (size_last self) in
  let weights :=
    launch_renorm_kernel num_unique_indices (data_ptr 0 unique_indices)
      max_norm norm_type dim (data_ptr 0%R (elements self)) in
  check THCudaCheck false ;;
  Ok {| scalar_type := scalar_type self;
        is_contiguous := is_contiguous self;
        get_device := get_device self;
        sizes := sizes self;
        elements := map weights (zrange (tensor_numel self)) |}.

(** ** The renormalisation at any instantiation of the kernel

    [renorm_kernel] is a template over [scalar_t], the element type of the
    table, and [accscalar_t], the type it accumulates in.  What follows is
    the kernel over the operations of an instantiation, whatever they
    compute: the rounding of a floating-point type, its infinities and its
    NaN are in the operations, not in the kernel. *)

(** The operations the kernel and its launch use: on the doubles [D] the
    host function is given, the elements [S] and the accumulation type [A]. *)
Record arithmetic (D S A : Type) : Type :=
  { (* static_cast<accscalar_t>(max_norm), static_cast<accscalar_t>(norm_type) *)
    acc_of_double : D -> A;
    (* static_cast<accscalar_t>(weights[base_index + i]) *)
    to_acc : S -> A;
    (* accscalar_t v = 0, and the 0 given to reduceBlock *)
    acc_zero : A;
    (* v += ... *)
    acc_plus : A -> A -> A;
    (* std::abs(x), x * x, std::pow(x, y) *)
    acc_abs : A -> A;
    acc_times : A -> A -> A;
    acc_pow : A -> A -> A;
    (* norm_type == 1, norm_type == 2 *)
    acc_is : A -> Z -> bool;
    (* static_cast<accscalar_t>(1.0 / norm_type) *)
    acc_inverse : A -> A;
    (* sdata[0] > max_norm *)
    acc_gt : A -> A -> bool;
    (* static_cast<scalar_t>(max_norm / (sdata[0] + 1e-7)) *)
    acc_factor : A -> A -> S;
    (* weights[base_index + i] *= factor *)
    scalar_times : S -> S -> S;
    (* reduceBlock<accscalar_t>(sdata, blockDim.x, v, ReduceAdd, 0) of
       THCReduceApplyUtils.cuh, given the values of the threads *)
    block_reduce : list A -> A -> A }.

Arguments acc_of_double {D S A} _ _.
Arguments to_acc {D S A} _ _.
Arguments acc_zero {D S A} _.
Arguments acc_plus {D S A} _ _ _.
Arguments acc_abs {D S A} _ _.
Arguments acc_times {D S A} _ _ _.
Arguments acc_pow {D S A} _ _ _.
Arguments acc_is {D S A} _ _ _.
Arguments acc_inverse {D S A} _ _.
Arguments acc_gt {D S A} _ _ _.
Arguments acc_factor {D S A} _ _ _.
Arguments scalar_times {D S A} _ _ _.
Arguments block_reduce {D S A} _ _ _.

Section RenormKernelOf.
Context {D S A : Type} (ar : arithmetic D S A).
Variables (indices : Z -> Z) (max_norm norm_type : A) (dim : Z).
Variable blockIdx_x : Z.

(** Lines 178-184. *)
Definition norm_term_of (x : A) : A :=
  if acc_is ar norm_type 1 then acc_abs ar x
  else if acc_is ar norm_type 2 then acc_times ar x x
  else acc_pow ar x norm_type.

(** Lines 175-185. *)
Definition partial_norm_of (weights : Z -> S) (tid : Z) : A :=
  for_loop (Z.to_nat dim) tid dim RENORM_THREADS
    (fun i v =>
       acc_plus ar v
         (norm_term_of (to_acc ar (weights (base_index indices dim blockIdx_x + i)))))
    (acc_zero ar).

(** Lines 187-192. *)
Definition row_norm_of (weights : Z -> S) : A :=
  acc_pow ar
    (block_reduce ar (map (partial_norm_of weights) (zrange RENORM_THREADS))
       (acc_zero ar))
    (acc_inverse ar norm_type).

(** Lines 198-200. *)
Definition rescale_of (factor : S) (tid : Z) (weights : Z -> S) : Z -> S :=
  for_loop (Z.to_nat dim) tid dim RENORM_THREADS
    (fun i w =>
       upd w (base_index indices dim blockIdx_x + i)
         (scalar_times ar (w (base_index indices dim blockIdx_x + i)%Z) factor))
    weights.

(** Lines 172-201: one block. *)
Definition renorm_kernel_of (weights : Z -> S) : Z -> S :=
  let norm := row_norm_of weights in
  if acc_gt ar norm max_norm
  then
    let factor := acc_factor ar max_norm norm in
    fold_left (fun w tid => rescale_of factor tid w) (zrange RENORM_THREADS) weights
  else weights.
End RenormKernelOf.

Definition launch_renorm_kernel_of {D S A : Type} (ar : arithmetic D S A)
    (grid_x : Z) (indices : Z -> Z) (max_norm norm_type : A) (dim : Z)
    (weights : Z -> S) : Z -> S :=
  fold_left (fun w b => renorm_kernel_of ar indices max_norm norm_type dim b w)
            (zrange grid_x) weights.

(** Lines 326-368 at the instantiation [ar].  [outside] is what a read
    outside the storage of [self] gives.  A launch whose grid has no block
    is refused by the runtime, which the check after the launch raises. *)
Definition embedding_renorm_cuda_of {D S A : Type} (ar : arithmetic D S A)
    (outside : S) (self : Tensor S) (indices : Tensor Z)
    (max_norm norm_type : D) : result (Tensor S) :=
  check checkContiguous self ;;
  check checkContiguous indices ;;
  check checkDim self 2 ;;
  check checkSameGPU self indices ;;
  let unique_indices := unique_copy (elements indices) in
  let num_unique_indices := to_int (Z.of_nat (List.length unique_indices)) in
  let dim := to_int (size_last self) in
  let weights :=
    launch_renorm_kernel_of ar num_unique_indices (data_ptr 0 unique_indices)
      (acc_of_double ar max_norm) (acc_of_double ar norm_type) dim
      (data_ptr outside (elements self)) in
  check THCudaCheck (num_unique_indices <=? 0) ;;
  Ok {| scalar_type := scalar_type self;
        is_contiguous := is_contiguous self;
        get_device := get_device self;
        sizes := sizes self;
        elements := map weights (zrange (tensor_numel self)) |}.

(** The instantiation over the reals that [renorm_kernel] above computes
    with. *)
Definition real_arithmetic : arithmetic R R (option R) :=
  {| acc_of_double := Some;
     to_acc := Some;
     acc_zero := Some 0%R;
     acc_plus := acc_add;
     acc_abs := option_map Rabs;
     acc_times := fun a b =>
       match a, b with Some x, Some y => Some (x * y)%R | _, _ => None end;
     acc_pow := fun a b =>
       match a, b with Some x, Some y => std_pow x y | _, _ => None end;
     acc_is := fun a k =>
       match a with
       | Some x => if Req_dec_T x (IZR k) then true else false
       | None => false
       end;
     acc_inverse := option_map (fun y => (1 / y)%R);
     acc_gt := fun a b =>
       match a, b with
       | Some x, Some y => if Rlt_dec y x then true else false
       | _, _ => false
       end;
     acc_factor := fun m n =>
       match m, n with Some x, Some y => (x / (y + 1e-7))%R | _, _ => 0%R end;
     scalar_times := Rmult;
     block_reduce := reduceBlock |}.

(** * Properties

    ** Finite sums

    Every accumulation of the kernels is described by a finite sum in a
    commutative monoid: the rationals for the content of the table, the
    integers for counts of stores. *)

Class CMonoid {A : Type} (zero : A) (add : A -> A -> A) : Prop :=
  { cm_comm : forall x y, add x y = add y x;
    cm_assoc : forall x y z, add x (add y z) = add (add x y) z;
    cm_unit : forall x, add zero x = x }.

Fixpoint bigsum {A X : Type} (zero : A) (add : A -> A -> A)
    (h : X -> A) (l : list X) : A :=
  match l with
  | [] => zero
  | x :: t => add (h x) (bigsum zero add h t)
  end.

(** The sum of rationals, and the counting sum. *)
Definition qsum {X : Type} (h : X -> Qc) (l : list X) : Qc := bigsum 0%Qc Qcplus h l.
Definition zsum {X : Type} (h : X -> Z) (l : list X) : Z := bigsum 0 Z.add h l.

#[export] Instance Qc_monoid : CMonoid 0%Qc Qcplus.
Proof. split; intros; ring. Qed.

#[export] Instance Z_monoid : CMonoid 0 Z.add.
Proof. split; intros; ring. Qed.

Section BigSum.
Context {A : Type} {zero : A} {add : A -> A -> A} {M : CMonoid zero add}.

Local Abbreviation sum := (bigsum zero add).

Lemma cm_unit_r : forall x, add x zero = x.
Proof. intro x. rewrite cm_comm. apply cm_unit. Qed.

Lemma bigsum_app {X} (h : X -> A) l1 l2 :
  sum h (l1 ++ l2) = add (sum h l1) (sum h l2).
Proof.
  induction l1 as [|x l1 IH]; simpl.
  - now rewrite cm_unit.
  - now rewrite IH, cm_assoc.
Qed.

Lemma bigsum_ext_in {X} (h g : X -> A) l :
  (forall x, In x l -> h x = g x) -> sum h l = sum g l.
Proof.
  induction l as [|x l IH]; simpl; intros H; [reflexivity|].
  rewrite (H x) by now left. rewrite IH; [reflexivity|].
  intros y Hy. apply H. now right.
Qed.

Lemma bigsum_zero {X} (h : X -> A) l :
  (forall x, In x l -> h x = zero) -> sum h l = zero.
Proof.
  induction l as [|x l IH]; simpl; intros H; [reflexivity|].
  rewrite (H x) by now left. rewrite cm_unit. apply IH.
  intros y Hy. apply H. now right.
Qed.

Lemma bigsum_add {X} (h g : X -> A) l :
  sum (fun x => add (h x) (g x)) l = add (sum h l) (sum g l).
Proof.
  induction l as [|x l IH]; simpl.
  - now rewrite cm_unit.
  - rewrite IH. rewrite !cm_assoc. f_equal.
    rewrite <- !cm_assoc. f_equal. apply cm_comm.
Qed.

Lemma bigsum_swap {X Y} (h : X -> Y -> A) l1 l2 :
  sum (fun x => sum (fun y => h x y) l2) l1
  = sum (fun y => sum (fun x => h x y) l1) l2.
Proof.
  induction l1 as [|x l1 IH]; simpl.
  - symmetry. now apply bigsum_zero.
  - rewrite IH. now rewrite <- bigsum_add.
Qed.

Lemma bigsum_perm {X} (h : X -> A) l l' :
  Permutation l l' -> sum h l = sum h l'.
Proof.
  induction 1; simpl.
  - reflexivity.
  - now rewrite IHPermutation.
  - rewrite !cm_assoc. f_equal. apply cm_comm.
  - congruence.
Qed.

Lemma bigsum_map {X Y} (h : Y -> A) (g : X -> Y) l :
  sum h (map g l) = sum (fun x => h (g x)) l.
Proof. induction l as [|x l IH]; simpl; congruence. Qed.

Lemma bigsum_flat_map {X Y} (h : Y -> A) (g : X -> list Y) l :
  sum h (flat_map g l) = sum (fun x => sum h (g x)) l.
Proof.
  induction l as [|x l IH]; simpl; [reflexivity|].
  now rewrite bigsum_app, IH.
Qed.

Lemma bigsum_if {X} (b : bool) (h : X -> A) l :
  sum (fun x => if b then h x else zero) l = if b then sum h l else zero.
Proof. destruct b; [reflexivity|]. now apply bigsum_zero. Qed.

(** A sum with one term that can differ from zero. *)
Lemma bigsum_pick (h : Z -> A) (x0 lo : Z) (len : nat) :
  sum (fun x => if x =? x0 then h x else zero) (zseq lo len)
  = if (lo <=? x0) && (x0 <? lo + Z.of_nat len) then h x0 else zero.
Proof.
  revert lo. induction len as [|len IH]; intros lo.
  - cbn [zseq bigsum].
    destruct (Z.leb_spec lo x0), (Z.ltb_spec x0 (lo + Z.of_nat 0)); simpl;
      try reflexivity; lia.
  - cbn [zseq bigsum]. rewrite IH, Nat2Z.inj_succ.
    destruct (Z.eqb_spec lo x0) as [E|E];
      destruct (Z.leb_spec (lo + 1) x0), (Z.leb_spec lo x0),
               (Z.ltb_spec x0 (lo + 1 + Z.of_nat len)),
               (Z.ltb_spec x0 (lo + Z.succ (Z.of_nat len)));
      simpl; try lia; subst;
      rewrite ?cm_unit, ?cm_unit_r; reflexivity.
Qed.
End BigSum.

(** ** Ranges and loops *)

Lemma In_zseq x lo len : In x (zseq lo len) <-> lo <= x < lo + Z.of_nat len.
Proof.
  revert lo. induction len as [|len IH]; intros lo; cbn [zseq In].
  - lia.
  - rewrite IH. lia.
Qed.

Lemma In_zrange x n : In x (zrange n) <-> 0 <= x < n.
Proof. unfold zrange. rewrite In_zseq. lia. Qed.

Lemma NoDup_zseq lo len : NoDup (zseq lo len).
Proof.
  revert lo. induction len as [|len IH]; intros lo; cbn [zseq]; constructor.
  - rewrite In_zseq. lia.
  - apply IH.
Qed.

Lemma length_zseq lo len : List.length (zseq lo len) = len.
Proof. revert lo. induction len; intros; simpl; auto. Qed.

Lemma zseq_app lo a b : zseq lo (a + b) = zseq lo a ++ zseq (lo + Z.of_nat a) b.
Proof.
  revert lo. induction a as [|a IH]; intros lo.
  - simpl. now rewrite Z.add_0_r.
  - cbn [Nat.add zseq app]. rewrite IH.
    replace (lo + 1 + Z.of_nat a) with (lo + Z.of_nat (S a)) by lia. reflexivity.
Qed.

Lemma nth_zseq k lo len d : (k < len)%nat -> nth k (zseq lo len) d = lo + Z.of_nat k.
Proof.
  revert lo k. induction len as [|len IH]; intros lo k Hk; [lia|].
  destruct k as [|k]; cbn [zseq nth]; [lia|].
  rewrite IH by lia. lia.
Qed.

(** The values the loop variable of [for_loop] takes. *)
Fixpoint loop_indices (fuel : nat) (i stop step : Z) : list Z :=
  match fuel with
  | O => []
  | S k => if i <? stop then i :: loop_indices k (i + step) stop step else []
  end.

Lemma for_loop_fold {S : Type} fuel i stop step (body : Z -> S -> S) s :
  for_loop fuel i stop step body s
  = fold_left (fun s x => body x s) (loop_indices fuel i stop step) s.
Proof.
  revert i s. induction fuel as [|k IH]; intros i s; cbn [for_loop loop_indices].
  - reflexivity.
  - destruct (i <? stop); [apply IH | reflexivity].
Qed.

(** With enough fuel the loop stops because its condition fails: the last
    value of the loop variable plus the step reaches [stop]. *)
Lemma loop_indices_spec fuel i stop step x :
  0 < step -> stop - i <= Z.of_nat fuel * step ->
  (In x (loop_indices fuel i stop step)
   <-> i <= x < stop /\ (x - i) mod step = 0).
Proof.
  intros Hstep. revert i. induction fuel as [|k IH]; intros i Hfuel.
  - cbn [loop_indices In]. lia.
  - cbn [loop_indices]. destruct (Z.ltb_spec i stop) as [Hlt|Hge].
    + cbn [In]. rewrite IH by lia. split.
      * intros [<-|[H1 H2]].
        -- rewrite Z.sub_diag. now split; [lia | apply Z.mod_0_l; lia].
        -- split; [lia|].
           replace (x - i) with (x - (i + step) + 1 * step) by lia.
           now rewrite Z.mod_add by lia.
      * intros [H1 H2]. destruct (Z.eq_dec i x) as [|Hne]; [now left|right].
        assert (Hd : x - i = step * ((x - i) / step))
          by (apply Z.div_exact; lia).
        assert (0 < (x - i) / step) by nia.
        split; [nia|].
        replace (x - (i + step)) with (x - i + (-1) * step) by lia.
        now rewrite Z.mod_add by lia.
    + cbn [In]. lia.
Qed.

(** ** Additive effects

    [obs] observes one number of a state (one cell of the table, the count
    of stores to one offset); a fold of steps that each add to it adds the
    sum. *)
Section Additive.
Context {A : Type} {zero : A} {add : A -> A -> A} {M : CMonoid zero add}.

Lemma fold_adds_pre {X S : Type} (obs : S -> A) (F : X -> S -> S) (d : X -> A)
    (P : list X -> S -> Prop) :
  (forall x l s, P (x :: l) s ->
                 P l (F x s) /\ obs (F x s) = add (obs s) (d x)) ->
  forall l s, P l s ->
    P [] (fold_left (fun s x => F x s) l s)
    /\ obs (fold_left (fun s x => F x s) l s) = add (obs s) (bigsum zero add d l).
Proof.
  intros step. induction l as [|x l IH]; intros s Hs; cbn [fold_left bigsum].
  - split; [assumption|]. now rewrite cm_unit_r.
  - destruct (step x l s Hs) as [HP Hobs].
    destruct (IH _ HP) as [HP' Hobs']. split; [assumption|].
    now rewrite Hobs', Hobs, cm_assoc.
Qed.

Lemma fold_adds_inv {X S : Type} (obs : S -> A) (F : X -> S -> S) (d : X -> A)
    (I : S -> Prop) (l : list X) :
  (forall x s, In x l -> I s -> I (F x s) /\ obs (F x s) = add (obs s) (d x)) ->
  forall s, I s ->
    I (fold_left (fun s x => F x s) l s)
    /\ obs (fold_left (fun s x => F x s) l s) = add (obs s) (bigsum zero add d l).
Proof.
  intros step s Hs.
  destruct (fold_adds_pre obs F d (fun l' s => I s /\ incl l' l)) with (l := l) (s := s)
    as [[HI _] Hobs].
  - intros x l' s' [HI Hincl].
    destruct (step x s') as [HI' Hobs]; [apply Hincl; now left | assumption |].
    repeat split; try assumption. intros y Hy. apply Hincl. now right.
  - split; [assumption | apply incl_refl].
  - now split.
Qed.

Lemma fold_adds {X S : Type} (obs : S -> A) (F : X -> S -> S) (d : X -> A)
    (l : list X) :
  (forall x s, In x l -> obs (F x s) = add (obs s) (d x)) ->
  forall s, obs (fold_left (fun s x => F x s) l s) = add (obs s) (bigsum zero add d l).
Proof.
  intros step s.
  apply (fold_adds_inv obs F d (fun _ => True) l); [|exact I].
  intros x s' Hx _. split; [exact I | now apply step].
Qed.
End Additive.

(** ** The sorted kernel: the effect of one row on the table *)

Lemma cells_gstore a v m x :
  cells (gstore a v m) x = if x =? a then v else cells m x.
Proof. reflexivity. Qed.

Lemma store_count_gstore a v m x :
  store_count (gstore a v m) x = store_count m x + (if x =? a then 1 else 0).
Proof.
  unfold store_count, gstore. cbn [stores count_occ].
  destruct (Z.eq_dec a x) as [E|E]; destruct (Z.eqb_spec x a); try lia; congruence.
Qed.

Local Infix "+q" := Qcplus (at level 50, left associativity).
Local Infix "*q" := Qcmult (at level 40, left associativity).

(** Register arrays: a fold of element assignments. *)
Lemma fold_upd_other {X : Type} (v : (Z -> X) -> Z -> X) (c : Z -> bool) l w ii :
  ~ In ii l ->
  fold_left (fun w j => if c j then upd w j (v w j) else w) l w ii = w ii.
Proof.
  revert w. induction l as [|x l IH]; intros w Hn; cbn [fold_left]; [reflexivity|].
  rewrite IH by (intro; apply Hn; now right).
  destruct (c x); [|reflexivity]. unfold upd.
  destruct (Z.eqb_spec ii x); [|reflexivity]. subst. exfalso. apply Hn. now left.
Qed.

Section SortedRow.
Variables (input indices : Z -> Z) (grad_output : Z -> Qc).
Variable count : option (Z -> Z).
Variables (stride by_ tx idx : Z).

Local Abbreviation fd ii := (start_feature by_ tx + ii * WARP_SIZE).
Local Abbreviation w_row := (weight_row input stride idx).
Local Abbreviation g_row := (grad_row indices stride idx).

Lemma load_rows_spec gw ii :
  In ii (zrange SZ) -> fd ii < stride ->
  fst (load_rows input indices grad_output stride by_ tx idx gw) ii
  = grad_output (g_row + fd ii)
  /\ snd (load_rows input indices grad_output stride by_ tx idx gw) ii
     = cells gw (w_row + fd ii).
Proof.
  unfold load_rows. generalize (fun _ : Z => 0%Qc, fun _ : Z => 0%Qc).
  induction (zrange SZ) as [|x l IH]; intros r Hin Hlt; [destruct Hin|].
  cbn [fold_left].
  destruct (in_dec Z.eq_dec ii l) as [Hl|Hl]; [now apply IH|].
  destruct Hin as [->|Hin]; [|contradiction].
  destruct (Z.ltb_spec (fd ii) stride) as [_|]; [|lia].
  clear IH Hlt. revert Hl.
  match goal with |- _ -> fst (fold_left ?F l ?r0) ii = _ /\ _ =>
    set (step := F); set (r1 := r0) end.
  assert (H : forall l r, ~ In ii l ->
              fst (fold_left step l r) ii = fst r ii
              /\ snd (fold_left step l r) ii = snd r ii).
  { clear. induction l as [|y l IH]; intros r Hn; cbn [fold_left]; [now split|].
    destruct (IH (step r y)) as [E1 E2]; [intro; apply Hn; now right|].
    rewrite E1, E2. unfold step.
    destruct (fd y <? stride); [|now split]. cbn [fst snd]. unfold upd.
    destruct (Z.eqb_spec ii y); [|now split]. subst. exfalso. apply Hn. now left. }
  intros Hl. destruct (H l r1 Hl) as [E1 E2]. rewrite E1, E2.
  unfold r1. cbn [fst snd]. unfold upd. now rewrite Z.eqb_refl.
Qed.

Lemma add_scaled_spec scale gradient weight ii :
  In ii (zrange SZ) ->
  add_scaled scale gradient weight ii = weight ii +q gradient ii *q scale.
Proof.
  unfold add_scaled. pose proof (NoDup_zseq 0 (Z.to_nat SZ)) as Hnd.
  fold (zrange SZ) in Hnd. revert weight Hnd.
  induction (zrange SZ) as [|x l IH]; intros weight Hnd Hin; [destruct Hin|].
  inversion Hnd as [|? ? Hx Hnd']; subst. cbn [fold_left].
  destruct Hin as [->|Hin].
  - rewrite (fold_upd_other (fun w j => w j +q gradient j *q scale) (fun _ => true))
      by assumption.
    unfold upd. now rewrite Z.eqb_refl.
  - rewrite IH by assumption. unfold upd.
    destruct (Z.eqb_spec ii x); [subst; contradiction | reflexivity].
Qed.

(** What iteration [ii] of the store loop adds to cell [a]. *)
Definition row_term {A : Type} (zero : A) (v : Z -> A) (a ii : Z) : A :=
  if (fd ii <? stride) && (a =? w_row + fd ii) then v (fd ii) else zero.

Lemma accumulate_row_cells gw a :
  cells (accumulate_row input indices grad_output count stride by_ tx idx gw) a
  = cells gw a
    +q qsum (row_term 0%Qc
               (fun f => grad_output (g_row + f) *q scale_at count idx) a)
            (zrange SZ).
Proof.
  unfold accumulate_row, store_row, qsum.
  set (regs := load_rows input indices grad_output stride by_ tx idx gw).
  set (weight := add_scaled (scale_at count idx) (fst regs) (snd regs)).
  pose (P := fun (l : list Z) (m : gmem) =>
               NoDup l /\ incl l (zrange SZ)
               /\ forall ii, In ii l -> cells m (w_row + fd ii) = cells gw (w_row + fd ii)).
  refine (proj2 (fold_adds_pre (fun m => cells m a) _ _ P _ (zrange SZ) gw _)).
  - intros x l m (Hnd & Hincl & Hsame).
    inversion Hnd as [|? ? Hx Hnd']; subst.
    assert (Hxin : In x (zrange SZ)) by (apply Hincl; now left).
    unfold row_term. destruct (Z.ltb_spec (fd x) stride) as [Hlt|Hge]; cbn [andb].
    + split.
      * repeat split; [assumption | intros y Hy; apply Hincl; now right |].
        intros ii Hii. rewrite cells_gstore.
        destruct (Z.eqb_spec (w_row + fd ii) (w_row + fd x)) as [E|E].
        -- assert (ii = x) by (unfold WARP_SIZE in E; lia). subst. contradiction.
        -- apply Hsame. now right.
      * rewrite cells_gstore. destruct (Z.eqb_spec a (w_row + fd x)) as [E|E].
        -- subst a. unfold weight. rewrite add_scaled_spec by assumption.
           destruct (load_rows_spec gw x Hxin Hlt) as [E1 E2]. fold regs in E1, E2.
           rewrite E1, E2. rewrite Hsame by now left. reflexivity.
        -- now rewrite Qcplus_0_r.
    + split; [|now rewrite Qcplus_0_r].
      repeat split; [assumption | intros y Hy; apply Hincl; now right |].
      intros ii Hii. apply Hsame. now right.
  - repeat split; [apply NoDup_zseq | apply incl_refl].
Qed.

Lemma accumulate_row_stores gw a :
  store_count (accumulate_row input indices grad_output count stride by_ tx idx gw) a
  = store_count gw a + zsum (row_term 0 (fun _ => 1) a) (zrange SZ).
Proof.
  unfold accumulate_row, store_row, zsum.
  apply (fold_adds (fun m => store_count m a)).
  intros x m _. unfold row_term.
  destruct (fd x <? stride); cbn [andb]; [apply store_count_gstore | lia].
Qed.
End SortedRow.

(** ** The sorted kernel: the effect of a launch

    The development is generic in what is observed of the table: [obs m a]
    is the content of cell [a], or the number of stores to it; [val idx f]
    is what the row of sorted position [idx] adds at feature [f]. *)

Lemma bigsum_block_threads {A : Type} (zero : A) (add : A -> A -> A)
    {M : CMonoid zero add} (h : Z * Z -> A) dx dy :
  bigsum zero add h (block_threads dx dy)
  = bigsum zero add (fun ty => bigsum zero add (fun tx => h (tx, ty)) (zrange dx))
           (zrange dy).
Proof.
  unfold block_threads. rewrite bigsum_flat_map. apply bigsum_ext_in.
  intros ty _. now rewrite bigsum_map.
Qed.

Section SortedLaunch.
Context {A : Type} {zero : A} {add : A -> A -> A} {M : CMonoid zero add}.
Variables (input indices : Z -> Z) (grad_output : Z -> Qc).
Variable count : option (Z -> Z).
Variables (numel stride padding_idx : Z).
Variable obs : gmem -> Z -> A.
Variable val : Z -> Z -> A.

Local Abbreviation sum := (bigsum zero add).

(** What the row of sorted position [idx] adds to cell [a], for the
    thread of tile [by_] and lane [tx]. *)
Definition row_effect (by_ tx a idx : Z) : A :=
  sum (row_term input stride by_ tx idx zero (val idx) a) (zrange SZ).

Hypothesis obs_row : forall by_ tx idx gw a,
  obs (accumulate_row input indices grad_output count stride by_ tx idx gw) a
  = add (obs gw a) (row_effect by_ tx a idx).

(** The sum of [h] over the run a walk of [fuel] steps from [idx] visits. *)
Fixpoint run_sum (h : Z -> A) (fuel : nat) (idx : Z) : A :=
  match fuel with
  | O => zero
  | S k =>
      add (h idx)
          (if (idx + 1 <? numel) && (input (idx + 1) =? input (idx + 1 - 1))
           then run_sum h k (idx + 1) else zero)
  end.

Lemma walk_run_effect by_ tx a fuel idx gw :
  obs (walk_run input indices grad_output count numel stride by_ tx fuel idx gw) a
  = add (obs gw a) (run_sum (row_effect by_ tx a) fuel idx).
Proof.
  revert idx gw. induction fuel as [|k IH]; intros idx gw; cbn [walk_run run_sum].
  - now rewrite (cm_unit_r (zero := zero)).
  - destruct ((idx + 1 <? numel) && (input (idx + 1) =? input (idx + 1 - 1))).
    + now rewrite IH, obs_row, cm_assoc.
    + now rewrite obs_row, (cm_unit_r (zero := zero)).
Qed.

(** The test a thread passes to become the owner of a run. *)
Definition owns (idx : Z) : bool :=
  (idx <? numel)
  && ((idx =? 0) || negb (input idx =? input (idx - 1)))
  && negb (input idx =? padding_idx).

Definition thread_effect (a bx by_ tx ty : Z) : A :=
  let idx := bx * 4 + ty in
  if owns idx
  then run_sum (row_effect by_ tx a) (Z.to_nat (numel - idx)) idx
  else zero.

Lemma kernel_thread_effect a bx by_ tx ty gw :
  obs (embedding_backward_kernel input indices grad_output count numel stride
         padding_idx bx by_ tx ty gw) a
  = add (obs gw a) (thread_effect a bx by_ tx ty).
Proof.
  unfold embedding_backward_kernel, thread_effect, owns.
  match goal with |- context [if ?c then _ else _] => destruct c end.
  - apply walk_run_effect.
  - now rewrite (cm_unit_r (zero := zero)).
Qed.

Lemma launch_effect grid_x grid_y a gw :
  obs (launch_backward_kernel grid_x grid_y input indices grad_output count
         numel stride padding_idx gw) a
  = add (obs gw a)
        (sum (fun bx =>
                sum (fun by_ =>
                       sum (fun ty =>
                              sum (fun tx => thread_effect a bx by_ tx ty)
                                  (zrange 32))
                           (zrange 4))
                    (zrange grid_y))
             (zrange grid_x)).
Proof.
  unfold launch_backward_kernel.
  apply (fold_adds (fun m => obs m a)). intros bx gw1 _.
  apply (fold_adds (fun m => obs m a)). intros by_ gw2 _.
  unfold run_phase.
  rewrite (fold_adds (fun m => obs m a)
             (fun t m => embedding_backward_kernel input indices grad_output count
                           numel stride padding_idx bx by_ (fst t) (snd t) m)
             (fun t => thread_effect a bx by_ (fst t) (snd t))).
  - now rewrite bigsum_block_threads.
  - intros t m _. apply kernel_thread_effect.
Qed.
End SortedLaunch.

(** ** Sums over ranges *)

Section RangeSums.
Context {A : Type} {zero : A} {add : A -> A -> A} {M : CMonoid zero add}.

Local Abbreviation sum := (bigsum zero add).

(** A sum over a range in which only the term at [x0] can differ from
    zero. *)
Lemma bigsum_only (h : Z -> A) (x0 lo : Z) (len : nat) :
  (forall x, In x (zseq lo len) -> x <> x0 -> h x = zero) ->
  sum h (zseq lo len)
  = if (lo <=? x0) && (x0 <? lo + Z.of_nat len) then h x0 else zero.
Proof.
  intros H. rewrite <- bigsum_pick. apply bigsum_ext_in.
  intros x Hx. destruct (Z.eqb_spec x x0); [reflexivity | now apply H].
Qed.

Lemma bigsum_shift (h : Z -> A) (d lo : Z) (len : nat) :
  sum h (zseq (lo + d) len) = sum (fun x => h (x + d)) (zseq lo len).
Proof.
  revert lo. induction len as [|len IH]; intros lo; cbn [zseq bigsum]; [reflexivity|].
  f_equal. rewrite <- IH. f_equal. f_equal. lia.
Qed.

(** Blocks of [c] consecutive positions cover a range. *)
Lemma bigsum_blocks (h : Z -> A) (c nb : nat) :
  sum (fun b => sum (fun t => h (b * Z.of_nat c + t)) (zseq 0 c)) (zseq 0 nb)
  = sum h (zseq 0 (nb * c)).
Proof.
  induction nb as [|nb IH].
  - reflexivity.
  - replace (S nb) with (nb + 1)%nat at 1 by lia.
    rewrite zseq_app, bigsum_app, IH.
    replace (S nb * c)%nat with (nb * c + c)%nat by lia.
    rewrite zseq_app, bigsum_app. f_equal.
    cbn [zseq bigsum]. rewrite (cm_unit_r (zero := zero)).
    rewrite (bigsum_shift h (Z.of_nat (nb * c)) 0 c).
    apply bigsum_ext_in. intros t _. f_equal. lia.
Qed.

Lemma bigsum_truncate (h : Z -> A) (n m : nat) :
  (n <= m)%nat ->
  (forall k, Z.of_nat n <= k < Z.of_nat m -> h k = zero) ->
  sum h (zseq 0 m) = sum h (zseq 0 n).
Proof.
  intros Hle Hz. replace m with (n + (m - n))%nat by lia.
  rewrite zseq_app, bigsum_app,
    (bigsum_zero h (zseq (0 + Z.of_nat n) (m - n))), (cm_unit_r (zero := zero));
    [reflexivity|].
  intros x Hx. apply In_zseq in Hx. apply Hz. lia.
Qed.
End RangeSums.

(** ** The sorted kernel: runs partition the sorted positions *)

Section Runs.
Context {A : Type} {zero : A} {add : A -> A -> A} {M : CMonoid zero add}.
Variables (key : Z -> Z) (n pad : Z).
Variable h : Z -> A.

Local Abbreviation sum := (bigsum zero add).
Local Abbreviation walk := (run_sum (zero := zero) (add := add) key n h).
Local Abbreviation term := (fun k => if key k =? pad then zero else h k).
Local Abbreviation owned :=
  (fun idx => if owns key n pad idx then walk (Z.to_nat (n - idx)) idx else zero).

Lemma runs_suffix (len : nat) (j : Z) :
  0 <= j -> j + Z.of_nat (S len) = n ->
  sum term (zseq j (S len))
  = add (if key j =? pad then zero else walk (S len) j)
        (sum owned (zseq (j + 1) len)).
Proof.
  revert j. induction len as [|len IH]; intros j Hj Hn.
  - cbn [zseq bigsum run_sum].
    replace (j + 1 <? n) with false by lia. cbn [andb].
    destruct (key j =? pad); now rewrite ?(cm_unit_r (zero := zero)).
  - change (sum term (zseq j (S (S len))))
      with (add (term j) (sum term (zseq (j + 1) (S len)))).
    rewrite IH by lia.
    change (sum owned (zseq (j + 1) (S len)))
      with (add (owned (j + 1)) (sum owned (zseq (j + 1 + 1) len))).
    set (rest := sum owned (zseq (j + 1 + 1) len)).
    cbn [run_sum]. unfold owns.
    replace (j + 1 - 1) with j by lia.
    replace (j + 1 <? n) with true by lia.
    replace (j + 1 =? 0) with false by lia.
    replace (Z.to_nat (n - (j + 1))) with (S len) by lia.
    cbn [andb orb].
    set (W := run_sum key n h (S len) (j + 1)).
    destruct (Z.eqb_spec (key (j + 1)) (key j)) as [E|E]; cbn [negb andb].
    + rewrite E. destruct (key j =? pad).
      * now rewrite !(cm_unit (zero := zero)).
      * now rewrite (cm_unit (zero := zero)), cm_assoc.
    + destruct (key j =? pad), (key (j + 1) =? pad); cbn [negb];
        now rewrite ?(cm_unit (zero := zero)), ?(cm_unit_r (zero := zero)).
Qed.

Lemma runs_partition :
  0 <= n -> sum owned (zrange n) = sum term (zrange n).
Proof.
  intros Hn. unfold zrange. destruct (Z.to_nat n) as [|len] eqn:E; [reflexivity|].
  rewrite runs_suffix by lia. cbn [zseq bigsum]. f_equal.
  unfold owns. replace (0 <? n) with true by lia.
  rewrite Z.sub_0_r, E. cbn [Z.eqb orb andb].
  now destruct (key 0 =? pad).
Qed.
End Runs.

(** ** The sorted kernel: the effect of a launch on one cell *)

Lemma cell_unique s r1 f1 r2 f2 :
  0 <= f1 < s -> 0 <= f2 < s -> r1 * s + f1 = r2 * s + f2 -> r1 = r2 /\ f1 = f2.
Proof. intros H1 H2 E. assert (r1 = r2) by nia. subst. lia. Qed.

Section SortedEval.
Context {A : Type} {zero : A} {add : A -> A -> A} {M : CMonoid zero add}.
Variables (input : Z -> Z) (numel stride padding_idx : Z).
Variable val : Z -> Z -> A.
(** The row offsets fit in [int]. *)
Hypothesis weight_row_fits :
  forall k, 0 <= k < numel -> weight_row input stride k = input k * stride.
(** The cell observed: feature [f] of row [r]. *)
Variables (r f : Z).
Hypothesis f_range : 0 <= f < stride.

Local Abbreviation sum := (bigsum zero add).
Local Abbreviation effect :=
  (row_effect (zero := zero) (add := add) input stride val).

(** The thread that holds feature [f]. *)
Definition holds_feature (by_ tx : Z) : bool := (by_ =? f / 128) && (tx =? f mod 32).

(** What sorted position [k] adds to the cell. *)
Definition position_term (k : Z) : A := if input k =? r then val k f else zero.

Lemma row_effect_eval by_ tx idx :
  0 <= by_ -> 0 <= tx < 32 -> 0 <= idx < numel ->
  effect by_ tx (r * stride + f) idx
  = if holds_feature by_ tx then position_term idx else zero.
Proof.
  intros Hby Htx Hidx. unfold row_effect, zrange, holds_feature, position_term.
  assert (Hx0 : 0 <= f mod 128 / 32 < 4)
    by (Z.to_euclidean_division_equations; lia).
  assert (Hdec : f = f mod 32 + f / 128 * 32 * 4 + f mod 128 / 32 * 32)
    by (Z.to_euclidean_division_equations; lia).
  rewrite (bigsum_only _ ((f mod 128) / 32)).
  - change (Z.of_nat (Z.to_nat SZ)) with 4.
    replace ((0 <=? f mod 128 / 32) && (f mod 128 / 32 <? 0 + 4)) with true
      by (symmetry; apply andb_true_intro; split;
          [apply Z.leb_le | apply Z.ltb_lt]; lia).
    unfold row_term, start_feature, SZ, WARP_SIZE.
    rewrite weight_row_fits by assumption.
    set (x0 := f mod 128 / 32) in *.
    destruct (Z.eqb_spec by_ (f / 128)) as [E1|E1];
      destruct (Z.eqb_spec tx (f mod 32)) as [E2|E2]; cbn [andb].
    + subst by_ tx. rewrite <- Hdec.
      replace (f <? stride) with true by lia. cbn [andb].
      destruct (Z.eqb_spec (r * stride + f) (input idx * stride + f)) as [E|E];
        destruct (Z.eqb_spec (input idx) r) as [E3|E3];
        try reflexivity; exfalso; [nia | apply E; now rewrite E3].
    + destruct (Z.ltb_spec (tx + by_ * 32 * 4 + x0 * 32) stride) as [Hlt|Hge];
        [|reflexivity].
      destruct (Z.eqb_spec (r * stride + f)
                  (input idx * stride + (tx + by_ * 32 * 4 + x0 * 32))) as [E|E];
        [|reflexivity].
      exfalso. apply cell_unique in E; [|lia|lia]. destruct E as [_ E].
      subst by_. apply E2. clear - E Hdec Htx. subst x0.
      Z.to_euclidean_division_equations; lia.
    + destruct (Z.ltb_spec (tx + by_ * 32 * 4 + x0 * 32) stride) as [Hlt|Hge];
        [|reflexivity].
      destruct (Z.eqb_spec (r * stride + f)
                  (input idx * stride + (tx + by_ * 32 * 4 + x0 * 32))) as [E|E];
        [|reflexivity].
      exfalso. apply cell_unique in E; [|lia|lia]. destruct E as [_ E].
      apply E1. clear - E Hdec Htx Hby Hx0. subst x0.
      Z.to_euclidean_division_equations; lia.
    + destruct (Z.ltb_spec (tx + by_ * 32 * 4 + x0 * 32) stride) as [Hlt|Hge];
        [|reflexivity].
      destruct (Z.eqb_spec (r * stride + f)
                  (input idx * stride + (tx + by_ * 32 * 4 + x0 * 32))) as [E|E];
        [|reflexivity].
      exfalso. apply cell_unique in E; [|lia|lia]. destruct E as [_ E].
      apply E1. clear - E Hdec Htx Hby Hx0. subst x0.
      Z.to_euclidean_division_equations; lia.
  - intros ii Hii Hne. apply In_zseq in Hii.
    change (Z.of_nat (Z.to_nat SZ)) with 4 in Hii.
    unfold row_term, start_feature, SZ, WARP_SIZE.
    rewrite weight_row_fits by assumption.
    destruct (Z.ltb_spec (tx + by_ * 32 * 4 + ii * 32) stride) as [Hlt|Hge];
      [|reflexivity].
    destruct (Z.eqb_spec (r * stride + f)
                (input idx * stride + (tx + by_ * 32 * 4 + ii * 32))) as [E|E];
      [|reflexivity].
    exfalso. apply cell_unique in E; [|lia|lia]. destruct E as [_ E].
    apply Hne. Z.to_euclidean_division_equations; lia.
Qed.

Lemma run_sum_eval by_ tx fuel idx :
  0 <= by_ -> 0 <= tx < 32 -> 0 <= idx -> idx + Z.of_nat fuel <= numel ->
  run_sum (zero := zero) (add := add) input numel
    (effect by_ tx (r * stride + f)) fuel idx
  = if holds_feature by_ tx
    then run_sum (zero := zero) (add := add) input numel position_term fuel idx
    else zero.
Proof.
  intros Hby Htx. revert idx. induction fuel as [|k IH]; intros idx Hidx Hfuel.
  - cbn [run_sum]. now destruct (holds_feature by_ tx).
  - cbn [run_sum]. rewrite row_effect_eval by lia.
    destruct ((idx + 1 <? numel) && (input (idx + 1) =? input (idx + 1 - 1))).
    + rewrite IH by lia. destruct (holds_feature by_ tx); [reflexivity|].
      apply (cm_unit (zero := zero)).
    + destruct (holds_feature by_ tx); [reflexivity|].
      apply (cm_unit (zero := zero)).
Qed.

(** What the run owned at [idx] adds to the cell. *)
Definition owned_sum (idx : Z) : A :=
  if owns input numel padding_idx idx
  then run_sum (zero := zero) (add := add) input numel position_term
         (Z.to_nat (numel - idx)) idx
  else zero.

Lemma thread_effect_eval bx by_ tx ty :
  0 <= bx -> 0 <= by_ -> 0 <= tx < 32 -> 0 <= ty ->
  thread_effect (zero := zero) (add := add) input numel stride padding_idx val
    (r * stride + f) bx by_ tx ty
  = if holds_feature by_ tx then owned_sum (bx * 4 + ty) else zero.
Proof.
  intros Hbx Hby Htx Hty. unfold thread_effect, owned_sum.
  destruct (owns input numel padding_idx (bx * 4 + ty)) eqn:Ho.
  - apply run_sum_eval; try lia.
    unfold owns in Ho. apply andb_prop in Ho. destruct Ho as [Ho _].
    apply andb_prop in Ho. destruct Ho as [Ho _]. apply Z.ltb_lt in Ho. lia.
  - now destruct (holds_feature by_ tx).
Qed.

(** The effect of the whole grid on the cell: every sorted position whose
    value is not [padding_idx] adds its term once. *)
Lemma launch_sum_eval grid_x grid_y :
  0 <= numel <= 4 * grid_x -> stride <= 128 * grid_y ->
  sum (fun bx =>
         sum (fun by_ =>
                sum (fun ty =>
                       sum (fun tx =>
                              thread_effect (zero := zero) (add := add) input numel
                                stride padding_idx val (r * stride + f) bx by_ tx ty)
                           (zrange 32))
                    (zrange 4))
             (zrange grid_y))
      (zrange grid_x)
  = sum (fun k => if input k =? padding_idx then zero else position_term k)
        (zrange numel).
Proof.
  intros Hgx Hgy.
  rewrite <- (runs_partition input numel padding_idx position_term) by lia.
  fold owned_sum.
  transitivity (sum (fun bx => sum (fun ty => owned_sum (bx * 4 + ty)) (zrange 4))
                    (zrange grid_x)).
  - apply bigsum_ext_in. intros bx Hbx. apply In_zrange in Hbx.
    rewrite bigsum_swap.
    apply bigsum_ext_in. intros ty Hty. apply In_zrange in Hty.
    unfold zrange. rewrite (bigsum_only _ (f / 128) 0 (Z.to_nat grid_y)).
    + replace ((0 <=? f / 128) && (f / 128 <? 0 + Z.of_nat (Z.to_nat grid_y)))
        with true
        by (symmetry; apply andb_true_intro; split;
            [apply Z.leb_le | apply Z.ltb_lt];
            Z.to_euclidean_division_equations; lia).
      rewrite (bigsum_only _ (f mod 32)).
      * replace ((0 <=? f mod 32) && (f mod 32 <? 0 + Z.of_nat (Z.to_nat 32)))
          with true
          by (symmetry; apply andb_true_intro; split;
              [apply Z.leb_le | apply Z.ltb_lt];
              Z.to_euclidean_division_equations; lia).
        rewrite thread_effect_eval;
          try (Z.to_euclidean_division_equations; lia).
        unfold holds_feature. now rewrite !Z.eqb_refl.
      * intros tx Htx Hne. apply In_zseq in Htx.
        rewrite thread_effect_eval;
          try (Z.to_euclidean_division_equations; lia).
        unfold holds_feature. destruct (Z.eqb_spec tx (f mod 32)); [contradiction|].
        now rewrite andb_false_r.
    + intros by_ Hby Hne. apply In_zseq in Hby.
      apply bigsum_zero. intros tx Htx. apply In_zseq in Htx.
      rewrite thread_effect_eval by lia.
      unfold holds_feature. now destruct (Z.eqb_spec by_ (f / 128)).
  - change (zrange 4) with (zseq 0 4). unfold zrange.
    rewrite (bigsum_blocks owned_sum 4 (Z.to_nat grid_x)).
    apply bigsum_truncate; [lia|].
    intros k Hk. unfold owned_sum, owns.
    replace (k <? numel) with false by lia. reflexivity.
Qed.
End SortedEval.

(** ** Frequency counts: the two scans over the sorted list *)

(** The number of occurrences of [v] in [l]. *)
Definition occurrences (l : list Z) (v : Z) : Z :=
  Z.of_nat (count_occ Z.eq_dec l v).

Lemma occurrences_cons x l v :
  occurrences (x :: l) v = occurrences l v + (if x =? v then 1 else 0).
Proof.
  unfold occurrences. cbn [count_occ].
  destruct (Z.eq_dec x v), (Z.eqb_spec x v); try contradiction; lia.
Qed.

Lemma occurrences_nonneg l v : 0 <= occurrences l v.
Proof. unfold occurrences. lia. Qed.

Lemma occurrences_pos l v : In v l -> 0 < occurrences l v.
Proof.
  unfold occurrences. intros H.
  apply (count_occ_In Z.eq_dec) in H. lia.
Qed.

Lemma scan_by_key_from_length {V : Type} pred (op : V -> V -> V) keys :
  forall values pk pv, List.length values = List.length keys ->
  List.length (scan_by_key_from pred op pk pv keys values) = List.length keys.
Proof.
  induction keys as [|k keys IH]; intros [|v values] pk pv H;
    cbn [scan_by_key_from List.length] in *; try lia.
  now rewrite IH by lia.
Qed.

Lemma inclusive_scan_by_key_length {V : Type} pred (op : V -> V -> V) keys values :
  List.length values = List.length keys ->
  List.length (inclusive_scan_by_key pred op keys values) = List.length keys.
Proof.
  destruct keys as [|k keys], values as [|v values];
    cbn [inclusive_scan_by_key List.length]; try lia.
  intros H. now rewrite scan_by_key_from_length by lia.
Qed.

Section Scans.
(** The order the keys are sorted by: ascending for the first scan,
    descending for the scan over reverse iterators. *)
Variable R : Z -> Z -> Prop.
Hypothesis R_antisym : forall x y, R x y -> R y x -> x = y.

Lemma sorted_run_left pk k x L :
  StronglySorted R (pk :: k :: L) -> In x L -> x <> k -> x <> pk.
Proof.
  intros HS Hx Hne ->. apply Hne.
  apply StronglySorted_inv in HS. destruct HS as [HS Hpk].
  apply StronglySorted_inv in HS. destruct HS as [_ Hk].
  rewrite Forall_forall in Hpk, Hk.
  apply R_antisym; [apply Hpk; now left | now apply Hk].
Qed.

(** The first scan numbers the occurrences of a value. *)
Lemma count_scan_from L : forall pk pv j,
  StronglySorted R (pk :: L) -> (j < List.length L)%nat ->
  nth j (scan_by_key_from Z.eqb Z.add pk pv L (repeat 1 (List.length L))) 0
  = occurrences (firstn (S j) L) (nth j L 0)
    + (if nth j L 0 =? pk then pv else 0).
Proof.
  induction L as [|k L IH]; intros pk pv j HS Hj; [cbn in Hj; lia|].
  cbn [List.length repeat scan_by_key_from].
  destruct j as [|j]; cbn [nth]; rewrite firstn_cons.
  - rewrite occurrences_cons. cbn. rewrite Z.eqb_refl, (Z.eqb_sym k pk).
    destruct (pk =? k); lia.
  - cbn [List.length] in Hj.
    assert (HS' : StronglySorted R (k :: L))
      by (apply StronglySorted_inv in HS; tauto).
    rewrite IH by (assumption || lia).
    rewrite occurrences_cons, (Z.eqb_sym k (nth j L 0)).
    destruct (Z.eqb_spec (nth j L 0) k) as [E|E].
    + rewrite E, (Z.eqb_sym k pk). destruct (pk =? k); lia.
    + assert (nth j L 0 <> pk)
        by (eapply sorted_run_left; eauto; apply nth_In; lia).
      destruct (Z.eqb_spec (nth j L 0) pk); [contradiction | lia].
Qed.

(** The second scan spreads the largest number of a run over the run. *)
Lemma max_scan_from L : forall V pk pv j,
  StronglySorted R (pk :: L) -> List.length V = List.length L ->
  (forall i, (i < List.length L)%nat ->
             nth i V 0 = occurrences (skipn i L) (nth i L 0)) ->
  (j < List.length L)%nat ->
  nth j (scan_by_key_from Z.eqb Z.max pk pv L V) 0
  = Z.max (if nth j L 0 =? pk then pv else 0) (occurrences L (nth j L 0)).
Proof.
  induction L as [|k L IH]; intros V pk pv j HS HV Hval Hj; [cbn in Hj; lia|].
  destruct V as [|v V]; [cbn in HV; lia|].
  cbn [List.length] in *. cbn [scan_by_key_from].
  assert (Hv : v = occurrences (k :: L) k) by (apply (Hval 0%nat); lia).
  assert (HS' : StronglySorted R (k :: L))
    by (apply StronglySorted_inv in HS; tauto).
  pose proof (occurrences_nonneg L k) as Hk0.
  rewrite occurrences_cons, Z.eqb_refl in Hv.
  destruct j as [|j]; cbn [nth].
  - rewrite occurrences_cons, Z.eqb_refl, (Z.eqb_sym k pk).
    destruct (pk =? k); lia.
  - rewrite IH; try assumption; try lia.
    + pose proof (occurrences_nonneg L (nth j L 0)).
      rewrite occurrences_cons, (Z.eqb_sym k (nth j L 0)).
      destruct (Z.eqb_spec (nth j L 0) k) as [E|E].
      * rewrite E, (Z.eqb_sym k pk). destruct (pk =? k); lia.
      * assert (nth j L 0 <> pk)
          by (eapply sorted_run_left; eauto; apply nth_In; lia).
        destruct (Z.eqb_spec (nth j L 0) pk); [contradiction | lia].
    + intros i Hi. apply (Hval (S i)). lia.
Qed.

Lemma count_scan L j :
  StronglySorted R L -> (j < List.length L)%nat ->
  nth j (inclusive_scan_by_key Z.eqb Z.add L (repeat 1 (List.length L))) 0
  = occurrences (firstn (S j) L) (nth j L 0).
Proof.
  destruct L as [|k L]; intros HS Hj; [cbn in Hj; lia|].
  cbn [List.length repeat inclusive_scan_by_key].
  destruct j as [|j]; cbn [nth]; rewrite firstn_cons.
  - rewrite occurrences_cons. cbn. now rewrite Z.eqb_refl.
  - cbn [List.length] in Hj. rewrite count_scan_from by (assumption || lia).
    rewrite occurrences_cons, (Z.eqb_sym k (nth j L 0)). reflexivity.
Qed.

Lemma max_scan L V j :
  StronglySorted R L -> List.length V = List.length L ->
  (forall i, (i < List.length L)%nat ->
             nth i V 0 = occurrences (skipn i L) (nth i L 0)) ->
  (j < List.length L)%nat ->
  nth j (inclusive_scan_by_key Z.eqb Z.max L V) 0 = occurrences L (nth j L 0).
Proof.
  destruct L as [|k L]; intros HS HV Hval Hj; [cbn in Hj; lia|].
  destruct V as [|v V]; [cbn in HV; lia|].
  cbn [List.length] in *. cbn [inclusive_scan_by_key].
  assert (Hv : v = occurrences (k :: L) k) by (apply (Hval 0%nat); lia).
  pose proof (occurrences_nonneg L k) as Hk0.
  rewrite occurrences_cons, Z.eqb_refl in Hv.
  destruct j as [|j]; cbn [nth].
  - rewrite occurrences_cons, Z.eqb_refl. lia.
  - rewrite max_scan_from; try assumption; try lia.
    + pose proof (occurrences_nonneg L (nth j L 0)).
      rewrite occurrences_cons, (Z.eqb_sym k (nth j L 0)).
      destruct (Z.eqb_spec (nth j L 0) k) as [E|E]; [rewrite E|]; lia.
    + intros i Hi. apply (Hval (S i)). lia.
Qed.
End Scans.

Lemma StronglySorted_snoc {X : Type} (R : X -> X -> Prop) l a :
  StronglySorted R l -> Forall (fun y => R y a) l -> StronglySorted R (l ++ [a]).
Proof.
  induction 1 as [|x l HS IH Hx]; intros Ha; cbn [app].
  - constructor; constructor.
  - inversion Ha; subst. constructor; [now apply IH|].
    apply Forall_app. split; [assumption | now constructor].
Qed.

Lemma StronglySorted_rev {X : Type} (R : X -> X -> Prop) l :
  StronglySorted R l -> StronglySorted (fun x y => R y x) (rev l).
Proof.
  induction 1 as [|x l HS IH Hx]; cbn [rev]; [constructor|].
  apply StronglySorted_snoc; [assumption|].
  apply Forall_rev. exact Hx.
Qed.

Lemma occurrences_rev l v : occurrences (rev l) v = occurrences l v.
Proof. unfold occurrences. now rewrite count_occ_rev. Qed.

Lemma frequency_counts_length sorted :
  List.length (frequency_counts sorted) = List.length sorted.
Proof.
  unfold frequency_counts.
  rewrite length_rev, inclusive_scan_by_key_length; rewrite !length_rev.
  - reflexivity.
  - rewrite inclusive_scan_by_key_length; [reflexivity | apply repeat_length].
Qed.

(** After the two scans every position holds the number of occurrences of
    its value. *)
Lemma frequency_counts_nth sorted j :
  StronglySorted Z.le sorted -> (j < List.length sorted)%nat ->
  nth j (frequency_counts sorted) 0 = occurrences sorted (nth j sorted 0).
Proof.
  intros HS Hj. unfold frequency_counts.
  set (n := List.length sorted) in *.
  set (C1 := inclusive_scan_by_key Z.eqb Z.add sorted (repeat 1 n)).
  assert (HC1 : List.length C1 = n)
    by (unfold C1; rewrite inclusive_scan_by_key_length; [reflexivity | apply repeat_length]).
  rewrite rev_nth
    by (rewrite inclusive_scan_by_key_length; rewrite !length_rev; lia).
  rewrite inclusive_scan_by_key_length by (rewrite !length_rev; lia).
  rewrite length_rev. fold n.
  rewrite (max_scan (fun x y => y <= x)).
  - rewrite occurrences_rev, rev_nth by (fold n; lia). fold n.
    do 2 f_equal. lia.
  - intros; lia.
  - now apply StronglySorted_rev.
  - rewrite !length_rev. lia.
  - rewrite length_rev. fold n. intros i Hi.
    rewrite !rev_nth by lia. rewrite HC1. fold n.
    unfold C1. rewrite (count_scan Z.le) by (intros; lia || assumption || (fold n; lia)).
    rewrite skipn_rev, occurrences_rev. fold n.
    do 2 f_equal. lia.
  - rewrite length_rev. fold n. lia.
Qed.

Lemma frequency_counts_eq sorted :
  StronglySorted Z.le sorted ->
  frequency_counts sorted = map (occurrences sorted) sorted.
Proof.
  intros HS. apply (nth_ext _ _ 0 (occurrences sorted 0)).
  - now rewrite frequency_counts_length, length_map.
  - intros j Hj. rewrite frequency_counts_length in Hj.
    rewrite frequency_counts_nth by assumption.
    now rewrite (map_nth (occurrences sorted) sorted 0 j).
Qed.

(** ** Arrays seen through pointers *)

Lemma to_int_small x : - 2 ^ 31 <= x < 2 ^ 31 -> to_int x = x.
Proof. intros H. unfold to_int. rewrite Z.mod_small; lia. Qed.

Lemma to_int_range x : - 2 ^ 31 <= to_int x < 2 ^ 31.
Proof.
  unfold to_int. pose proof (Z.mod_pos_bound (x + 2 ^ 31) (2 ^ 32)). lia.
Qed.

Lemma data_ptr_nth {X : Type} (d : X) l k :
  0 <= k -> data_ptr d l k = nth (Z.to_nat k) l d.
Proof. intros H. unfold data_ptr. now replace (k <? 0) with false by lia. Qed.

Lemma data_ptr_In {X : Type} (d : X) l k :
  0 <= k < Z.of_nat (List.length l) -> In (data_ptr d l k) l.
Proof. intros H. rewrite data_ptr_nth by lia. apply nth_In. lia. Qed.

Lemma data_ptr_zrange n k : 0 <= k < n -> data_ptr 0 (zrange n) k = k.
Proof.
  intros H. rewrite data_ptr_nth by lia. unfold zrange.
  rewrite nth_zseq by lia. lia.
Qed.

Lemma combine_as_map {X Y : Type} (d1 : X) (d2 : Y) l1 : forall l2 lo,
  List.length l1 = List.length l2 ->
  combine l1 l2
  = map (fun k => (data_ptr d1 l1 (k - lo), data_ptr d2 l2 (k - lo)))
        (zseq lo (List.length l1)).
Proof.
  induction l1 as [|x l1 IH]; intros [|y l2] lo H; cbn [List.length] in H;
    try discriminate; [reflexivity|].
  cbn [combine List.length zseq map]. rewrite Z.sub_diag. f_equal.
  rewrite (IH l2 (lo + 1)) by lia. apply map_ext_in.
  intros k Hk. apply In_zseq in Hk.
  rewrite !data_ptr_nth by lia.
  replace (Z.to_nat (k - lo)) with (S (Z.to_nat (k - (lo + 1)))) by lia.
  reflexivity.
Qed.

Lemma bigsum_combine {A X Y : Type} (zero : A) (add : A -> A -> A)
    (d1 : X) (d2 : Y) (H : X -> Y -> A) l1 l2 :
  List.length l1 = List.length l2 ->
  bigsum zero add (fun p => H (fst p) (snd p)) (combine l1 l2)
  = bigsum zero add (fun k => H (data_ptr d1 l1 k) (data_ptr d2 l2 k))
           (zrange (Z.of_nat (List.length l1))).
Proof.
  intros Hl. rewrite (combine_as_map d1 d2 l1 l2 0 Hl).
  unfold zrange. rewrite Nat2Z.id.
  induction (zseq 0 (List.length l1)) as [|k l IH]; cbn [map bigsum]; [reflexivity|].
  rewrite IH, Z.sub_0_r. reflexivity.
Qed.

(** ** The contract of [thrust::sort_by_key]

    Keys and values are permuted together, and the keys come out in
    ascending order (the comparison is [ThrustLTOp]). *)
Definition sort_by_key_contract (sort : list Z -> list Z -> list Z * list Z) : Prop :=
  forall keys values, List.length keys = List.length values ->
    Permutation (combine (fst (sort keys values)) (snd (sort keys values)))
                (combine keys values)
    /\ List.length (fst (sort keys values)) = List.length keys
    /\ List.length (snd (sort keys values)) = List.length keys
    /\ StronglySorted Z.le (fst (sort keys values)).

Lemma combine_fst {X Y : Type} (l1 : list X) : forall (l2 : list Y),
  List.length l1 = List.length l2 -> map fst (combine l1 l2) = l1.
Proof.
  induction l1 as [|x l1 IH]; intros [|y l2] H; cbn in *; try discriminate;
    [reflexivity|]. f_equal. apply IH. lia.
Qed.

Lemma combine_snd {X Y : Type} (l1 : list X) : forall (l2 : list Y),
  List.length l1 = List.length l2 -> map snd (combine l1 l2) = l2.
Proof.
  induction l1 as [|x l1 IH]; intros [|y l2] H; cbn in *; try discriminate;
    [reflexivity|]. f_equal. apply IH. lia.
Qed.

Lemma length_zrange n : List.length (zrange n) = Z.to_nat n.
Proof. apply length_zseq. Qed.

(** ** The sorted kernel on one cell of the table *)

Section SortedCell.
Variables (input indices : Z -> Z) (grad_output : Z -> Qc).
Variable count : option (Z -> Z).
Variables (numel stride padding_idx grid_x grid_y : Z).
Hypothesis weight_row_fits :
  forall k, 0 <= k < numel -> weight_row input stride k = input k * stride.
Hypothesis grid_x_covers : 0 <= numel <= 4 * grid_x.
Hypothesis grid_y_covers : stride <= 128 * grid_y.
Variables (r f : Z).
Hypothesis f_range : 0 <= f < stride.

Local Abbreviation launch :=
  (launch_backward_kernel grid_x grid_y input indices grad_output count
     numel stride padding_idx).

Lemma sorted_launch_cells gw :
  cells (launch gw) (r * stride + f)
  = cells gw (r * stride + f)
    +q qsum (fun k =>
               if input k =? padding_idx then 0%Qc
               else if input k =? r
                    then grad_output (grad_row indices stride k + f)
                         *q scale_at count k
                    else 0%Qc)
            (zrange numel).
Proof.
  rewrite (launch_effect input indices grad_output count numel stride padding_idx
             cells
             (fun idx fd => grad_output (grad_row indices stride idx + fd)
                            *q scale_at count idx)).
  - now rewrite launch_sum_eval.
  - intros. apply accumulate_row_cells.
Qed.

Lemma sorted_launch_stores gw :
  store_count (launch gw) (r * stride + f)
  = store_count gw (r * stride + f)
    + zsum (fun k =>
              if input k =? padding_idx then 0
              else if input k =? r then 1 else 0)
           (zrange numel).
Proof.
  rewrite (launch_effect input indices grad_output count numel stride padding_idx
             store_count (fun _ _ => 1)).
  - now rewrite launch_sum_eval.
  - intros. apply accumulate_row_stores.
Qed.
End SortedCell.

(** ** What the specification expects of a cell *)

(** [count(r)]: the number of occurrences of [r] in the index list when
    frequency scaling is on, 1 when it is off. *)
Definition row_count (scale_grad_by_freq : bool) (indices : list Z) (r : Z) : Z :=
  if scale_grad_by_freq then occurrences indices r else 1.

Definition Zq (z : Z) : Qc := Q2Qc (inject_Z z).

(** The sum over all positions [i] with [Index[i] = r] of
    [Gradient[i] / count(r)], at feature [f]. *)
Definition expected_cell (grad : Z -> Qc) (indices : list Z) (stride : Z)
    (scale_grad_by_freq : bool) (r f : Z) : Qc :=
  qsum (fun i =>
          if data_ptr 0 indices i =? r
          then Qcdiv (grad (i * stride + f)) (Zq (row_count scale_grad_by_freq indices r))
          else 0%Qc)
       (zrange (Z.of_nat (List.length indices))).

Lemma count_sum_occurrences l r :
  zsum (fun i => if data_ptr 0 l i =? r then 1 else 0) (zrange (Z.of_nat (List.length l)))
  = occurrences l r.
Proof.
  unfold zsum.
  rewrite <- (bigsum_combine 0 Z.add 0 0 (fun v _ => if v =? r then 1 else 0) l l eq_refl).
  induction l as [|x l IH]; cbn [combine bigsum fst]; [reflexivity|].
  rewrite IH, occurrences_cons. lia.
Qed.

(** ** The sorted path of the host function *)

Section SortedPath.
Variables (idx sorted orig : list Z) (grad : Z -> Qc).
Variables (num_weights stride kpad : Z) (scale_grad_by_freq : bool).

Local Abbreviation n := (Z.of_nat (List.length idx)).

Hypothesis sorted_perm :
  Permutation (combine sorted orig) (combine idx (zrange n)).
Hypothesis sorted_length : List.length sorted = List.length idx.
Hypothesis orig_length : List.length orig = List.length idx.
Hypothesis sorted_sorted : StronglySorted Z.le sorted.
Hypothesis rows_valid : forall v, In v idx -> 0 <= v < num_weights.
Hypothesis table_fits : num_weights * stride < 2 ^ 31.
Hypothesis grad_fits : n * stride < 2 ^ 31.

Definition count_of_path : option (Z -> Z) :=
  if scale_grad_by_freq
  then Some (data_ptr 0 (frequency_counts sorted))
  else None.

Local Abbreviation launch :=
  (launch_backward_kernel (THCCeilDiv n 4) (THCCeilDiv stride 128)
     (data_ptr 0 sorted) (data_ptr 0 orig) grad count_of_path n stride kpad).

Lemma zrange_n_length : List.length idx = List.length (zrange n).
Proof. rewrite length_zrange. lia. Qed.

Lemma sorted_perm_keys : Permutation sorted idx.
Proof.
  rewrite <- (combine_fst sorted orig) by congruence.
  rewrite <- (combine_fst idx (zrange n) zrange_n_length).
  now apply Permutation_map.
Qed.

Lemma sorted_perm_values : Permutation orig (zrange n).
Proof.
  rewrite <- (combine_snd sorted orig) by congruence.
  rewrite <- (combine_snd idx (zrange n) zrange_n_length).
  now apply Permutation_map.
Qed.

Lemma sorted_key_valid k : 0 <= k < n -> 0 <= data_ptr 0 sorted k < num_weights.
Proof.
  intros Hk. apply rows_valid.
  apply (Permutation_in _ sorted_perm_keys). apply data_ptr_In. lia.
Qed.

Lemma orig_valid k : 0 <= k < n -> 0 <= data_ptr 0 orig k < n.
Proof.
  intros Hk. apply In_zrange.
  apply (Permutation_in _ sorted_perm_values). apply data_ptr_In. lia.
Qed.

Lemma path_weight_row k :
  0 < stride -> 0 <= k < n ->
  weight_row (data_ptr 0 sorted) stride k = data_ptr 0 sorted k * stride.
Proof.
  intros Hs Hk. pose proof (sorted_key_valid k Hk). unfold weight_row.
  rewrite (to_int_small (data_ptr 0 sorted k)) by nia.
  apply to_int_small. nia.
Qed.

Lemma path_grad_row k :
  0 < stride -> 0 <= k < n ->
  grad_row (data_ptr 0 orig) stride k = data_ptr 0 orig k * stride.
Proof.
  intros Hs Hk. pose proof (orig_valid k Hk). unfold grad_row.
  rewrite (to_int_small (data_ptr 0 orig k)) by nia.
  apply to_int_small. nia.
Qed.

(** The scale the kernel applies at sorted position [k]. *)
Lemma path_scale k :
  0 <= k < n ->
  scale_at count_of_path k
  = Qcdiv 1 (Zq (row_count scale_grad_by_freq idx (data_ptr 0 sorted k))).
Proof.
  intros Hk. unfold scale_at, count_of_path, row_count, Zq.
  destruct scale_grad_by_freq.
  - rewrite !data_ptr_nth by lia.
    rewrite frequency_counts_nth by (assumption || lia).
    unfold occurrences.
    now rewrite (proj1 (Permutation_count_occ Z.eq_dec _ _) sorted_perm_keys).
  - apply Qc_is_canon. reflexivity.
Qed.

(** What original position [o], holding the value [s], adds to the cell
    at feature [f] of row [r]. *)
Definition added (r f s o : Z) : Qc :=
  if s =? kpad then 0%Qc
  else if s =? r
       then grad (o * stride + f)
            *q Qcdiv 1 (Zq (row_count scale_grad_by_freq idx s))
       else 0%Qc.

Lemma sorted_path_sum r f gw :
  0 <= f < stride ->
  cells (launch gw) (r * stride + f)
  = cells gw (r * stride + f)
    +q qsum (fun i => added r f (data_ptr 0 idx i) i) (zrange n).
Proof.
  intros Hf. rewrite sorted_launch_cells; try assumption.
  - f_equal. unfold qsum.
    transitivity
      (bigsum 0%Qc Qcplus
         (fun k => added r f (data_ptr 0 sorted k) (data_ptr 0 orig k)) (zrange n)).
    + apply bigsum_ext_in. intros k Hk. apply In_zrange in Hk. unfold added.
      now rewrite path_grad_row, path_scale by lia.
    + transitivity
        (bigsum 0%Qc Qcplus (fun p => added r f (fst p) (snd p))
           (combine sorted orig)).
      { rewrite (bigsum_combine 0%Qc Qcplus 0 0 (added r f) sorted orig)
          by congruence.
        now rewrite sorted_length. }
      rewrite (bigsum_perm _ _ _ sorted_perm).
      rewrite (bigsum_combine 0%Qc Qcplus 0 0 (added r f) idx (zrange n)
                 zrange_n_length).
      apply bigsum_ext_in. intros i Hi. apply In_zrange in Hi.
      now rewrite data_ptr_zrange.
  - intros k Hk. apply path_weight_row; lia.
  - unfold THCCeilDiv. Z.to_euclidean_division_equations. lia.
  - unfold THCCeilDiv. Z.to_euclidean_division_equations. lia.
Qed.
(** The stores to a cell: one for every position of the index list that
    holds the row and is not padding. *)
Lemma sorted_path_stores r f gw :
  0 <= f < stride ->
  store_count (launch gw) (r * stride + f)
  = store_count gw (r * stride + f)
    + (if r =? kpad then 0 else occurrences idx r).
Proof.
  intros Hf. rewrite sorted_launch_stores; try assumption.
  - f_equal. unfold zsum.
    pose (H := fun (s o : Z) => if s =? kpad then 0 else if s =? r then 1 else 0).
    transitivity (bigsum 0 Z.add (fun p => H (fst p) (snd p)) (combine sorted orig)).
    { rewrite (bigsum_combine 0 Z.add 0 0 H sorted orig) by congruence.
      now rewrite sorted_length. }
    rewrite (bigsum_perm _ _ _ sorted_perm).
    rewrite (bigsum_combine 0 Z.add 0 0 H idx (zrange n) zrange_n_length).
    unfold H. destruct (Z.eqb_spec r kpad) as [->|Hr].
    + apply bigsum_zero. intros i _.
      now destruct (data_ptr 0 idx i =? kpad).
    + rewrite <- count_sum_occurrences. apply bigsum_ext_in. intros i _.
      destruct (Z.eqb_spec (data_ptr 0 idx i) kpad) as [E|E]; [|reflexivity].
      rewrite E. now destruct (Z.eqb_spec kpad r); [congruence|].
  - intros k Hk. apply path_weight_row; lia.
  - unfold THCCeilDiv. Z.to_euclidean_division_equations. lia.
  - unfold THCCeilDiv. Z.to_euclidean_division_equations. lia.
Qed.

Lemma added_sum_expected r f :
  qsum (fun i => added r f (data_ptr 0 idx i) i) (zrange n)
  = if r =? kpad then 0%Qc
    else expected_cell grad idx stride scale_grad_by_freq r f.
Proof.
  unfold qsum, expected_cell. destruct (Z.eqb_spec r kpad) as [->|Hr].
  - apply bigsum_zero. intros i _. unfold added.
    destruct (Z.eqb_spec (data_ptr 0 idx i) kpad) as [E|E]; [reflexivity|].
    now destruct (Z.eqb_spec (data_ptr 0 idx i) kpad).
  - apply bigsum_ext_in. intros i _. unfold added.
    destruct (Z.eqb_spec (data_ptr 0 idx i) r) as [E|E].
    + rewrite E. destruct (Z.eqb_spec r kpad); [contradiction|].
      unfold Qcdiv. ring.
    + now destruct (data_ptr 0 idx i =? kpad).
Qed.
End SortedPath.

(** ** Warp vote and bit scan *)

Lemma ballot_zseq (p : Z -> bool) lo len i :
  0 <= lo -> 0 <= i ->
  Z.testbit
    (fold_right (fun lane acc => if p lane then Z.lor (Z.shiftl 1 lane) acc else acc)
                0 (zseq lo len)) i
  = (lo <=? i) && (i <? lo + Z.of_nat len) && p i.
Proof.
  revert lo. induction len as [|len IH]; intros lo Hlo Hi; cbn [zseq fold_right].
  - rewrite Z.testbit_0_l.
    destruct (Z.leb_spec lo i), (Z.ltb_spec i (lo + Z.of_nat 0)); cbn; try reflexivity; lia.
  - assert (E : Z.testbit
                  (if p lo
                   then Z.lor (Z.shiftl 1 lo)
                          (fold_right
                             (fun lane acc =>
                                if p lane then Z.lor (Z.shiftl 1 lane) acc else acc)
                             0 (zseq (lo + 1) len))
                   else fold_right
                          (fun lane acc =>
                             if p lane then Z.lor (Z.shiftl 1 lane) acc else acc)
                          0 (zseq (lo + 1) len)) i
                = ((lo =? i) && p lo)
                  || ((lo + 1 <=? i) && (i <? lo + 1 + Z.of_nat len) && p i)).
    { destruct (p lo).
      - rewrite Z.lor_spec, IH, Z.shiftl_1_l, Z.pow2_bits_eqb by lia.
        now rewrite andb_true_r.
      - rewrite IH by lia. now rewrite andb_false_r. }
    rewrite E. rewrite Nat2Z.inj_succ.
    destruct (Z.eqb_spec lo i) as [->|Hne];
      destruct (Z.leb_spec (i + 1) i), (Z.leb_spec i i),
               (Z.ltb_spec i (i + 1 + Z.of_nat len)),
               (Z.ltb_spec i (i + Z.succ (Z.of_nat len)));
      cbn; try lia; try (destruct (p i); reflexivity).
    all: destruct (Z.leb_spec (lo + 1) i), (Z.leb_spec lo i),
                  (Z.ltb_spec i (lo + 1 + Z.of_nat len)),
                  (Z.ltb_spec i (lo + Z.succ (Z.of_nat len)));
      cbn; try lia; reflexivity.
Qed.

Lemma WARP_BALLOT_spec (p : Z -> bool) i :
  0 <= i -> Z.testbit (WARP_BALLOT p) i = (i <? 32) && p i.
Proof.
  intros Hi. unfold WARP_BALLOT, zrange. rewrite ballot_zseq by lia.
  change (Z.of_nat (Z.to_nat WARP_SIZE)) with 32.
  replace (0 <=? i) with true by lia. reflexivity.
Qed.

(** The lanes whose bit is set in a 32-bit mask, lowest first. *)
Definition set_lanes (m : Z) : list Z := filter (Z.testbit m) (zrange 32).

(** A mask with no bit above bit 31. *)
Definition is_mask32 (m : Z) : Prop := forall i, 32 <= i -> Z.testbit m i = false.

Lemma NoDup_zrange n : NoDup (zrange n).
Proof. apply NoDup_zseq. Qed.

Lemma set_lanes_unfold m : set_lanes m = filter (Z.testbit m) (zrange 32).
Proof. reflexivity. Qed.

Lemma find_filter_hd {X : Type} (p : X -> bool) l :
  find p l = match filter p l with [] => None | x :: _ => Some x end.
Proof.
  induction l as [|x l IH]; cbn [find filter]; [reflexivity|].
  destruct (p x); [reflexivity | assumption].
Qed.

Lemma ffs_set_lanes m :
  ffs m = match set_lanes m with [] => 0 | i :: _ => i + 1 end.
Proof.
  rewrite set_lanes_unfold. unfold ffs. rewrite find_filter_hd.
  now destruct (filter (Z.testbit m) (zrange 32)).
Qed.

Lemma filter_drop_first (p : Z -> bool) l : forall j rest,
  NoDup l -> filter p l = j :: rest ->
  filter (fun i => if i =? j then false else p i) l = rest.
Proof.
  induction l as [|x l IH]; intros j rest Hnd H; cbn [filter] in *; [discriminate|].
  inversion Hnd as [|? ? Hx Hnd']; subst.
  destruct (p x) eqn:Hp.
  - injection H as -> <-. rewrite Z.eqb_refl.
    apply filter_ext_in. intros i Hi.
    destruct (Z.eqb_spec i j); [subst; contradiction | reflexivity].
  - assert (Hj : p j = true).
    { assert (In j (filter p l)) by (rewrite H; now left).
      now apply filter_In in H0. }
    destruct (Z.eqb_spec x j) as [->|Hne]; [congruence|].
    now apply IH.
Qed.

Lemma set_lanes_range m i : In i (set_lanes m) -> 0 <= i < 32 /\ Z.testbit m i = true.
Proof.
  rewrite set_lanes_unfold, filter_In, In_zrange. tauto.
Qed.

Lemma clear_lowest m j rest :
  set_lanes m = j :: rest ->
  set_lanes (Z.lxor m (Z.shiftl 1 j)) = rest.
Proof.
  intros H.
  assert (Hj : 0 <= j < 32 /\ Z.testbit m j = true)
    by (apply set_lanes_range; rewrite H; now left).
  rewrite set_lanes_unfold in H |- *.
  rewrite <- (filter_drop_first (Z.testbit m) (zrange 32) j rest (NoDup_zrange 32) H).
  apply filter_ext_in. intros i Hi. apply In_zrange in Hi.
  rewrite Z.lxor_spec, Z.shiftl_1_l, Z.pow2_bits_eqb, (Z.eqb_sym j i) by lia.
  destruct (Z.eqb_spec i j) as [E|E].
  - subst i. destruct Hj as [_ Hj]. rewrite Hj. reflexivity.
  - apply xorb_false_r.
Qed.

Lemma clear_lowest_mask32 m j :
  0 <= j < 32 -> is_mask32 m -> is_mask32 (Z.lxor m (Z.shiftl 1 j)).
Proof.
  intros Hj Hm i Hi.
  rewrite Z.lxor_spec, Hm, Z.shiftl_1_l, Z.pow2_bits_false by lia. reflexivity.
Qed.

Lemma mask32_zero m : is_mask32 m -> set_lanes m = [] -> m = 0.
Proof.
  intros Hm H. apply Z.bits_inj'. intros i Hi. rewrite Z.testbit_0_l.
  destruct (Z.lt_ge_cases i 32) as [Hlt|Hge]; [|now apply Hm].
  destruct (Z.testbit m i) eqn:E; [|reflexivity].
  assert (In i (set_lanes m))
    by (rewrite set_lanes_unfold, filter_In, In_zrange; split; [lia | assumption]).
  rewrite H in H0. destruct H0.
Qed.

Lemma WARP_BALLOT_mask32 p : is_mask32 (WARP_BALLOT p).
Proof.
  intros i Hi. rewrite WARP_BALLOT_spec by lia.
  now replace (i <? 32) with false by lia.
Qed.

Lemma WARP_BALLOT_lanes p : set_lanes (WARP_BALLOT p) = filter p (zrange 32).
Proof.
  rewrite set_lanes_unfold. apply filter_ext_in. intros i Hi. apply In_zrange in Hi.
  rewrite WARP_BALLOT_spec by lia. now replace (i <? 32) with true by lia.
Qed.

Lemma set_lanes_zero : set_lanes 0 = [].
Proof.
  destruct (set_lanes 0) as [|j rest] eqn:E; [reflexivity|].
  assert (H : In j (set_lanes 0)) by (rewrite E; now left).
  apply set_lanes_range in H. rewrite Z.testbit_0_l in H. destruct H. discriminate.
Qed.

Lemma upd_apply {X : Type} (m : Z -> X) a v x :
  upd m a v x = if x =? a then v else m x.
Proof. reflexivity. Qed.

(** ** The small-batch kernel: the leader's fold *)

Lemma fold_peers_spec tx ty fuel : forall m sm x,
  is_mask32 m -> (List.length (set_lanes m) <= fuel)%nat ->
  ~ In ty (set_lanes m) ->
  fold_peers fuel m tx ty sm x
  = upd sm (WARP_SIZE * ty + tx)
        (sm (WARP_SIZE * ty + tx)
         +q qsum (fun l => sm (tx + WARP_SIZE * l)) (set_lanes m)) x.
Proof.
  induction fuel as [|k IH]; intros m sm x Hm Hlen Hty.
  - destruct (set_lanes m) as [|j rest]; [|cbn in Hlen; lia].
    cbn [fold_peers qsum bigsum]. unfold upd.
    destruct (x =? WARP_SIZE * ty + tx) eqn:E; [|reflexivity].
    apply Z.eqb_eq in E. subst x. now rewrite Qcplus_0_r.
  - cbn [fold_peers]. destruct (Z.eqb_spec m 0) as [->|Hne].
    + rewrite set_lanes_zero. cbn [qsum bigsum]. unfold upd.
      destruct (x =? WARP_SIZE * ty + tx) eqn:E; [|reflexivity].
      apply Z.eqb_eq in E. subst x. now rewrite Qcplus_0_r.
    + destruct (set_lanes m) as [|j rest] eqn:E;
        [exfalso; apply Hne; now apply mask32_zero|].
      assert (Hj : 0 <= j < 32)
        by (apply (set_lanes_range m); rewrite E; now left).
      rewrite ffs_set_lanes, E. replace (j + 1 - 1) with j by lia.
      set (my := WARP_SIZE * ty + tx).
      set (sm' := upd sm my (sm my +q sm (tx + WARP_SIZE * j))).
      rewrite IH.
      * rewrite (clear_lowest m j rest E). fold my.
        assert (Hmy : sm' my = sm my +q sm (tx + WARP_SIZE * j))
          by (unfold sm', upd; now rewrite Z.eqb_refl).
        assert (Hsum : qsum (fun l => sm' (tx + WARP_SIZE * l)) rest
                       = qsum (fun l => sm (tx + WARP_SIZE * l)) rest).
        { apply bigsum_ext_in. intros l Hl. unfold sm', upd, my, WARP_SIZE.
          destruct (Z.eqb_spec (tx + 32 * l) (32 * ty + tx)) as [E'|E']; [|reflexivity].
          exfalso. apply Hty. right. now replace ty with l by lia. }
        rewrite Hmy, Hsum, !upd_apply.
        destruct (Z.eqb_spec x my) as [Hx|Hx].
        -- unfold qsum. cbn [bigsum]. ring.
        -- unfold sm', upd. now destruct (Z.eqb_spec x my).
      * now apply clear_lowest_mask32.
      * rewrite (clear_lowest m j rest E). cbn in Hlen. lia.
      * rewrite (clear_lowest m j rest E). intros H. apply Hty. now right.
Qed.

Lemma bigsum_filter {A X : Type} (zero : A) (add : A -> A -> A)
    {M : CMonoid zero add} (p : X -> bool) (h : X -> A) l :
  bigsum zero add h (filter p l)
  = bigsum zero add (fun x => if p x then h x else zero) l.
Proof.
  induction l as [|x l IH]; cbn [filter bigsum]; [reflexivity|].
  destruct (p x); cbn [bigsum]; rewrite IH; [reflexivity|].
  now rewrite (cm_unit (zero := zero)).
Qed.

Lemma WARP_BALLOT_ext p q :
  (forall l, In l (zrange WARP_SIZE) -> p l = q l) -> WARP_BALLOT p = WARP_BALLOT q.
Proof.
  unfold WARP_BALLOT. induction (zrange WARP_SIZE) as [|x l IH]; intros H;
    cbn [fold_right]; [reflexivity|].
  rewrite IH by (intros; apply H; now right).
  rewrite (H x) by now left. reflexivity.
Qed.

Lemma set_lanes_length m : (List.length (set_lanes m) <= 32)%nat.
Proof.
  rewrite set_lanes_unfold.
  pose proof (filter_length_le (Z.testbit m) (zrange 32)) as H.
  rewrite length_zrange in H. exact H.
Qed.

Lemma set_lanes_NoDup m : NoDup (set_lanes m).
Proof. rewrite set_lanes_unfold. apply NoDup_filter. apply NoDup_zrange. Qed.

(** A sum of copies of [v], of which at most one is selected, and none
    only when [v] is zero. *)
Lemma bigsum_at_most_one {A X : Type} (zero : A) (add : A -> A -> A)
    {M : CMonoid zero add} (c : X -> bool) (v : A) l :
  (forall x y, In x l -> In y l -> c x = true -> c y = true -> x = y) ->
  NoDup l ->
  ((forall x, In x l -> c x = false) -> v = zero) ->
  bigsum zero add (fun x => if c x then v else zero) l = v.
Proof.
  induction l as [|x l IH]; intros Huniq Hnd Hnone; cbn [bigsum].
  - symmetry. apply Hnone. intros x [].
  - inversion Hnd as [|? ? Hx Hnd']; subst. destruct (c x) eqn:Ec.
    + rewrite bigsum_zero; [apply cm_unit_r|].
      intros y Hy. destruct (c y) eqn:Ey; [|reflexivity].
      exfalso. apply Hx. rewrite (Huniq x y); auto; [now left | now right].
    + rewrite (cm_unit (zero := zero)). apply IH; try assumption.
      * intros a b Ha Hb. apply Huniq; now right.
      * intros Hno. apply Hnone. intros y [<-|Hy]; [assumption | now apply Hno].
Qed.

(** ** The small-batch kernel: one chunk *)

Lemma In_block_threads dx dy t :
  In t (block_threads dx dy) <-> 0 <= fst t < dx /\ 0 <= snd t < dy.
Proof.
  unfold block_threads. rewrite in_flat_map. split.
  - intros (ty & Hty & Ht). apply in_map_iff in Ht. destruct Ht as (tx & <- & Htx).
    apply In_zrange in Hty, Htx. cbn. lia.
  - intros [Hx Hy]. exists (snd t). split; [now apply In_zrange|].
    apply in_map_iff. exists (fst t). split; [now destruct t | now apply In_zrange].
Qed.

Lemma NoDup_block_threads dx dy : NoDup (block_threads dx dy).
Proof.
  unfold block_threads. generalize (NoDup_zrange dy).
  induction (zrange dy) as [|ty l IH]; intros Hnd; cbn [flat_map]; [constructor|].
  inversion Hnd as [|? ? Hty Hnd']; subst.
  apply NoDup_app.
  - apply Finite.Injective_map_NoDup; [|apply NoDup_zrange].
    intros a b E. now injection E.
  - now apply IH.
  - intros t Ht Ht'. apply in_map_iff in Ht. destruct Ht as (tx & <- & _).
    apply in_flat_map in Ht'. destruct Ht' as (y & Hy & Ht').
    apply in_map_iff in Ht'. destruct Ht' as (x & E & _).
    injection E as _ ->. contradiction.
Qed.

Section DirectChunk.
Variables (grad : Z -> Qc) (n stride padding_idx blockIdx_x chunk_start : Z).
(** The content of [indices_batch] during the chunk. *)
Variable ib : Z -> Z.
Hypothesis stride_fits : to_int stride = stride.
Hypothesis chunk_in_buffer : 0 <= chunk_start /\ chunk_start + 32 <= N_BATCH_SLOTS.

Local Abbreviation feature tx := (tx + blockIdx_x * 32).

(** Warp [ty] holds a row that is neither past the end nor padding, and
    lane [tx] holds a feature of the table. *)
Definition staging (tx ty : Z) : bool :=
  (chunk_start + ty <? n) && (feature tx <? stride)
  && negb (ib (chunk_start + ty) =? padding_idx).

Definition staged_value (tx ty : Z) : Qc :=
  grad ((chunk_start + ty) * stride + feature tx).

Lemma stage_grad_step tx ty st :
  indices_batch st = ib -> 0 <= ty < 32 ->
  let st' := stage_grad grad n stride padding_idx blockIdx_x 0 chunk_start tx ty st in
  indices_batch st' = ib /\ grad_weight st' = grad_weight st /\ oob st' = oob st
  /\ smem st'
     = if staging tx ty
       then upd (smem st) (WARP_SIZE * ty + tx) (staged_value tx ty)
       else smem st.
Proof.
  intros Hib Hty. unfold stage_grad, read_batch, staging, staged_value.
  rewrite stride_fits, Z.sub_0_r, Hib. unfold blockDim_x, WARP_SIZE.
  assert (Hin : in_batch_buffer (chunk_start + ty) = true).
  { unfold in_batch_buffer. apply andb_true_intro.
    split; [apply Z.leb_le | apply Z.ltb_lt]; lia. }
  rewrite Hin, orb_false_r.
  destruct ((chunk_start + ty <? n) && (tx + blockIdx_x * 32 <? stride)
            && negb (ib (chunk_start + ty) =? padding_idx));
    cbn; repeat split; assumption.
Qed.

Lemma stage_phase_fold l : forall st,
  indices_batch st = ib ->
  (forall t, In t l -> 0 <= fst t < 32 /\ 0 <= snd t < 32) ->
  let st' :=
    fold_left (fun s t => stage_grad grad n stride padding_idx blockIdx_x 0
                            chunk_start (fst t) (snd t) s) l st in
  indices_batch st' = ib /\ grad_weight st' = grad_weight st /\ oob st' = oob st
  /\ (forall tx ty, 0 <= tx < 32 -> 0 <= ty < 32 -> staging tx ty = true ->
        In (tx, ty) l \/ smem st (WARP_SIZE * ty + tx) = staged_value tx ty ->
        smem st' (WARP_SIZE * ty + tx) = staged_value tx ty).
Proof.
  induction l as [|t l IH]; intros st Hib Hl; cbn [fold_left].
  - repeat split; try assumption. intros tx ty _ _ _ [[]|H]; assumption.
  - destruct (stage_grad_step (fst t) (snd t) st Hib) as (H1 & H2 & H3 & H4);
      [apply Hl; now left|].
    destruct (IH _ H1) as (G1 & G2 & G3 & G4); [intros; apply Hl; now right|].
    repeat split; try congruence.
    intros tx ty Htx Hty Hs Hor. apply G4; try assumption.
    destruct Hor as [[E|Hin]|Hsm]; [|now left|]; right; rewrite H4.
    + subst t. cbn [fst snd]. rewrite Hs. unfold upd. now rewrite Z.eqb_refl.
    + destruct (staging (fst t) (snd t)) eqn:Es; [|assumption].
      unfold upd, WARP_SIZE.
      destruct (Z.eqb_spec (32 * ty + tx) (32 * snd t + fst t)) as [E|E];
        [|assumption].
      assert (Ht : 0 <= fst t < 32 /\ 0 <= snd t < 32) by (apply Hl; now left).
      assert (tx = fst t /\ ty = snd t) as [-> ->] by lia. reflexivity.
Qed.

Lemma stage_phase st :
  indices_batch st = ib ->
  let st' := run_phase blockDim_x blockDim_y
               (stage_grad grad n stride padding_idx blockIdx_x 0 chunk_start) st in
  indices_batch st' = ib /\ grad_weight st' = grad_weight st /\ oob st' = oob st
  /\ (forall tx ty, 0 <= tx < 32 -> 0 <= ty < 32 -> staging tx ty = true ->
        smem st' (WARP_SIZE * ty + tx) = staged_value tx ty).
Proof.
  intros Hib. unfold run_phase.
  destruct (stage_phase_fold (block_threads blockDim_x blockDim_y) st Hib)
    as (H1 & H2 & H3 & H4).
  - intros t Ht. now apply In_block_threads in Ht.
  - repeat split; try assumption. intros tx ty Htx Hty Hs. apply H4; try assumption.
    left. apply In_block_threads. cbn. unfold blockDim_x, blockDim_y, WARP_SIZE, BLOCKDIMY. lia.
Qed.

(** Lane [lane] votes for the warp whose destination row is [d]. *)
Definition peer (d lane : Z) : bool :=
  (d =? ib (chunk_start + lane))
  && negb ((if n - chunk_start <? 32 then n - chunk_start else 32) <=? lane).

Definition active (ty : Z) : bool :=
  negb (ib (chunk_start + ty) =? padding_idx) && (chunk_start + ty <? n).

Definition leads (ty : Z) : bool :=
  ty =? ffs (WARP_BALLOT (peer (ib (chunk_start + ty)))) - 1.

(** The staged values of the warps that target row [d]. *)
Definition group_sum (tx d : Z) : Qc :=
  qsum (fun l => if peer d l then staged_value tx l else 0%Qc) (zrange 32).

(** What thread [(tx, ty)] adds to cell [a] of the table. *)
Definition thread_add (a tx ty : Z) : Qc :=
  if active ty && leads ty && (feature tx <? stride)
     && (a =? ib (chunk_start + ty) * stride + feature tx)
  then group_sum tx (ib (chunk_start + ty))
  else 0%Qc.

Lemma match_found_peer st d lane :
  indices_batch st = ib ->
  match_found n st 0 chunk_start d lane = peer d lane.
Proof.
  intros Hib. unfold match_found, peer, blockDim_y, BLOCKDIMY.
  now rewrite Hib, Z.sub_0_r.
Qed.

Lemma leads_lanes ty :
  0 <= ty -> leads ty = true ->
  exists rest, set_lanes (WARP_BALLOT (peer (ib (chunk_start + ty)))) = ty :: rest.
Proof.
  unfold leads. intros Hty H. apply Z.eqb_eq in H. rewrite ffs_set_lanes in H.
  destruct (set_lanes (WARP_BALLOT (peer (ib (chunk_start + ty))))) as [|j rest];
    [lia|].
  exists rest. f_equal. lia.
Qed.

Lemma elect_step tx ty st :
  indices_batch st = ib -> 0 <= tx < 32 -> 0 <= ty < 32 ->
  (active ty = true -> leads ty = true -> feature tx < stride ->
   forall l, In l (zrange 32) -> peer (ib (chunk_start + ty)) l = true ->
             smem st (tx + WARP_SIZE * l) = staged_value tx l) ->
  let st' := elect_and_add n stride padding_idx blockIdx_x 0 chunk_start tx ty st in
  indices_batch st' = ib /\ oob st' = oob st
  /\ (forall a, cells (grad_weight st') a
                = cells (grad_weight st) a +q thread_add a tx ty)
  /\ (forall slot, slot <> WARP_SIZE * ty + tx -> smem st' slot = smem st slot)
  /\ (active ty && leads ty = false -> smem st' = smem st).
Proof.
  intros Hib Htx Hty Hst. unfold elect_and_add, read_batch, thread_add.
  rewrite stride_fits, !Z.sub_0_r, Hib. fold (active ty).
  destruct (active ty) eqn:Ha; cbn [andb];
    [|repeat split; try assumption; try reflexivity;
      intros; now rewrite Qcplus_0_r].
  cbv beta iota.
  set (st1 := {| smem := smem st; indices_batch := ib;
                 grad_weight := grad_weight st;
                 oob := oob st || negb (in_batch_buffer (chunk_start + tx)) |}).
  assert (Hin : in_batch_buffer (chunk_start + tx) = true).
  { unfold in_batch_buffer. apply andb_true_intro.
    split; [apply Z.leb_le | apply Z.ltb_lt]; lia. }
  rewrite (WARP_BALLOT_ext (match_found n st1 0 chunk_start (ib (chunk_start + ty)))
             (peer (ib (chunk_start + ty))))
    by (intros; now apply match_found_peer).
  fold (leads ty). destruct (leads ty) eqn:Hl; cbn [andb].
  - destruct (leads_lanes ty (proj1 Hty) Hl) as [rest Hrest].
    rewrite ffs_set_lanes, Hrest. replace (ty + 1 - 1) with ty by lia.
    set (mask := WARP_BALLOT (peer (ib (chunk_start + ty)))) in *.
    set (sm := fold_peers 32 (Z.lxor mask (Z.shiftl 1 ty)) tx ty (smem st1)).
    assert (Hsm : forall x,
               sm x = upd (smem st) (WARP_SIZE * ty + tx)
                        (smem st (WARP_SIZE * ty + tx)
                         +q qsum (fun l => smem st (tx + WARP_SIZE * l)) rest) x).
    { intros x. unfold sm. rewrite fold_peers_spec.
      - now rewrite (clear_lowest mask ty rest Hrest).
      - apply clear_lowest_mask32; [lia | apply WARP_BALLOT_mask32].
      - apply set_lanes_length.
      - rewrite (clear_lowest mask ty rest Hrest).
        pose proof (set_lanes_NoDup mask) as Hnd. rewrite Hrest in Hnd.
        now inversion Hnd. }
    assert (Hother : forall slot, slot <> WARP_SIZE * ty + tx -> sm slot = smem st slot).
    { intros slot Hs. rewrite Hsm, upd_apply.
      now destruct (Z.eqb_spec slot (WARP_SIZE * ty + tx)). }
    subst st1. unfold blockDim_x, WARP_SIZE.
    destruct (Z.ltb_spec (tx + blockIdx_x * 32) stride) as [Hf|Hf].
    + cbn [indices_batch oob smem grad_weight set_grad_weight].
      rewrite Hin, orb_false_r.
      repeat split; try assumption; try discriminate.
      intros a. rewrite cells_gstore. cbn [andb].
      destruct (Z.eqb_spec a (ib (chunk_start + ty) * stride + (tx + blockIdx_x * 32)))
        as [->|Hne]; [|now rewrite Qcplus_0_r].
      f_equal. change (32 * ty + tx) with (WARP_SIZE * ty + tx).
      rewrite Hsm, upd_apply, Z.eqb_refl.
      unfold group_sum, qsum.
      rewrite <- (bigsum_filter 0%Qc Qcplus (peer (ib (chunk_start + ty)))
                    (staged_value tx) (zrange 32)).
      rewrite <- WARP_BALLOT_lanes. fold mask. rewrite Hrest. cbn [bigsum].
      assert (Hall : forall l, In l (ty :: rest) ->
                               smem st (tx + WARP_SIZE * l) = staged_value tx l).
      { intros l Hl'. rewrite <- Hrest in Hl'. unfold mask in Hl'.
        rewrite WARP_BALLOT_lanes, filter_In in Hl'. destruct Hl' as [Hl1 Hl2].
        apply Hst; auto. }
      replace (WARP_SIZE * ty + tx) with (tx + WARP_SIZE * ty) by lia.
      rewrite (Hall ty) by now left. f_equal.
      apply bigsum_ext_in. intros l Hl'. apply Hall. now right.
    + cbn [indices_batch oob smem grad_weight].
      rewrite Hin, orb_false_r.
      repeat split; try assumption; try discriminate.
      intros a. now rewrite Qcplus_0_r.
  - subst st1. cbn [indices_batch oob smem grad_weight]. rewrite Hin, orb_false_r.
    repeat split; try assumption; try reflexivity.
    intros a. now rewrite Qcplus_0_r.
Qed.

Lemma peer_staging tx ty l :
  active ty = true -> feature tx < stride -> 0 <= l ->
  peer (ib (chunk_start + ty)) l = true -> staging tx l = true.
Proof.
  unfold active, peer, staging. intros Ha Hf Hl Hp.
  apply andb_prop in Ha. destruct Ha as [Ha1 Ha2].
  apply andb_prop in Hp. destruct Hp as [Hp1 Hp2].
  apply Z.eqb_eq in Hp1. rewrite <- Hp1, Ha1.
  apply negb_true_iff, Z.leb_gt in Hp2.
  replace (chunk_start + l <? n) with true
    by (symmetry; apply Z.ltb_lt;
        destruct (Z.ltb_spec (n - chunk_start) 32); lia).
  now replace (feature tx <? stride) with true by lia.
Qed.

Lemma peer_not_leader ty l :
  leads ty = true -> peer (ib (chunk_start + ty)) l = true -> l <> ty ->
  leads l = false.
Proof.
  unfold leads, peer. intros Hl Hp Hne.
  apply andb_prop in Hp. destruct Hp as [Hp _]. apply Z.eqb_eq in Hp.
  rewrite <- Hp. apply Z.eqb_eq in Hl. apply Z.eqb_neq. lia.
Qed.

Lemma elect_phase st a :
  indices_batch st = ib ->
  (forall tx ty, 0 <= tx < 32 -> 0 <= ty < 32 -> staging tx ty = true ->
                 smem st (WARP_SIZE * ty + tx) = staged_value tx ty) ->
  let st' := run_phase blockDim_x blockDim_y
               (elect_and_add n stride padding_idx blockIdx_x 0 chunk_start) st in
  indices_batch st' = ib /\ oob st' = oob st
  /\ cells (grad_weight st') a
     = cells (grad_weight st) a
       +q qsum (fun t => thread_add a (fst t) (snd t))
               (block_threads blockDim_x blockDim_y).
Proof.
  intros Hib Hst. unfold run_phase.
  pose (P := fun (l : list (Z * Z)) (s : block_state) =>
               indices_batch s = ib /\ oob s = oob st /\ NoDup l
               /\ (forall t, In t l -> 0 <= fst t < 32 /\ 0 <= snd t < 32)
               /\ forall x y, 0 <= x < 32 -> 0 <= y < 32 -> staging x y = true ->
                    In (x, y) l \/ active y && leads y = false ->
                    smem s (WARP_SIZE * y + x) = staged_value x y).
  destruct (fold_adds_pre (fun s => cells (grad_weight s) a)
              (fun t s => elect_and_add n stride padding_idx blockIdx_x 0 chunk_start
                            (fst t) (snd t) s)
              (fun t => thread_add a (fst t) (snd t)) P)
    with (l := block_threads blockDim_x blockDim_y) (s := st)
    as [(H1 & H2 & _) H3].
  - intros [tx ty] l s (Pib & Poob & Pnd & Prange & Psm). cbn [fst snd].
    inversion Pnd as [|? ? Pt Pnd']; subst.
    destruct (Prange (tx, ty)) as [Htx Hty]; [now left|]. cbn [fst snd] in Htx, Hty.
    destruct (elect_step tx ty s Pib Htx Hty) as (E1 & E2 & E3 & E4 & E5).
    { intros Ha Hl Hf l' Hl' Hp. apply In_zrange in Hl'.
      replace (tx + WARP_SIZE * l') with (WARP_SIZE * l' + tx) by lia.
      apply Psm; try lia.
      - now apply (peer_staging tx ty).
      - destruct (Z.eq_dec l' ty) as [->|Hne]; [left; now left|right].
        rewrite (peer_not_leader ty l') by assumption. apply andb_false_r. }
    split; [|apply E3].
    split; [exact E1|]. split; [congruence|]. split; [assumption|]. split.
    + intros t' Ht. apply Prange. now right.
    + intros x y Hx Hy Hs Hor.
      destruct (active ty && leads ty) eqn:Eal.
      * rewrite E4.
        -- apply Psm; try assumption. destruct Hor; [left; now right | now right].
        -- unfold WARP_SIZE. intros E.
           assert (x = tx /\ y = ty) as [-> ->] by lia.
           destruct Hor as [Hin|Hal]; [contradiction | congruence].
      * rewrite E5 by reflexivity.
        apply Psm; try assumption. destruct Hor; [left; now right | now right].
  - unfold P. split; [assumption|]. split; [reflexivity|].
    split; [apply NoDup_block_threads|]. split.
    + intros t' Ht. now apply In_block_threads in Ht.
    + intros x y Hx Hy Hs _. now apply Hst.
  - repeat split; assumption.
Qed.

(** The cell observed: feature [f0] of row [r]. *)
Variables (r f0 : Z).
Hypothesis f0_range : 0 <= f0 < stride.
Hypothesis block_nonneg : 0 <= blockIdx_x.

(** The gradient rows of the chunk that target row [r], at feature [f0]. *)
Definition chunk_sum : Qc :=
  qsum (fun l =>
          if (chunk_start + l <? n) && (ib (chunk_start + l) =? r)
          then grad ((chunk_start + l) * stride + f0)
          else 0%Qc)
       (zrange 32).

Definition in_tile : bool := blockIdx_x =? f0 / 32.

Definition adds_to_cell (t : Z * Z) : bool :=
  active (snd t) && leads (snd t) && (feature (fst t) <? stride)
  && (r * stride + f0 =? ib (chunk_start + snd t) * stride + feature (fst t)).

Lemma adds_to_cell_inv t :
  0 <= fst t < 32 -> adds_to_cell t = true ->
  active (snd t) = true /\ leads (snd t) = true
  /\ ib (chunk_start + snd t) = r /\ feature (fst t) = f0.
Proof.
  unfold adds_to_cell. intros Ht H.
  apply andb_prop in H. destruct H as [H H4].
  apply andb_prop in H. destruct H as [H H3].
  apply andb_prop in H. destruct H as [H1 H2].
  apply Z.ltb_lt in H3. apply Z.eqb_eq in H4.
  apply cell_unique in H4; [|lia|lia]. destruct H4 as [-> ->]. tauto.
Qed.

Lemma group_sum_chunk tx :
  feature tx = f0 -> group_sum tx r = chunk_sum.
Proof.
  intros Hf. unfold group_sum, chunk_sum, qsum. apply bigsum_ext_in.
  intros l Hl. apply In_zrange in Hl. unfold staged_value. rewrite Hf.
  assert (Hb : peer r l = (chunk_start + l <? n) && (ib (chunk_start + l) =? r)).
  { unfold peer. rewrite (Z.eqb_sym r), andb_comm. f_equal.
    destruct (Z.ltb_spec (n - chunk_start) 32);
      destruct (Z.ltb_spec (chunk_start + l) n);
      [destruct (Z.leb_spec (n - chunk_start) l)
      |destruct (Z.leb_spec (n - chunk_start) l)
      |destruct (Z.leb_spec 32 l) | destruct (Z.leb_spec 32 l)];
      cbn; try reflexivity; lia. }
  now rewrite Hb.
Qed.

Lemma chunk_threads_sum :
  qsum (fun t => thread_add (r * stride + f0) (fst t) (snd t))
       (block_threads blockDim_x blockDim_y)
  = if in_tile && negb (r =? padding_idx) then chunk_sum else 0%Qc.
Proof.
  set (v := if in_tile && negb (r =? padding_idx) then chunk_sum else 0%Qc).
  unfold qsum.
  rewrite (bigsum_ext_in _ (fun t => if adds_to_cell t then v else 0%Qc)).
  - apply bigsum_at_most_one; [typeclasses eauto | | apply NoDup_block_threads |].
    + intros [x1 y1] [x2 y2] H1 H2 C1 C2.
      apply In_block_threads in H1, H2. cbn [fst snd] in *.
      apply adds_to_cell_inv in C1, C2; cbn [fst snd] in *; try tauto.
      destruct C1 as (_ & L1 & R1 & F1), C2 as (_ & L2 & R2 & F2).
      unfold leads in L1, L2. rewrite R1 in L1. rewrite R2 in L2.
      apply Z.eqb_eq in L1, L2. f_equal; lia.
    + intros Hnone. unfold v, in_tile.
      destruct (Z.eqb_spec blockIdx_x (f0 / 32)) as [Hb|]; [|reflexivity].
      destruct (Z.eqb_spec r padding_idx) as [|Hr]; [reflexivity|]. cbn [andb negb].
      apply bigsum_zero. intros l Hl.
      destruct ((chunk_start + l <? n) && (ib (chunk_start + l) =? r)) eqn:E;
        [|reflexivity].
      exfalso. apply andb_prop in E. destruct E as [E1 E2].
      apply Z.ltb_lt in E1. apply Z.eqb_eq in E2. apply In_zrange in Hl.
      assert (Hp : peer r l = true).
      { unfold peer. rewrite E2, Z.eqb_refl. cbn [andb].
        apply negb_true_iff, Z.leb_gt.
        destruct (Z.ltb_spec (n - chunk_start) 32); lia. }
      destruct (set_lanes (WARP_BALLOT (peer r))) as [|j rest] eqn:Elanes.
      { assert (In l (set_lanes (WARP_BALLOT (peer r))))
          by (rewrite WARP_BALLOT_lanes, filter_In, In_zrange; split; [lia|assumption]).
        rewrite Elanes in H. destruct H. }
      assert (Hj : In j (set_lanes (WARP_BALLOT (peer r))))
        by (rewrite Elanes; now left).
      rewrite WARP_BALLOT_lanes, filter_In, In_zrange in Hj. destruct Hj as [Hj Hpj].
      pose proof Hpj as Hpj'. unfold peer in Hpj'.
      apply andb_prop in Hpj'. destruct Hpj' as [Hj1 Hj2].
      apply Z.eqb_eq in Hj1. apply negb_true_iff, Z.leb_gt in Hj2.
      assert (Hjn : chunk_start + j < n)
        by (destruct (Z.ltb_spec (n - chunk_start) 32); lia).
      assert (Hc : adds_to_cell (f0 - blockIdx_x * 32, j) = true).
      { unfold adds_to_cell, active, leads. cbn [fst snd].
        rewrite <- Hj1, ffs_set_lanes, Elanes.
        replace (r =? padding_idx) with false by (symmetry; now apply Z.eqb_neq).
        replace (chunk_start + j <? n) with true by (symmetry; now apply Z.ltb_lt).
        replace (j =? j + 1 - 1) with true by (symmetry; apply Z.eqb_eq; lia).
        replace (f0 - blockIdx_x * 32 + blockIdx_x * 32) with f0 by lia.
        replace (f0 <? stride) with true by (symmetry; apply Z.ltb_lt; lia).
        cbn [negb andb]. apply Z.eqb_refl. }
      rewrite Hnone in Hc; [discriminate|].
      apply In_block_threads. cbn [fst snd].
      unfold blockDim_x, blockDim_y, WARP_SIZE, BLOCKDIMY.
      split; [|lia]. clear - Hb f0_range block_nonneg.
      Z.to_euclidean_division_equations. lia.
  - intros [tx ty] Ht. apply In_block_threads in Ht. cbn [fst snd] in *.
    change (thread_add (r * stride + f0) tx ty)
      with (if adds_to_cell (tx, ty)
            then group_sum tx (ib (chunk_start + ty)) else 0%Qc).
    destruct (adds_to_cell (tx, ty)) eqn:C; [|reflexivity].
    apply adds_to_cell_inv in C; [|cbn [fst]; unfold blockDim_x, WARP_SIZE in Ht; lia].
    cbn [fst snd] in C. destruct C as (Ca & _ & Cr & Cf).
    rewrite Cr, (group_sum_chunk tx Cf). unfold v, in_tile.
    unfold active in Ca. rewrite Cr in Ca. apply andb_prop in Ca. destruct Ca as [Ca _].
    rewrite Ca, andb_true_r.
    replace (blockIdx_x =? f0 / 32) with true; [reflexivity|].
    symmetry. apply Z.eqb_eq. unfold blockDim_x, WARP_SIZE in Ht.
    Z.to_euclidean_division_equations. lia.
Qed.

Lemma process_chunk_cell st :
  indices_batch st = ib ->
  let st' := process_chunk grad n stride padding_idx blockIdx_x 0 chunk_start st in
  indices_batch st' = ib /\ oob st' = oob st
  /\ cells (grad_weight st') (r * stride + f0)
     = cells (grad_weight st) (r * stride + f0)
       +q (if in_tile && negb (r =? padding_idx) then chunk_sum else 0%Qc).
Proof.
  intros Hib. unfold process_chunk.
  destruct (stage_phase st Hib) as (S1 & S2 & S3 & S4).
  destruct (elect_phase _ (r * stride + f0) S1 S4) as (E1 & E2 & E3).
  cbv zeta. rewrite E3, chunk_threads_sum, S2.
  repeat split; congruence.
Qed.
End DirectChunk.

(** ** The small-batch kernel: the loops over chunks and batches *)

Lemma bigsum_chunks {A : Type} (zero : A) (add : A -> A -> A) {M : CMonoid zero add}
    (H : Z -> A) (n : Z) (fuel : nat) : forall i,
  0 <= i -> n - i <= Z.of_nat fuel * 32 ->
  bigsum zero add
    (fun cs => bigsum zero add (fun l => if cs + l <? n then H (cs + l) else zero)
                      (zrange 32))
    (loop_indices fuel i n 32)
  = bigsum zero add H (zseq i (Z.to_nat (n - i))).
Proof.
  induction fuel as [|k IH]; intros i Hi Hfuel; cbn [loop_indices].
  - replace (Z.to_nat (n - i)) with 0%nat by lia. reflexivity.
  - destruct (Z.ltb_spec i n) as [Hlt|Hge];
      [|replace (Z.to_nat (n - i)) with 0%nat by lia; reflexivity].
    cbn [bigsum]. rewrite IH by lia.
    set (m := Z.to_nat (Z.min 32 (n - i))).
    replace (Z.to_nat (n - i)) with (m + Z.to_nat (n - (i + 32)))%nat by lia.
    rewrite zseq_app, bigsum_app. f_equal.
    + unfold zrange. replace (Z.to_nat 32) with (m + (32 - m))%nat by lia.
      rewrite zseq_app, bigsum_app.
      rewrite (bigsum_zero _ (zseq (0 + Z.of_nat m) (32 - m))).
      * rewrite (cm_unit_r (zero := zero)).
        replace (zseq i m) with (zseq (0 + i) m) by (f_equal; lia).
        rewrite (bigsum_shift H i 0 m).
        apply bigsum_ext_in. intros l Hl. apply In_zseq in Hl.
        replace (i + l <? n) with true by lia. f_equal. lia.
      * intros l Hl. apply In_zseq in Hl.
        now replace (i + l <? n) with false by lia.
    + destruct (Z.le_gt_cases 32 (n - i)).
      * replace (i + Z.of_nat m) with (i + 32) by lia. reflexivity.
      * replace (Z.to_nat (n - (i + 32))) with 0%nat by lia. reflexivity.
Qed.

Lemma for_loop_once {S : Type} n step (body : Z -> S -> S) s :
  0 < n <= step -> for_loop (Z.to_nat n) 0 n step body s = body 0 s.
Proof.
  intros Hn. destruct (Z.to_nat n) as [|k] eqn:E; [lia|].
  cbn [for_loop]. replace (0 <? n) with true by lia.
  destruct k; cbn [for_loop]; [reflexivity|].
  now replace (0 + step <? n) with false by lia.
Qed.

Section DirectBlock.
Variables (indices : Z -> Z) (grad : Z -> Qc) (n stride padding_idx : Z).
Hypothesis stride_fits : to_int stride = stride.
Hypothesis n_fits_batch : 0 <= n <= N_BATCH_SLOTS.
Variables (r f0 : Z).
Hypothesis f0_range : 0 <= f0 < stride.

(** The gradient rows of the whole index list that target row [r], at
    feature [f0]. *)
Definition direct_sum : Qc :=
  qsum (fun j => if to_int (indices j) =? r then grad (j * stride + f0) else 0%Qc)
       (zrange n).

Lemma load_batch_fold l : forall st,
  (forall t, In t l -> 0 <= fst t < 32 /\ 0 <= snd t < 32) ->
  let st' := fold_left (fun s t => load_batch indices n 0 (fst t) (snd t) s) l st in
  grad_weight st' = grad_weight st /\ oob st' = oob st
  /\ (forall tx ty, 0 <= tx < 32 -> 0 <= ty < 32 -> tx + ty * 32 < n ->
        In (tx, ty) l
        \/ indices_batch st (tx + ty * 32) = to_int (indices (tx + ty * 32)) ->
        indices_batch st' (tx + ty * 32) = to_int (indices (tx + ty * 32))).
Proof.
  induction l as [|t l IH]; intros st Hl; cbn [fold_left].
  - repeat split. intros tx ty _ _ _ [[]|H]; assumption.
  - destruct (IH (load_batch indices n 0 (fst t) (snd t) st)) as (G1 & G2 & G3);
      [intros; apply Hl; now right|].
    assert (Ht : 0 <= fst t < 32 /\ 0 <= snd t < 32) by (apply Hl; now left).
    assert (Hstep : grad_weight (load_batch indices n 0 (fst t) (snd t) st)
                    = grad_weight st
                    /\ oob (load_batch indices n 0 (fst t) (snd t) st) = oob st
                    /\ indices_batch (load_batch indices n 0 (fst t) (snd t) st)
                       = if fst t + snd t * 32 <? n
                         then upd (indices_batch st) (fst t + snd t * 32)
                                (to_int (indices (fst t + snd t * 32)))
                         else indices_batch st).
    { unfold load_batch, blockDim_x, WARP_SIZE. rewrite Z.add_0_l.
      destruct (fst t + snd t * 32 <? n); repeat split. }
    destruct Hstep as (H1 & H2 & H3).
    split; [congruence|]. split; [congruence|].
    intros tx ty Htx Hty Hn Hor. apply G3; try assumption.
    destruct Hor as [[E|Hin]|H]; [|now left|]; right; rewrite H3.
    + subst t. cbn [fst snd]. replace (tx + ty * 32 <? n) with true by lia.
      now rewrite upd_apply, Z.eqb_refl.
    + destruct (fst t + snd t * 32 <? n); [|assumption].
      rewrite upd_apply.
      destruct (Z.eqb_spec (tx + ty * 32) (fst t + snd t * 32)) as [E|E];
        [now rewrite E | assumption].
Qed.

Lemma load_phase st :
  let st' := run_phase blockDim_x blockDim_y (load_batch indices n 0) st in
  grad_weight st' = grad_weight st /\ oob st' = oob st
  /\ (forall t, 0 <= t < n -> indices_batch st' t = to_int (indices t)).
Proof.
  unfold run_phase.
  destruct (load_batch_fold (block_threads blockDim_x blockDim_y) st)
    as (H1 & H2 & H3).
  - intros t Ht. now apply In_block_threads in Ht.
  - split; [exact H1|]. split; [exact H2|]. intros t Ht.
    unfold N_BATCH_SLOTS, WARP_SIZE, BLOCKDIMY in n_fits_batch.
    replace t with (t mod 32 + t / 32 * 32)
      by (Z.to_euclidean_division_equations; lia).
    apply H3; try (Z.to_euclidean_division_equations; lia).
    left. apply In_block_threads. cbn [fst snd].
    unfold blockDim_x, blockDim_y, WARP_SIZE, BLOCKDIMY.
    Z.to_euclidean_division_equations; lia.
Qed.

Variable blockIdx_x : Z.
Hypothesis block_nonneg : 0 <= blockIdx_x.

(** What the block adds to the cell. *)
Definition block_adds : Qc :=
  if in_tile blockIdx_x f0 && negb (r =? padding_idx) then direct_sum else 0%Qc.

Lemma chunk_loop st :
  (forall t, 0 <= t < n -> indices_batch st t = to_int (indices t)) ->
  let st' := for_loop (Z.to_nat n) 0 n blockDim_y
               (process_chunk grad n stride padding_idx blockIdx_x 0) st in
  oob st' = oob st
  /\ cells (grad_weight st') (r * stride + f0)
     = cells (grad_weight st) (r * stride + f0) +q block_adds.
Proof.
  intros Hib. rewrite for_loop_fold. unfold blockDim_y, BLOCKDIMY.
  set (ib := indices_batch st) in *.
  destruct (fold_adds_inv (fun s => cells (grad_weight s) (r * stride + f0))
              (process_chunk grad n stride padding_idx blockIdx_x 0)
              (fun cs => if in_tile blockIdx_x f0 && negb (r =? padding_idx)
                         then chunk_sum grad n stride cs ib r f0 else 0%Qc)
              (fun s => indices_batch s = ib /\ oob s = oob st)
              (loop_indices (Z.to_nat n) 0 n 32))
    with (s := st) as [[_ H1] H2].
  - intros cs s Hcs [I1 I2].
    apply loop_indices_spec in Hcs; [|lia|lia].
    unfold N_BATCH_SLOTS, WARP_SIZE, BLOCKDIMY in n_fits_batch.
    destruct (process_chunk_cell grad n stride padding_idx blockIdx_x cs ib
                stride_fits) with (r := r) (f0 := f0) (st := s)
      as (E1 & E2 & E3); try assumption.
    + unfold N_BATCH_SLOTS, WARP_SIZE, BLOCKDIMY.
      rewrite Z.sub_0_r in Hcs. Z.to_euclidean_division_equations. lia.
    + repeat split; congruence.
  - now split.
  - split; [exact H1|]. rewrite H2. f_equal. unfold block_adds.
    rewrite bigsum_if.
    destruct (in_tile blockIdx_x f0 && negb (r =? padding_idx)); [|reflexivity].
    unfold direct_sum, qsum, zrange.
    rewrite <- (Z.sub_0_r n) at 3.
    rewrite <- (bigsum_chunks 0%Qc Qcplus
                  (fun j => if to_int (indices j) =? r
                            then grad (j * stride + f0) else 0%Qc)
                  n (Z.to_nat n) 0) by lia.
    apply bigsum_ext_in. intros cs Hcs.
    apply loop_indices_spec in Hcs; [|lia|lia].
    unfold chunk_sum, qsum. apply bigsum_ext_in. intros l Hl. apply In_zrange in Hl.
    destruct (Z.ltb_spec (cs + l) n); cbn [andb]; [|reflexivity].
    unfold ib. now rewrite Hib by lia.
Qed.
Lemma block_kernel_cell st :
  let st' := embedding_backward_feature_kernel indices grad n stride padding_idx
               blockIdx_x st in
  oob st' = oob st
  /\ cells (grad_weight st') (r * stride + f0)
     = cells (grad_weight st) (r * stride + f0) +q block_adds.
Proof.
  unfold embedding_backward_feature_kernel.
  destruct (Z.eq_dec n 0) as [Hn0|Hn0].
  - rewrite Hn0. cbn [Z.to_nat for_loop]. split; [reflexivity|].
    unfold block_adds, direct_sum. rewrite Hn0. cbn [zrange Z.to_nat zseq qsum bigsum].
    destruct (in_tile blockIdx_x f0 && negb (r =? padding_idx));
      now rewrite Qcplus_0_r.
  - rewrite for_loop_once
      by (unfold blockDim_x, blockDim_y;
          unfold N_BATCH_SLOTS in n_fits_batch; lia).
    destruct (load_phase st) as (L1 & L2 & L3).
    destruct (chunk_loop _ L3) as [C1 C2].
    cbv zeta. rewrite C1, C2, L1, L2. now split.
Qed.
End DirectBlock.

Section DirectLaunch.
Variables (junk_s : Z -> Z -> Qc) (junk_i : Z -> Z -> Z).
Variables (grid_x : Z) (indices : Z -> Z) (grad : Z -> Qc) (n stride padding_idx : Z).
Hypothesis stride_fits : to_int stride = stride.
Hypothesis n_fits_batch : 0 <= n <= N_BATCH_SLOTS.
Variables (r f0 : Z).
Hypothesis f0_range : 0 <= f0 < stride.
Hypothesis grid_covers : stride <= 32 * grid_x.

Lemma launch_feature_cells gw :
  let launched :=
    launch_feature_kernel junk_s junk_i grid_x indices grad n stride padding_idx gw in
  snd launched = false
  /\ cells (fst launched) (r * stride + f0)
     = cells gw (r * stride + f0)
       +q (if r =? padding_idx then 0%Qc
           else direct_sum indices grad n stride r f0).
Proof.
  unfold launch_feature_kernel.
  destruct (fold_adds_inv (fun acc : gmem * bool => cells (fst acc) (r * stride + f0))
              (fun b acc =>
                 let st := embedding_backward_feature_kernel indices grad n stride
                             padding_idx b
                             {| smem := junk_s b; indices_batch := junk_i b;
                                grad_weight := fst acc; oob := snd acc |} in
                 (grad_weight st, oob st))
              (fun b => block_adds indices grad n stride padding_idx r f0 b)
              (fun acc => snd acc = false) (zrange grid_x))
    with (s := (gw, false)) as [H1 H2].
  - intros b acc Hb Hacc. apply In_zrange in Hb.
    destruct (block_kernel_cell indices grad n stride padding_idx stride_fits
                n_fits_batch r f0 f0_range b (proj1 Hb)
                {| smem := junk_s b; indices_batch := junk_i b;
                   grad_weight := fst acc; oob := snd acc |}) as [B1 B2].
    cbn [fst snd oob grad_weight] in *. split; [congruence | exact B2].
  - reflexivity.
  - cbv zeta in *. split; [exact H1|]. rewrite H2. cbn [fst]. f_equal.
    unfold block_adds, in_tile, zrange.
    rewrite (bigsum_ext_in _
               (fun b => if b =? f0 / 32
                         then (if r =? padding_idx then 0%Qc
                               else direct_sum indices grad n stride r f0)
                         else 0%Qc))
      by (intros b _; destruct (b =? f0 / 32), (r =? padding_idx); reflexivity).
    rewrite bigsum_pick.
    replace ((0 <=? f0 / 32) && (f0 / 32 <? 0 + Z.of_nat (Z.to_nat grid_x)))
      with true; [reflexivity|].
    symmetry. apply andb_true_intro.
    split; [apply Z.leb_le | apply Z.ltb_lt];
      Z.to_euclidean_division_equations; lia.
Qed.
End DirectLaunch.

(** ** The host function of the backward pass *)

(** The arguments the host function accepts, and the sizes the kernels
    keep in [int] ("we don't expect 2 billion+ samples in one shot"). *)
Record backward_input_ok (grad_ : Tensor Qc) (indices : Tensor Z)
    (num_weights : Z) : Prop :=
  { ok_scalar_type : scalar_type indices = kLong;
    ok_contiguous : is_contiguous indices = true;
    ok_same_gpu : get_device grad_ = get_device indices;
    ok_view : tensor_numel indices * size_last grad_ = tensor_numel grad_;
    ok_rows : forall v, In v (elements indices) -> 0 <= v < num_weights;
    ok_stride : size_last grad_ < 2 ^ 31;
    ok_table : num_weights * size_last grad_ < 2 ^ 31;
    ok_grad : tensor_numel grad_ < 2 ^ 31 }.

Lemma Zq_1 : Zq 1 = 1%Qc.
Proof. apply Qc_is_canon. reflexivity. Qed.

Lemma expected_cell_unscaled grad idx stride r f :
  (forall v, In v idx -> - 2 ^ 31 <= v < 2 ^ 31) ->
  direct_sum (data_ptr 0 idx) grad (Z.of_nat (List.length idx)) stride r f
  = expected_cell grad idx stride false r f.
Proof.
  intros Hidx. unfold direct_sum, expected_cell, qsum. apply bigsum_ext_in.
  intros i Hi. apply In_zrange in Hi.
  rewrite to_int_small by (apply Hidx; apply data_ptr_In; lia).
  destruct (data_ptr 0 idx i =? r); [|reflexivity].
  unfold row_count. rewrite Zq_1. unfold Qcdiv.
  replace (/ 1)%Qc with 1%Qc by (apply Qc_is_canon; reflexivity). ring.
Qed.

Section HostProofs.
Variable sort_by_key : list Z -> list Z -> list Z * list Z.
Variables (junk_s : Z -> Z -> Qc) (junk_i : Z -> Z -> Z).
Hypothesis sort_ok : sort_by_key_contract sort_by_key.

Variables (grad : Z -> Qc) (indices : Tensor Z).
Variables (num_weights stride padding_idx : Z).
Hypothesis rows_ok : forall v, In v (elements indices) -> 0 <= v < num_weights.
Hypothesis stride_ok : stride < 2 ^ 31.
Hypothesis table_ok : num_weights * stride < 2 ^ 31.
Hypothesis grad_ok : tensor_numel indices * stride < 2 ^ 31.

Local Abbreviation n := (tensor_numel indices).
Local Abbreviation idx := (elements indices).

(** What a path adds to feature [f] of row [r]. *)
Definition path_adds (scale_grad_by_freq : bool) (r f : Z) : Qc :=
  if r =? to_int padding_idx then 0%Qc
  else expected_cell grad idx stride scale_grad_by_freq r f.

Lemma sorted_path_ok scale_grad_by_freq gw :
  exists gw',
    sorted_path sort_by_key grad indices n stride padding_idx scale_grad_by_freq gw
    = Ok gw'
    /\ forall r f, 0 <= f < stride ->
         cells gw' (r * stride + f)
         = cells gw (r * stride + f) +q path_adds scale_grad_by_freq r f
         /\ store_count gw' (r * stride + f)
            = store_count gw (r * stride + f)
              + (if r =? to_int padding_idx then 0 else occurrences idx r).
Proof.
  unfold sorted_path.
  assert (Hlen : List.length idx = List.length (zrange n))
    by (rewrite length_zrange; unfold tensor_numel; lia).
  destruct (sort_ok idx (zrange n) Hlen) as (Hperm & Hl1 & Hl2 & Hsorted).
  destruct (sort_by_key idx (zrange n)) as [sorted orig]. cbn [fst snd] in *.
  cbn [THCudaCheck bind]. eexists. split; [reflexivity|].
  intros r f Hf. unfold tensor_numel in *. split.
  - rewrite (sorted_path_sum idx sorted orig grad num_weights stride
               (to_int padding_idx) scale_grad_by_freq) by assumption.
    unfold path_adds. now rewrite added_sum_expected.
  - now rewrite (sorted_path_stores idx sorted orig grad num_weights stride
                   (to_int padding_idx) scale_grad_by_freq) by assumption.
Qed.

Lemma direct_path_ok gw :
  n <= N_BATCH_SLOTS ->
  exists gw',
    direct_path junk_s junk_i grad indices n stride padding_idx gw = Ok gw'
    /\ forall r f, 0 <= f < stride ->
         cells gw' (r * stride + f)
         = cells gw (r * stride + f) +q path_adds false r f.
Proof.
  intros Hn. unfold direct_path.
  assert (Hn0 : 0 <= n) by (unfold tensor_numel; lia).
  assert (Hnint : to_int n = n)
    by (apply to_int_small; unfold N_BATCH_SLOTS, WARP_SIZE, BLOCKDIMY in Hn; lia).
  rewrite Hnint.
  destruct (Z.le_gt_cases stride 0) as [Hs|Hs].
  - (* no feature, no block *)
    unfold launch_feature_kernel, zrange.
    replace (Z.to_nat (THCCeilDiv stride WARP_SIZE)) with 0%nat
      by (unfold THCCeilDiv, WARP_SIZE; Z.to_euclidean_division_equations; lia).
    cbn [zseq fold_left snd fst THCudaCheck bind].
    exists gw. split; [reflexivity|]. intros r f Hf. lia.
  - assert (Hsf : to_int stride = stride) by (apply to_int_small; lia).
    assert (Hgrid : stride <= 32 * THCCeilDiv stride WARP_SIZE)
      by (unfold THCCeilDiv, WARP_SIZE; Z.to_euclidean_division_equations; lia).
    destruct (launch_feature_cells junk_s junk_i (THCCeilDiv stride WARP_SIZE)
                (data_ptr 0 idx) grad n stride (to_int padding_idx) Hsf
                (conj Hn0 Hn) 0 0 (conj (Z.le_refl 0) Hs) Hgrid gw) as [Hoob _].
    cbv zeta in Hoob. rewrite Hoob. cbn [THCudaCheck bind].
    eexists. split; [reflexivity|]. intros r f Hf.
    destruct (launch_feature_cells junk_s junk_i (THCCeilDiv stride WARP_SIZE)
                (data_ptr 0 idx) grad n stride (to_int padding_idx) Hsf
                (conj Hn0 Hn) r f Hf Hgrid gw) as [_ Hcell].
    cbv zeta in Hcell. rewrite Hcell. unfold path_adds, tensor_numel.
    rewrite expected_cell_unscaled; [reflexivity|].
    intros v Hv. apply rows_ok in Hv. nia.
Qed.
End HostProofs.

(** ** A sort that meets the contract

    Insertion sort on (key, value) pairs; it shows the contract can be met
    and serves to run the host function on concrete inputs. *)

Fixpoint insert_by_key (k v : Z) (l : list (Z * Z)) : list (Z * Z) :=
  match l with
  | [] => [(k, v)]
  | (k', v') :: t =>
      if k <=? k' then (k, v) :: l else (k', v') :: insert_by_key k v t
  end.

Definition sort_pairs (l : list (Z * Z)) : list (Z * Z) :=
  fold_right (fun kv acc => insert_by_key (fst kv) (snd kv) acc) [] l.

Definition insertion_sort_by_key (keys values : list Z) : list Z * list Z :=
  List.split (sort_pairs (combine keys values)).

Lemma insert_by_key_perm k v l : Permutation (insert_by_key k v l) ((k, v) :: l).
Proof.
  induction l as [|[k' v'] l IH]; cbn [insert_by_key]; [reflexivity|].
  destruct (k <=? k'); [reflexivity|].
  rewrite IH. apply perm_swap.
Qed.

Lemma sort_pairs_perm l : Permutation (sort_pairs l) l.
Proof.
  induction l as [|[k v] l IH]; cbn [sort_pairs fold_right fst snd]; [reflexivity|].
  rewrite insert_by_key_perm. now constructor.
Qed.

Lemma insert_by_key_sorted k v l :
  StronglySorted Z.le (map fst l) ->
  StronglySorted Z.le (map fst (insert_by_key k v l)).
Proof.
  induction l as [|[k' v'] l IH]; cbn [insert_by_key map fst]; intros HS.
  - constructor; constructor.
  - apply StronglySorted_inv in HS. destruct HS as [HS Hall].
    destruct (Z.leb_spec k k') as [Hle|Hgt]; cbn [map fst].
    + constructor; [now constructor|].
      constructor; [assumption|].
      eapply Forall_impl; [|exact Hall]. intros; cbn in *; lia.
    + constructor; [now apply IH|].
      apply Forall_forall. intros x Hx. apply in_map_iff in Hx.
      destruct Hx as ([k2 v2] & <- & Hin).
      apply (Permutation_in _ (insert_by_key_perm k v l)) in Hin.
      destruct Hin as [E|Hin].
      * injection E as <- <-. cbn. lia.
      * rewrite Forall_forall in Hall. apply Hall.
        apply in_map_iff. now exists (k2, v2).
Qed.

Lemma sort_pairs_sorted l : StronglySorted Z.le (map fst (sort_pairs l)).
Proof.
  induction l as [|[k v] l IH]; cbn [sort_pairs fold_right fst snd]; [constructor|].
  now apply insert_by_key_sorted.
Qed.

Lemma split_fst_map {X Y : Type} (l : list (X * Y)) : fst (List.split l) = map fst l.
Proof.
  induction l as [|[x y] l IH]; cbn [List.split map fst]; [reflexivity|].
  destruct (List.split l). cbn in *. now rewrite IH.
Qed.

Lemma insertion_sort_contract : sort_by_key_contract insertion_sort_by_key.
Proof.
  intros keys values Hlen. unfold insertion_sort_by_key.
  set (l := sort_pairs (combine keys values)).
  assert (Hl : List.length l = List.length keys).
  { unfold l. rewrite (Permutation_length (sort_pairs_perm _)), length_combine. lia. }
  pose proof (split_combine l) as Hc.
  pose proof (length_fst_split l) as H1. pose proof (length_snd_split l) as H2.
  destruct (List.split l) as [ks vs] eqn:E. cbn [fst snd] in *.
  split; [|split; [|split]].
  - rewrite (Hc ks vs eq_refl). apply sort_pairs_perm.
  - congruence.
  - congruence.
  - replace ks with (fst (List.split l)) by now rewrite E.
    rewrite split_fst_map. apply sort_pairs_sorted.
Qed.

(** ** The backward pass, end to end *)

(** Once the checks pass, the host function is the path its test selects,
    run on a zeroed table. *)
Lemma backward_dispatch sort junk_s junk_i (grad_ : Tensor Qc) (indices : Tensor Z)
    num_weights padding_idx scale_grad_by_freq :
  scalar_type indices = kLong ->
  is_contiguous indices = true ->
  get_device grad_ = get_device indices ->
  tensor_numel indices * size_last grad_ = tensor_numel grad_ ->
  embedding_backward_cuda sort junk_s junk_i grad_ indices num_weights padding_idx
    scale_grad_by_freq
  = if takes_direct_path (tensor_numel indices) scale_grad_by_freq
    then direct_path junk_s junk_i (data_ptr 0%Qc (elements grad_)) indices
           (tensor_numel indices) (size_last grad_) padding_idx zeros
    else sorted_path sort (data_ptr 0%Qc (elements grad_)) indices
           (tensor_numel indices) (size_last grad_) padding_idx scale_grad_by_freq zeros.
Proof.
  intros Hty Hcont Hdev Hview. unfold embedding_backward_cuda.
  unfold checkScalarType, checkContiguous, checkSameGPU.
  rewrite Hty, Hcont, Hdev, Z.eqb_refl, Hview, Z.eqb_refl. reflexivity.
Qed.

(** What each path leaves in a zeroed table, for accepted arguments. *)
Lemma backward_paths sort junk_s junk_i (grad_ : Tensor Qc) (indices : Tensor Z)
    num_weights padding_idx scale_grad_by_freq :
  sort_by_key_contract sort ->
  backward_input_ok grad_ indices num_weights ->
  let grad := data_ptr 0%Qc (elements grad_) in
  let stride := size_last grad_ in
  let n := tensor_numel indices in
  (exists gw,
     sorted_path sort grad indices n stride padding_idx scale_grad_by_freq zeros = Ok gw
     /\ forall r f, 0 <= f < stride ->
          cells gw (r * stride + f)
          = path_adds grad indices stride padding_idx scale_grad_by_freq r f
          /\ store_count gw (r * stride + f)
             = if r =? to_int padding_idx then 0 else occurrences (elements indices) r)
  /\ (n <= N_BATCH_SLOTS ->
      exists gw,
        direct_path junk_s junk_i grad indices n stride padding_idx zeros = Ok gw
        /\ forall r f, 0 <= f < stride ->
             cells gw (r * stride + f)
             = path_adds grad indices stride padding_idx false r f).
Proof.
  intros Hsort Hok grad stride n.
  assert (Hgrad : tensor_numel indices * stride < 2 ^ 31).
  { unfold stride. rewrite (ok_view _ _ _ Hok). apply (ok_grad _ _ _ Hok). }
  split.
  - destruct (sorted_path_ok sort Hsort grad indices num_weights stride padding_idx
                (ok_rows _ _ _ Hok) (ok_table _ _ _ Hok) Hgrad
                scale_grad_by_freq zeros) as (gw & Hrun & Hcells).
    exists gw. split; [exact Hrun|]. intros r f Hf.
    destruct (Hcells r f Hf) as [Hc Hs]. split.
    + rewrite Hc. cbn [cells zeros]. apply Qcplus_0_l.
    + rewrite Hs. reflexivity.
  - intros Hn.
    destruct (direct_path_ok junk_s junk_i grad indices num_weights stride padding_idx
                (ok_rows _ _ _ Hok) (ok_stride _ _ _ Hok)
                (ok_table _ _ _ Hok)
                zeros Hn) as (gw & Hrun & Hcells).
    exists gw. split; [exact Hrun|]. intros r f Hf.
    rewrite (Hcells r f Hf). cbn [cells zeros]. apply Qcplus_0_l.
Qed.

Lemma takes_direct_path_true n scale_grad_by_freq :
  takes_direct_path n scale_grad_by_freq = true <-> n <= 768 /\ scale_grad_by_freq = false.
Proof.
  unfold takes_direct_path. rewrite andb_true_iff, Z.leb_le, negb_true_iff. tauto.
Qed.

(** The table the host function returns, for accepted arguments. *)
Lemma backward_entry sort junk_s junk_i (grad_ : Tensor Qc) (indices : Tensor Z)
    num_weights padding_idx scale_grad_by_freq :
  sort_by_key_contract sort ->
  backward_input_ok grad_ indices num_weights ->
  exists gw,
    embedding_backward_cuda sort junk_s junk_i grad_ indices num_weights padding_idx
      scale_grad_by_freq = Ok gw
    /\ forall r f, 0 <= f < size_last grad_ ->
         cells gw (r * size_last grad_ + f)
         = path_adds (data_ptr 0%Qc (elements grad_)) indices (size_last grad_)
             padding_idx scale_grad_by_freq r f.
Proof.
  intros Hsort Hok.
  rewrite backward_dispatch
    by (apply (ok_scalar_type _ _ _ Hok) || apply (ok_contiguous _ _ _ Hok)
        || apply (ok_same_gpu _ _ _ Hok) || apply (ok_view _ _ _ Hok)).
  destruct (backward_paths sort junk_s junk_i grad_ indices num_weights padding_idx
              scale_grad_by_freq Hsort Hok) as [Hs Hd].
  destruct (takes_direct_path (tensor_numel indices) scale_grad_by_freq) eqn:E.
  - apply takes_direct_path_true in E. destruct E as [Hn ->].
    apply Hd. unfold N_BATCH_SLOTS, WARP_SIZE, BLOCKDIMY. lia.
  - destruct Hs as (gw & Hrun & Hcells). exists gw. split; [exact Hrun|].
    intros r f Hf. apply (Hcells r f Hf).
Qed.

(** No index of an accepted list is the padding row unless the padding
    index fits an [int]; either way the paths add nothing there. *)
Lemma path_adds_padding grad (indices : Tensor Z) stride padding_idx scale_grad_by_freq f :
  (forall v, In v (elements indices) -> - 2 ^ 31 <= v < 2 ^ 31) ->
  path_adds grad indices stride padding_idx scale_grad_by_freq padding_idx f = 0%Qc.
Proof.
  intros Hidx. unfold path_adds.
  destruct (Z.eqb_spec padding_idx (to_int padding_idx)) as [E|NE]; [reflexivity|].
  unfold expected_cell, qsum. apply bigsum_zero. intros i Hi. apply In_zrange in Hi.
  destruct (Z.eqb_spec (data_ptr 0 (elements indices) i) padding_idx) as [E|_];
    [|reflexivity].
  exfalso. apply NE. symmetry. apply to_int_small. rewrite <- E.
  apply Hidx. now apply data_ptr_In.
Qed.

Lemma path_adds_row grad (indices : Tensor Z) stride padding_idx scale_grad_by_freq r f :
  - 2 ^ 31 <= padding_idx < 2 ^ 31 ->
  r <> padding_idx ->
  path_adds grad indices stride padding_idx scale_grad_by_freq r f
  = expected_cell grad (elements indices) stride scale_grad_by_freq r f.
Proof.
  intros Hp Hr. unfold path_adds. rewrite to_int_small by exact Hp.
  destruct (Z.eqb_spec r padding_idx); [contradiction|reflexivity].
Qed.

Lemma accepted_rows_fit (grad_ : Tensor Qc) (indices : Tensor Z) num_weights f :
  backward_input_ok grad_ indices num_weights ->
  0 <= f < size_last grad_ ->
  forall v, In v (elements indices) -> - 2 ^ 31 <= v < 2 ^ 31.
Proof.
  intros Hok Hf v Hv. pose proof (ok_rows _ _ _ Hok v Hv) as Hr.
  pose proof (ok_table _ _ _ Hok) as Ht. nia.
Qed.

(** ** Reference inputs

    Three positions over a table of five rows of three features; rows 0
    (twice) and 2 are looked up.  Shared memory starts with arbitrary
    content. *)
Definition example_grad : Tensor Qc :=
  {| scalar_type := kFloat; is_contiguous := true; get_device := 0;
     sizes := [3; 3]; elements := map Zq [1; 1; 1; 1; 1; 1; 2; 2; 2] |}.

Definition example_indices : Tensor Z :=
  {| scalar_type := kLong; is_contiguous := true; get_device := 0;
     sizes := [3]; elements := [0; 0; 2] |}.

Definition example_junk_s : Z -> Z -> Qc := fun _ _ => Zq 7.
Definition example_junk_i : Z -> Z -> Z := fun _ _ => 2.

Ltac example_input_ok :=
  constructor;
  [ reflexivity | reflexivity | reflexivity | reflexivity
  | intros v Hv; cbn in Hv; intuition lia
  | reflexivity | reflexivity | reflexivity ].

(** The table holds, in every row but the padding row, the sum of the
    gradient rows of the positions that looked the row up, each divided by
    the row's count when scaling is on. *)
Definition accumulated (grad_ : Tensor Qc) (indices : Tensor Z)
    (padding_idx : Z) (scale_grad_by_freq : bool) (gw : gmem) : Prop :=
  forall r f, r <> padding_idx -> 0 <= f < size_last grad_ ->
    cells gw (r * size_last grad_ + f)
    = expected_cell (data_ptr 0%Qc (elements grad_)) (elements indices)
        (size_last grad_) scale_grad_by_freq r f.

(** C1: for every accepted input and every row r other than padding_idx,
    the returned table holds in row r the sum, over all positions i with
    Index[i] = r, of the gradient row of i times the scale of i; this holds
    of the host function, of the sorted path on every input, and of the
    small-batch path on every input it can be given, whatever the
    duplicates in the index list. *)
Theorem backward_accumulates_sum :
  forall sort junk_s junk_i (grad_ : Tensor Qc) (indices : Tensor Z)
         num_weights padding_idx scale_grad_by_freq,
    sort_by_key_contract sort ->
    backward_input_ok grad_ indices num_weights ->
    - 2 ^ 31 <= padding_idx < 2 ^ 31 ->
    (exists gw,
       embedding_backward_cuda sort junk_s junk_i grad_ indices num_weights
         padding_idx scale_grad_by_freq = Ok gw
       /\ accumulated grad_ indices padding_idx scale_grad_by_freq gw)
    /\ (exists gw,
          sorted_path sort (data_ptr 0%Qc (elements grad_)) indices
            (tensor_numel indices) (size_last grad_) padding_idx
            scale_grad_by_freq zeros = Ok gw
          /\ accumulated grad_ indices padding_idx scale_grad_by_freq gw)
    /\ (tensor_numel indices <= 768 ->
        exists gw,
          direct_path junk_s junk_i (data_ptr 0%Qc (elements grad_)) indices
            (tensor_numel indices) (size_last grad_) padding_idx zeros = Ok gw
          /\ accumulated grad_ indices padding_idx false gw).
Proof.
  intros sort junk_s junk_i grad_ indices num_weights padding_idx scale Hsort Hok Hpad.
  split; [|split].
  - destruct (backward_entry sort junk_s junk_i grad_ indices num_weights padding_idx
                scale Hsort Hok) as (gw & Hrun & Hcells).
    exists gw. split; [exact Hrun|]. intros r f Hr Hf.
    rewrite (Hcells r f Hf). now apply path_adds_row.
  - destruct (backward_paths sort junk_s junk_i grad_ indices num_weights padding_idx
                scale Hsort Hok) as [(gw & Hrun & Hcells) _].
    exists gw. split; [exact Hrun|]. intros r f Hr Hf.
    destruct (Hcells r f Hf) as [-> _]. now apply path_adds_row.
  - intros Hn.
    destruct (backward_paths sort junk_s junk_i grad_ indices num_weights padding_idx
                scale Hsort Hok) as [_ Hd].
    destruct Hd as (gw & Hrun & Hcells);
      [unfold N_BATCH_SLOTS, WARP_SIZE, BLOCKDIMY; lia|].
    exists gw. split; [exact Hrun|]. intros r f Hr Hf.
    rewrite (Hcells r f Hf). now apply path_adds_row.
Qed.

Lemma backward_accumulates_sum_witness :
  exists gw,
    embedding_backward_cuda insertion_sort_by_key example_junk_s example_junk_i
      example_grad example_indices 5 (-1) true = Ok gw
    /\ accumulated example_grad example_indices (-1) true gw.
Proof.
  assert (Hok : backward_input_ok example_grad example_indices 5) by example_input_ok.
  assert (Hpad : - 2 ^ 31 <= -1 < 2 ^ 31) by lia.
  exact (proj1 (backward_accumulates_sum insertion_sort_by_key example_junk_s
                  example_junk_i example_grad example_indices 5 (-1) true
                  insertion_sort_contract Hok Hpad)).
Defined.

(** Every feature of the padding row is zero. *)
Definition padding_row_zero (grad_ : Tensor Qc) (padding_idx : Z) (gw : gmem) : Prop :=
  forall f, 0 <= f < size_last grad_ ->
    cells gw (padding_idx * size_last grad_ + f) = 0%Qc.

(** C3: for every accepted input, row padding_idx of the returned table is
    all zeros, however often padding_idx occurs in the index list; this
    holds of the host function, of the sorted path on every input, and of
    the small-batch path on every input it can be given. *)
Theorem padding_row_untouched :
  forall sort junk_s junk_i (grad_ : Tensor Qc) (indices : Tensor Z)
         num_weights padding_idx scale_grad_by_freq,
    sort_by_key_contract sort ->
    backward_input_ok grad_ indices num_weights ->
    (exists gw,
       embedding_backward_cuda sort junk_s junk_i grad_ indices num_weights
         padding_idx scale_grad_by_freq = Ok gw
       /\ padding_row_zero grad_ padding_idx gw)
    /\ (exists gw,
          sorted_path sort (data_ptr 0%Qc (elements grad_)) indices
            (tensor_numel indices) (size_last grad_) padding_idx
            scale_grad_by_freq zeros = Ok gw
          /\ padding_row_zero grad_ padding_idx gw)
    /\ (tensor_numel indices <= 768 ->
        exists gw,
          direct_path junk_s junk_i (data_ptr 0%Qc (elements grad_)) indices
            (tensor_numel indices) (size_last grad_) padding_idx zeros = Ok gw
          /\ padding_row_zero grad_ padding_idx gw).
Proof.
  intros sort junk_s junk_i grad_ indices num_weights padding_idx scale Hsort Hok.
  split; [|split].
  - destruct (backward_entry sort junk_s junk_i grad_ indices num_weights padding_idx
                scale Hsort Hok) as (gw & Hrun & Hcells).
    exists gw. split; [exact Hrun|]. intros f Hf.
    rewrite (Hcells padding_idx f Hf). apply path_adds_padding.
    exact (accepted_rows_fit grad_ indices num_weights f Hok Hf).
  - destruct (backward_paths sort junk_s junk_i grad_ indices num_weights padding_idx
                scale Hsort Hok) as [(gw & Hrun & Hcells) _].
    exists gw. split; [exact Hrun|]. intros f Hf.
    destruct (Hcells padding_idx f Hf) as [-> _]. apply path_adds_padding.
    exact (accepted_rows_fit grad_ indices num_weights f Hok Hf).
  - intros Hn.
    destruct (backward_paths sort junk_s junk_i grad_ indices num_weights padding_idx
                scale Hsort Hok) as [_ Hd].
    destruct Hd as (gw & Hrun & Hcells);
      [unfold N_BATCH_SLOTS, WARP_SIZE, BLOCKDIMY; lia|].
    exists gw. split; [exact Hrun|]. intros f Hf.
    rewrite (Hcells padding_idx f Hf). apply path_adds_padding.
    exact (accepted_rows_fit grad_ indices num_weights f Hok Hf).
Qed.

(** The reference input with row 0, looked up twice, as the padding row. *)
Lemma padding_row_untouched_witness :
  exists gw,
    embedding_backward_cuda insertion_sort_by_key example_junk_s example_junk_i
      example_grad example_indices 5 0 false = Ok gw
    /\ padding_row_zero example_grad 0 gw.
Proof.
  assert (Hok : backward_input_ok example_grad example_indices 5) by example_input_ok.
  exact (proj1 (padding_row_untouched insertion_sort_by_key example_junk_s
                  example_junk_i example_grad example_indices 5 0 false
                  insertion_sort_contract Hok)).
Defined.

(** ** Stores of the sorted path *)

(** The number of stores the sorted path makes to every feature of a row:
    one per member of the row's run, none for the padding row. *)
Definition stored_per_member (indices : Tensor Z) (stride padding_idx : Z)
    (gw : gmem) : Prop :=
  forall r f, 0 <= f < stride ->
    store_count gw (r * stride + f)
    = if r =? to_int padding_idx then 0 else occurrences (elements indices) r.

(** C2 (as the code has it): the owner of a run stores its tile once per
    member of the run, the store being inside the walk, so every feature of
    row r is stored as many times as r occurs in the index list (and never
    when r is the padding row); only a run of one member has exactly one
    store. *)
Theorem sorted_stores_once_per_member :
  forall sort (grad_ : Tensor Qc) (indices : Tensor Z)
         num_weights padding_idx scale_grad_by_freq,
    sort_by_key_contract sort ->
    backward_input_ok grad_ indices num_weights ->
    exists gw,
      sorted_path sort (data_ptr 0%Qc (elements grad_)) indices
        (tensor_numel indices) (size_last grad_) padding_idx
        scale_grad_by_freq zeros = Ok gw
      /\ stored_per_member indices (size_last grad_) padding_idx gw.
Proof.
  intros sort grad_ indices num_weights padding_idx scale Hsort Hok.
  destruct (backward_paths sort example_junk_s example_junk_i grad_ indices
              num_weights padding_idx scale Hsort Hok) as [(gw & Hrun & Hcells) _].
  exists gw. split; [exact Hrun|]. intros r f Hf. apply (Hcells r f Hf).
Qed.

Lemma sorted_stores_once_per_member_witness :
  exists gw,
    sorted_path insertion_sort_by_key (data_ptr 0%Qc (elements example_grad))
      example_indices (tensor_numel example_indices) (size_last example_grad) (-1)
      false zeros = Ok gw
    /\ stored_per_member example_indices (size_last example_grad) (-1) gw.
Proof.
  assert (Hok : backward_input_ok example_grad example_indices 5) by example_input_ok.
  exact (sorted_stores_once_per_member insertion_sort_by_key example_grad
           example_indices 5 (-1) false insertion_sort_contract Hok).
Defined.

(** C2 (as the spec has it) fails: on the reference input row 0 forms one
    run, of two members, and each of its features is stored twice. *)
Lemma sorted_run_stored_twice :
  exists gw,
    sorted_path insertion_sort_by_key (data_ptr 0%Qc (elements example_grad))
      example_indices (tensor_numel example_indices) (size_last example_grad) (-1)
      false zeros = Ok gw
    /\ fst (insertion_sort_by_key (elements example_indices) (zrange 3)) = [0; 0; 2]
    /\ store_count gw 0 = 2 /\ store_count gw 1 = 2 /\ store_count gw 2 = 2.
Proof.
  eexists. split; [reflexivity|]. vm_compute. repeat split.
Qed.

(** ** Frequency counts *)

(** The sort carries every key together with its position. *)
Lemma sorted_key_of_orig sort (indices : list Z) k :
  sort_by_key_contract sort ->
  let n := Z.of_nat (List.length indices) in
  0 <= k < n ->
  data_ptr 0 (fst (sort indices (zrange n))) k
  = data_ptr 0 indices (data_ptr 0 (snd (sort indices (zrange n))) k).
Proof.
  intros Hsort n Hk.
  assert (Hlen : List.length indices = List.length (zrange n))
    by (rewrite length_zrange; lia).
  destruct (Hsort indices (zrange n) Hlen) as (Hperm & Hl1 & Hl2 & _).
  set (sorted := fst (sort indices (zrange n))) in *.
  set (orig := snd (sort indices (zrange n))) in *.
  assert (Hin : In (data_ptr 0 sorted k, data_ptr 0 orig k) (combine sorted orig)).
  { rewrite (combine_as_map 0 0 sorted orig 0) by congruence.
    apply in_map_iff. exists k. rewrite Z.sub_0_r. split; [reflexivity|].
    apply In_zseq. lia. }
  apply (Permutation_in _ Hperm) in Hin.
  rewrite (combine_as_map 0 0 indices (zrange n) 0) in Hin by exact Hlen.
  apply in_map_iff in Hin. destruct Hin as (j & Hj & Hjin).
  apply In_zseq in Hjin. rewrite Z.sub_0_r in Hj.
  rewrite data_ptr_zrange in Hj by lia.
  injection Hj as Hs Ho. rewrite <- Hs, <- Ho. reflexivity.
Qed.

(** C4: with frequency scaling on, the scale the kernel applies at a
    position is 1 over the number of occurrences of that position's index
    in the whole index list.  The forward +1 scan by key numbers the
    members of every run of the sorted list 1, 2, ...; the reverse max scan
    by key then leaves the length of the run, which is the number of
    occurrences of its key, at every member. *)
Theorem frequency_scale_reciprocal :
  forall sort (indices : list Z),
    sort_by_key_contract sort ->
    let n := Z.of_nat (List.length indices) in
    let sorted := fst (sort indices (zrange n)) in
    let orig := snd (sort indices (zrange n)) in
    let forward :=
      inclusive_scan_by_key Z.eqb Z.add sorted (repeat 1 (List.length sorted)) in
    (forall k, 0 <= k < n ->
       data_ptr 0 forward k
       = occurrences (firstn (S (Z.to_nat k)) sorted) (data_ptr 0 sorted k))
    /\ frequency_counts sorted = map (occurrences sorted) sorted
    /\ (forall k, 0 <= k < n ->
          data_ptr 0 (frequency_counts sorted) k
          = occurrences indices (data_ptr 0 indices (data_ptr 0 orig k))
          /\ scale_at (Some (data_ptr 0 (frequency_counts sorted))) k
             = Qcdiv 1%Qc
                 (Zq (occurrences indices (data_ptr 0 indices (data_ptr 0 orig k))))).
Proof.
  intros sort indices Hsort n sorted orig forward.
  assert (Hlen : List.length indices = List.length (zrange n))
    by (rewrite length_zrange; lia).
  destruct (Hsort indices (zrange n) Hlen) as (Hperm & Hl1 & Hl2 & Hsorted).
  fold sorted in Hperm, Hl1, Hsorted. fold orig in Hperm, Hl2.
  assert (Hkeys : Permutation sorted indices).
  { rewrite <- (combine_fst sorted orig) by congruence.
    rewrite <- (combine_fst indices (zrange n) Hlen).
    now apply Permutation_map. }
  assert (Hocc : forall v, occurrences sorted v = occurrences indices v).
  { intros v. unfold occurrences.
    now rewrite (proj1 (Permutation_count_occ Z.eq_dec _ _) Hkeys). }
  assert (Hcount : forall k, 0 <= k < n ->
            data_ptr 0 (frequency_counts sorted) k
            = occurrences indices (data_ptr 0 indices (data_ptr 0 orig k))).
  { intros k Hk. pose proof (sorted_key_of_orig sort indices k Hsort Hk) as Hso.
    cbv zeta in Hso. fold n in Hso. fold sorted orig in Hso. rewrite <- Hso.
    rewrite !data_ptr_nth by lia.
    rewrite frequency_counts_nth by (assumption || lia). apply Hocc. }
  split; [|split].
  - intros k Hk. unfold forward. rewrite !data_ptr_nth by lia.
    apply (count_scan Z.le); [intros; lia | assumption | lia].
  - now apply frequency_counts_eq.
  - intros k Hk. split; [now apply Hcount|].
    unfold scale_at, Zq. now rewrite Hcount.
Qed.

Lemma frequency_scale_reciprocal_witness :
  frequency_counts (fst (insertion_sort_by_key [7; 2; 7; 5; 7] (zrange 5)))
  = map (occurrences (fst (insertion_sort_by_key [7; 2; 7; 5; 7] (zrange 5))))
        (fst (insertion_sort_by_key [7; 2; 7; 5; 7] (zrange 5))).
Proof.
  exact (proj1 (proj2 (frequency_scale_reciprocal insertion_sort_by_key
                         [7; 2; 7; 5; 7] insertion_sort_contract))).
Defined.

(** ** The choice of the path *)

(** An input at the threshold: 768 positions over a table of one row of one
    feature. *)
Definition threshold_grad : Tensor Qc :=
  {| scalar_type := kFloat; is_contiguous := true; get_device := 0;
     sizes := [768; 1]; elements := repeat (Zq 1) 768 |}.

Definition threshold_indices : Tensor Z :=
  {| scalar_type := kLong; is_contiguous := true; get_device := 0;
     sizes := [768]; elements := repeat 0 768 |}.

(** C9 (as the spec has it) fails: with exactly 768 indices, which is not
    below 768, and scaling off, the host function takes the small-batch
    path. *)
Lemma direct_path_at_threshold :
  tensor_numel threshold_indices = 768
  /\ (tensor_numel threshold_indices <? 768) = false
  /\ takes_direct_path (tensor_numel threshold_indices) false = true
  /\ embedding_backward_cuda insertion_sort_by_key example_junk_s example_junk_i
       threshold_grad threshold_indices 1 (-1) false
     = direct_path example_junk_s example_junk_i
         (data_ptr 0%Qc (elements threshold_grad)) threshold_indices
         (tensor_numel threshold_indices) (size_last threshold_grad) (-1) zeros.
Proof.
  assert (E : takes_direct_path (tensor_numel threshold_indices) false = true)
    by reflexivity.
  split; [reflexivity|]. split; [reflexivity|]. split; [exact E|].
  rewrite backward_dispatch by reflexivity. rewrite E. reflexivity.
Qed.

(** C9 (as the code has it): the host function takes the small-batch path
    exactly when there are at most 768 indices and scaling is off, and the
    sorted path in every other case; either way it returns the accumulated
    table. *)
Theorem path_selection :
  forall sort junk_s junk_i (grad_ : Tensor Qc) (indices : Tensor Z)
         num_weights padding_idx scale_grad_by_freq,
    sort_by_key_contract sort ->
    backward_input_ok grad_ indices num_weights ->
    let n := tensor_numel indices in
    let grad := data_ptr 0%Qc (elements grad_) in
    let stride := size_last grad_ in
    let run := embedding_backward_cuda sort junk_s junk_i grad_ indices num_weights
                 padding_idx scale_grad_by_freq in
    (takes_direct_path n scale_grad_by_freq = true
     <-> n <= 768 /\ scale_grad_by_freq = false)
    /\ (n <= 768 /\ scale_grad_by_freq = false ->
        run = direct_path junk_s junk_i grad indices n stride padding_idx zeros)
    /\ (768 < n \/ scale_grad_by_freq = true ->
        run = sorted_path sort grad indices n stride padding_idx scale_grad_by_freq zeros)
    /\ exists gw,
         run = Ok gw
         /\ forall r f, 0 <= f < stride ->
              cells gw (r * stride + f)
              = path_adds grad indices stride padding_idx scale_grad_by_freq r f.
Proof.
  intros sort junk_s junk_i grad_ indices num_weights padding_idx scale Hsort Hok
         n grad stride run.
  assert (Hrun : run = if takes_direct_path n scale
                       then direct_path junk_s junk_i grad indices n stride padding_idx zeros
                       else sorted_path sort grad indices n stride padding_idx scale zeros).
  { unfold run. apply backward_dispatch.
    - apply (ok_scalar_type _ _ _ Hok).
    - apply (ok_contiguous _ _ _ Hok).
    - apply (ok_same_gpu _ _ _ Hok).
    - apply (ok_view _ _ _ Hok). }
  split; [apply takes_direct_path_true|]. split; [|split].
  - intros H. apply takes_direct_path_true in H. now rewrite Hrun, H.
  - intros H. rewrite Hrun.
    destruct (takes_direct_path n scale) eqn:E; [|reflexivity].
    apply takes_direct_path_true in E. destruct E as [Hn Hs], H as [H|H];
      [lia|congruence].
  - apply (backward_entry sort junk_s junk_i grad_ indices num_weights padding_idx
             scale Hsort Hok).
Qed.

Lemma path_selection_witness :
  embedding_backward_cuda insertion_sort_by_key example_junk_s example_junk_i
    example_grad example_indices 5 (-1) false
  = direct_path example_junk_s example_junk_i (data_ptr 0%Qc (elements example_grad))
      example_indices (tensor_numel example_indices) (size_last example_grad) (-1) zeros.
Proof.
  assert (Hok : backward_input_ok example_grad example_indices 5) by example_input_ok.
  assert (Hn : tensor_numel example_indices <= 768 /\ false = false)
    by (split; [discriminate|reflexivity]).
  exact (proj1 (proj2 (path_selection insertion_sort_by_key example_junk_s
                         example_junk_i example_grad example_indices 5 (-1) false
                         insertion_sort_contract Hok)) Hn).
Defined.

(** ** Reads of [indices_batch] *)

Lemma fold_left_preserves {S X : Type} (g : S -> bool) (step : S -> X -> S) l :
  (forall x s, In x l -> g (step s x) = g s) ->
  forall s, g (fold_left step l s) = g s.
Proof.
  induction l as [|x l IH]; intros H s; cbn [fold_left]; [reflexivity|].
  rewrite IH by (intros; apply H; now right). apply H. now left.
Qed.

(** A read outside the buffer raises the observer for good. *)
Lemma read_batch_outside st slot :
  in_batch_buffer slot = false -> oob (snd (read_batch st slot)) = true.
Proof. intros H. unfold read_batch. cbn [snd oob]. rewrite H. apply orb_true_r. Qed.

Section BatchBounds.
Variables (indices : Z -> Z) (grad : Z -> Qc) (n stride padding_idx : Z).
Variable blockIdx_x : Z.

Lemma in_batch_buffer_true slot : 0 <= slot < 1024 -> in_batch_buffer slot = true.
Proof.
  intros H. unfold in_batch_buffer, N_BATCH_SLOTS, WARP_SIZE, BLOCKDIMY.
  apply andb_true_intro. split; [apply Z.leb_le | apply Z.ltb_lt]; lia.
Qed.

Lemma load_batch_oob batch_start tx ty st :
  oob (load_batch indices n batch_start tx ty st) = oob st.
Proof.
  unfold load_batch. now destruct (batch_start + (tx + ty * blockDim_x) <? n).
Qed.

Lemma stage_grad_oob batch_start chunk_start tx ty st :
  0 <= chunk_start + ty - batch_start < 1024 ->
  oob (stage_grad grad n stride padding_idx blockIdx_x
         batch_start chunk_start tx ty st) = oob st.
Proof.
  intros H. unfold stage_grad, read_batch.
  rewrite in_batch_buffer_true by exact H.
  match goal with |- context [if ?c then _ else _] => destruct c end;
    cbn [oob set_smem negb]; apply orb_false_r.
Qed.

Lemma elect_and_add_oob batch_start chunk_start tx ty st :
  0 <= chunk_start - batch_start + tx < 1024 ->
  oob (elect_and_add n stride padding_idx blockIdx_x
         batch_start chunk_start tx ty st) = oob st.
Proof.
  intros H. unfold elect_and_add, read_batch.
  rewrite in_batch_buffer_true by exact H.
  repeat match goal with
         | |- context [if ?c then _ else _] => destruct c
         end;
    cbn [oob set_grad_weight negb]; try reflexivity; apply orb_false_r.
Qed.

Lemma process_chunk_oob batch_start chunk_start st :
  0 <= chunk_start - batch_start <= 1024 - 32 ->
  oob (process_chunk grad n stride padding_idx blockIdx_x
         batch_start chunk_start st) = oob st.
Proof.
  intros H. unfold process_chunk, run_phase.
  rewrite (fold_left_preserves oob).
  - apply (fold_left_preserves oob). intros t s Ht.
    apply In_block_threads in Ht. unfold blockDim_x, blockDim_y, WARP_SIZE, BLOCKDIMY in Ht.
    apply stage_grad_oob. lia.
  - intros t s Ht.
    apply In_block_threads in Ht. unfold blockDim_x, blockDim_y, WARP_SIZE, BLOCKDIMY in Ht.
    apply elect_and_add_oob. lia.
Qed.

(** With at most [N_BATCH_SLOTS] indices the kernel has one batch, and the
    chunks of its inner loop lie inside it. *)
Lemma feature_kernel_oob st :
  n <= 1024 ->
  oob (embedding_backward_feature_kernel indices grad n stride padding_idx
         blockIdx_x st) = oob st.
Proof.
  intros Hn. unfold embedding_backward_feature_kernel.
  rewrite for_loop_fold. apply (fold_left_preserves oob).
  intros batch_start s Hb.
  assert (Hb0 : batch_start = 0).
  { apply loop_indices_spec in Hb;
      [|unfold blockDim_x, blockDim_y, WARP_SIZE, BLOCKDIMY; lia
       |unfold blockDim_x, blockDim_y, WARP_SIZE, BLOCKDIMY; lia].
    unfold blockDim_x, blockDim_y, WARP_SIZE, BLOCKDIMY in Hb.
    destruct Hb as [Hr Hm]. rewrite Z.sub_0_r in Hm.
    rewrite Z.mod_small in Hm by lia. exact Hm. }
  subst batch_start. rewrite for_loop_fold.
  rewrite (fold_left_preserves oob).
  - unfold run_phase. apply (fold_left_preserves oob).
    intros t s' _. apply load_batch_oob.
  - intros chunk_start s' Hc.
    apply loop_indices_spec in Hc;
      [|unfold blockDim_y, BLOCKDIMY; lia|unfold blockDim_y, BLOCKDIMY; lia].
    unfold blockDim_y, BLOCKDIMY in Hc.
    apply process_chunk_oob. Z.to_euclidean_division_equations. lia.
Qed.
End BatchBounds.

Lemma launch_feature_kernel_oob junk_s junk_i grid_x indices grad n stride padding_idx gw :
  n <= 1024 ->
  snd (launch_feature_kernel junk_s junk_i grid_x indices grad n stride padding_idx gw)
  = false.
Proof.
  intros Hn. unfold launch_feature_kernel.
  rewrite (fold_left_preserves (fun acc : gmem * bool => snd acc)); [reflexivity|].
  intros b acc _. cbn [snd]. now rewrite feature_kernel_oob.
Qed.

(** C10: in every launch of the small-batch kernel the host function makes,
    which has at most 768 indices, every read of indices_batch, by every
    thread of every block, is inside the 1024 slots of the buffer: the
    observer of an outside read is never raised, so the launch does not
    fault and the path returns its table. *)
Theorem batch_reads_in_bounds :
  forall junk_s junk_i grad (indices : Tensor Z) stride padding_idx
         scale_grad_by_freq gw,
    scalar_type indices = kLong ->
    takes_direct_path (tensor_numel indices) scale_grad_by_freq = true ->
    let launched :=
      launch_feature_kernel junk_s junk_i (THCCeilDiv stride WARP_SIZE)
        (data_ptr 0 (elements indices)) grad (to_int (tensor_numel indices))
        stride (to_int padding_idx) gw in
    to_int (tensor_numel indices) <= 768
    /\ snd launched = false
    /\ direct_path junk_s junk_i grad indices (tensor_numel indices) stride
         padding_idx gw = Ok (fst launched).
Proof.
  intros junk_s junk_i grad indices stride padding_idx scale gw Hty Hsel launched.
  apply takes_direct_path_true in Hsel. destruct Hsel as [Hn _].
  assert (Hfit : to_int (tensor_numel indices) = tensor_numel indices).
  { apply to_int_small. unfold tensor_numel in *. lia. }
  assert (Hoob : snd launched = false).
  { unfold launched. apply launch_feature_kernel_oob. rewrite Hfit. lia. }
  split; [rewrite Hfit; exact Hn|]. split; [exact Hoob|].
  unfold direct_path.
  fold launched. rewrite Hoob. reflexivity.
Qed.

Lemma batch_reads_in_bounds_witness :
  snd (launch_feature_kernel example_junk_s example_junk_i
         (THCCeilDiv 3 WARP_SIZE) (data_ptr 0 (elements example_indices))
         (data_ptr 0%Qc (elements example_grad))
         (to_int (tensor_numel example_indices)) 3 (to_int (-1)) zeros)
  = false.
Proof.
  assert (Hsel : takes_direct_path (tensor_numel example_indices) false = true)
    by reflexivity.
  exact (proj1 (proj2 (batch_reads_in_bounds example_junk_s example_junk_i
                         (data_ptr 0%Qc (elements example_grad)) example_indices
                         3 (-1) false zeros eq_refl Hsel))).
Defined.

(** ** Renormalisation *)

#[export] Instance acc_monoid : CMonoid (Some 0%R) acc_add.
Proof.
  split.
  - intros [x|] [y|]; cbn; try reflexivity. f_equal. apply Rplus_comm.
  - intros [x|] [y|] [z|]; cbn; try reflexivity. f_equal. symmetry. apply Rplus_assoc.
  - intros [x|]; cbn; [|reflexivity]. f_equal. apply Rplus_0_l.
Qed.

(** The sum of the accumulation type. *)
Definition acc_sum {X : Type} (h : X -> option R) (l : list X) : option R :=
  bigsum (Some 0%R) acc_add h l.

Section FoldSum.
Context {A : Type} {zero : A} {add : A -> A -> A} {M : CMonoid zero add}.

Lemma fold_left_sum {X} (h : X -> A) l init :
  fold_left (fun v x => add v (h x)) l init = add init (bigsum zero add h l).
Proof.
  revert init. induction l as [|x l IH]; intros init; cbn [fold_left bigsum].
  - symmetry. apply (cm_unit_r (zero := zero)).
  - rewrite IH. symmetry. apply cm_assoc.
Qed.
End FoldSum.

(** The elements the threads of a block of [threads] threads visit in a
    loop [for (i = tid; i < dim; i += threads)]: every element of the row,
    once. *)
Lemma loop_indices_lower fuel i stop step x :
  0 < step -> In x (loop_indices fuel i stop step) -> i <= x.
Proof.
  intros Hstep. revert i. induction fuel as [|k IH]; intros i; cbn [loop_indices];
    [intros []|].
  destruct (i <? stop); [|intros []].
  intros [<-|H]; [lia|]. apply IH in H. lia.
Qed.

Lemma NoDup_loop_indices fuel i stop step :
  0 < step -> NoDup (loop_indices fuel i stop step).
Proof.
  intros Hstep. revert i. induction fuel as [|k IH]; intros i; cbn [loop_indices];
    [constructor|].
  destruct (i <? stop); [|constructor].
  constructor; [|apply IH].
  intros H. apply loop_indices_lower in H; lia.
Qed.

Lemma NoDup_flat_map {X Y : Type} (g : X -> list Y) l :
  NoDup l ->
  (forall x, In x l -> NoDup (g x)) ->
  (forall x x' y, In x l -> In x' l -> In y (g x) -> In y (g x') -> x = x') ->
  NoDup (flat_map g l).
Proof.
  induction l as [|x l IH]; intros Hnd Hg Hdisj; cbn [flat_map]; [constructor|].
  inversion Hnd as [|? ? Hx Hl]; subst.
  apply NoDup_app.
  - apply Hg. now left.
  - apply IH; [assumption | |].
    + intros; apply Hg; now right.
    + intros x1 x2 y H1 H2. apply Hdisj; now right.
  - intros y Hy Hy'. apply in_flat_map in Hy'. destruct Hy' as (x' & Hx' & Hy').
    assert (x = x') by (apply (Hdisj x x' y); [now left | now right | assumption..]).
    subst. contradiction.
Qed.

Lemma strided_indices_perm dim :
  Permutation
    (flat_map (fun tid => loop_indices (Z.to_nat dim) tid dim RENORM_THREADS)
       (zrange RENORM_THREADS))
    (zrange dim).
Proof.
  assert (Hspec : forall tid x, 0 <= tid ->
            (In x (loop_indices (Z.to_nat dim) tid dim RENORM_THREADS)
             <-> tid <= x < dim /\ (x - tid) mod RENORM_THREADS = 0)).
  { intros tid x Ht. apply loop_indices_spec; unfold RENORM_THREADS; lia. }
  apply NoDup_Permutation.
  - apply NoDup_flat_map.
    + apply NoDup_zrange.
    + intros tid _. apply NoDup_loop_indices. unfold RENORM_THREADS. lia.
    + intros t t' y Ht Ht' Hy Hy'. apply In_zrange in Ht, Ht'.
      apply Hspec in Hy, Hy'; try lia. unfold RENORM_THREADS in *.
      Z.to_euclidean_division_equations. lia.
  - apply NoDup_zrange.
  - intros x. rewrite in_flat_map, In_zrange. split.
    + intros (tid & Ht & Hx). apply In_zrange in Ht. apply Hspec in Hx; lia.
    + intros Hx. exists (x mod RENORM_THREADS). unfold RENORM_THREADS in *.
      split; [apply In_zrange | apply Hspec];
        Z.to_euclidean_division_equations; lia.
Qed.

Lemma fold_left_map_sum {A X : Type} {zero : A} {add : A -> A -> A}
    {M : CMonoid zero add} (h : X -> A) l init :
  fold_left add (map h l) init = add init (bigsum zero add h l).
Proof.
  revert init. induction l as [|x l IH]; intros init; cbn [map fold_left bigsum].
  - symmetry. apply (cm_unit_r (zero := zero)).
  - rewrite IH. symmetry. apply cm_assoc.
Qed.

Lemma fold_left_flat_map {S X Y : Type} (step : S -> Y -> S) (g : X -> list Y) l s :
  fold_left (fun s x => fold_left step (g x) s) l s = fold_left step (flat_map g l) s.
Proof.
  revert s. induction l as [|x l IH]; intros s; cbn [fold_left flat_map]; [reflexivity|].
  now rewrite fold_left_app, IH.
Qed.

Lemma fold_left_ext_eq {S X : Type} (f g : S -> X -> S) l s :
  (forall s x, f s x = g s x) -> fold_left f l s = fold_left g l s.
Proof.
  intros H. revert s. induction l as [|x l IH]; intros s; cbn [fold_left];
    [reflexivity|].
  now rewrite H, IH.
Qed.

(** In-place scaling of the elements [base + i], [i] in [l], of an array. *)
Definition scale_elements (base : Z) (factor : R) (l : list Z) (w : Z -> R) : Z -> R :=
  fold_left (fun w i => upd w (base + i) (w (base + i)%Z * factor)%R) l w.

Lemma scale_elements_other base factor l w a :
  ~ In (a - base) l -> scale_elements base factor l w a = w a.
Proof.
  unfold scale_elements. revert w.
  induction l as [|i l IH]; intros w Hn; cbn [fold_left]; [reflexivity|].
  rewrite IH by (intro; apply Hn; now right).
  unfold upd. destruct (Z.eqb_spec a (base + i)) as [E|_]; [|reflexivity].
  exfalso. apply Hn. left. lia.
Qed.

Lemma scale_elements_at base factor l w a :
  NoDup l -> In (a - base) l ->
  scale_elements base factor l w a = (w a * factor)%R.
Proof.
  unfold scale_elements. revert w.
  induction l as [|i l IH]; intros w Hnd Hin; cbn [fold_left]; [destruct Hin|].
  inversion Hnd as [|? ? Hi Hl]; subst. destruct Hin as [E|Hin].
  - fold (scale_elements base factor l
            (upd w (base + i) (w (base + i)%Z * factor)%R)).
    rewrite scale_elements_other by (rewrite <- E; exact Hi).
    unfold upd. replace (base + i) with a by lia. now rewrite Z.eqb_refl.
  - rewrite IH by assumption. unfold upd.
    destruct (Z.eqb_spec a (base + i)) as [E|_]; [|reflexivity].
    exfalso. apply Hi. now replace i with (a - base) by lia.
Qed.

Section RenormRow.
Variables (indices : Z -> Z) (max_norm norm_type : R) (dim : Z).
Variable blockIdx_x : Z.

Local Abbreviation base := (base_index indices dim blockIdx_x).

(** The row the block works on: the elements [base, base + dim). *)
Definition in_row (a : Z) : bool := (0 <=? a - base) && (a - base <? dim).

(** The sum the block reduces, and the norm it derives from it. *)
Definition row_sum (w : Z -> R) : option R :=
  acc_sum (fun i => norm_term norm_type (w (base + i))) (zrange dim).

Lemma partial_norm_sum w tid :
  partial_norm indices norm_type dim blockIdx_x w tid
  = acc_sum (fun i => norm_term norm_type (w (base + i)))
      (loop_indices (Z.to_nat dim) tid dim RENORM_THREADS).
Proof.
  unfold partial_norm, acc_sum. rewrite for_loop_fold.
  rewrite (fold_left_sum (fun i => norm_term norm_type (w (base + i)))).
  apply cm_unit.
Qed.

Lemma row_norm_sum w :
  row_norm indices norm_type dim blockIdx_x w
  = match row_sum w with
    | Some v => std_pow v (1 / norm_type)
    | None => None
    end.
Proof.
  unfold row_norm, reduceBlock, row_sum.
  rewrite fold_left_map_sum, cm_unit.
  rewrite (bigsum_ext_in _ _ _ (fun tid _ => partial_norm_sum w tid)).
  unfold acc_sum.
  rewrite <- (bigsum_flat_map (fun i => norm_term norm_type (w (base + i)))).
  now rewrite (bigsum_perm _ _ _ (strided_indices_perm dim)).
Qed.

Lemma rescale_all factor w a :
  fold_left (fun w tid => rescale indices dim blockIdx_x factor tid w)
    (zrange RENORM_THREADS) w a
  = if in_row a then (w a * factor)%R else w a.
Proof.
  unfold rescale.
  rewrite (fold_left_ext_eq _
             (fun w tid =>
                fold_left (fun w i => upd w (base + i) (w (base + i)%Z * factor)%R)
                  (loop_indices (Z.to_nat dim) tid dim RENORM_THREADS) w))
    by (intros; apply for_loop_fold).
  rewrite fold_left_flat_map.
  fold (scale_elements base factor
          (flat_map (fun tid => loop_indices (Z.to_nat dim) tid dim RENORM_THREADS)
             (zrange RENORM_THREADS)) w).
  pose proof (strided_indices_perm dim) as Hperm.
  unfold in_row.
  destruct (Z.leb_spec 0 (a - base)) as [H0|H0];
    [destruct (Z.ltb_spec (a - base) dim) as [H1|H1]|]; cbn [andb].
  - apply scale_elements_at.
    + apply (Permutation_NoDup (Permutation_sym Hperm)), NoDup_zrange.
    + apply (Permutation_in _ (Permutation_sym Hperm)), In_zrange. lia.
  - apply scale_elements_other. intros Hin.
    apply (Permutation_in _ Hperm), In_zrange in Hin. lia.
  - apply scale_elements_other. intros Hin.
    apply (Permutation_in _ Hperm), In_zrange in Hin. lia.
Qed.
End RenormRow.

(** *** [std::pow] and the terms of the norm *)

Lemma std_pow_pos x y : (0 < x)%R -> y <> 0%R -> std_pow x y = Some (Rpower x y).
Proof.
  intros Hx Hy. unfold std_pow.
  destruct (Req_dec_T y 0) as [E|_]; [contradiction|].
  destruct (Rlt_dec 0 x) as [_|N]; [reflexivity|contradiction].
Qed.

Lemma std_pow_zero y : (0 < y)%R -> std_pow 0 y = Some 0%R.
Proof.
  intros Hy. unfold std_pow.
  destruct (Req_dec_T y 0) as [E|_]; [lra|].
  destruct (Rlt_dec 0 0) as [F|_]; [lra|].
  destruct (Req_dec_T 0 0) as [_|N]; [|contradiction].
  destruct (Rlt_dec 0 y) as [_|N]; [reflexivity|contradiction].
Qed.

Lemma Int_part_IZR k : Int_part (IZR k) = k.
Proof. symmetry. apply Int_part_spec. lra. Qed.

Lemma std_pow_neg_whole x k :
  (x < 0)%R -> k <> 0 -> std_pow x (IZR k) = Some (powerRZ x k).
Proof.
  intros Hx Hk. unfold std_pow. rewrite Int_part_IZR.
  destruct (Req_dec_T (IZR k) 0) as [E|_]; [apply eq_IZR in E; contradiction|].
  destruct (Rlt_dec 0 x) as [F|_]; [lra|].
  destruct (Req_dec_T x 0) as [F|_]; [lra|].
  destruct (Req_dec_T (IZR k) (IZR k)) as [_|N]; [reflexivity|contradiction].
Qed.

Lemma norm_term_one x : norm_term 1 x = Some (Rabs x).
Proof. unfold norm_term. destruct (Req_dec_T 1 1); [reflexivity|contradiction]. Qed.

Lemma norm_term_two x : norm_term 2 x = Some (x * x)%R.
Proof.
  unfold norm_term.
  destruct (Req_dec_T 2 1) as [E|_]; [lra|].
  destruct (Req_dec_T 2 2); [reflexivity|contradiction].
Qed.

Lemma norm_term_other p x : p <> 1%R -> p <> 2%R -> norm_term p x = std_pow x p.
Proof.
  intros H1 H2. unfold norm_term.
  destruct (Req_dec_T p 1); [contradiction|].
  destruct (Req_dec_T p 2); [contradiction|reflexivity].
Qed.

(** C6: outside the orders 1 and 2 the code adds std::pow(x, norm_type),
    the power of x itself and not of its absolute value, to the sum: at
    order 3 the element -2 adds -8, where the term of the 3-norm is
    |-2|^3 = 8; the orders 1 and 2 add |x| and x * x. *)
Theorem norm_term_signed_power :
  norm_term 3 (-2) = Some (-8)%R
  /\ (Rabs (-2) ^ 3 = 8)%R
  /\ norm_term 1 (-2) = Some 2%R
  /\ norm_term 2 (-2) = Some 4%R.
Proof.
  split; [|split; [|split]].
  - rewrite norm_term_other by lra.
    rewrite (std_pow_neg_whole (-2) 3) by (lra || lia).
    f_equal. unfold powerRZ. simpl. lra.
  - rewrite Rabs_left by lra. lra.
  - rewrite norm_term_one. f_equal. rewrite Rabs_left by lra. lra.
  - rewrite norm_term_two. f_equal. lra.
Qed.

(** *** One block and the host function *)

Lemma renorm_kernel_at indices max_norm norm_type dim b w a :
  renorm_kernel indices max_norm norm_type dim b w a
  = match row_norm indices norm_type dim b w with
    | Some norm =>
        if Rlt_dec max_norm norm
        then if in_row indices dim b a
             then (w a * (max_norm / (norm + 1e-7)))%R
             else w a
        else w a
    | None => w a
    end.
Proof.
  unfold renorm_kernel.
  destruct (row_norm indices norm_type dim b w) as [norm|]; [|reflexivity].
  destruct (Rlt_dec max_norm norm); [|reflexivity].
  apply rescale_all.
Qed.

(** Once its four checks pass, the host function launches the kernel and
    returns [self] with the elements the kernel left. *)
Lemma renorm_dispatch (self : Tensor R) (indices : Tensor Z) max_norm norm_type :
  is_contiguous self = true ->
  is_contiguous indices = true ->
  tensor_dim self = 2 ->
  get_device self = get_device indices ->
  embedding_renorm_cuda_ self indices max_norm norm_type
  = Ok {| scalar_type := scalar_type self;
          is_contiguous := is_contiguous self;
          get_device := get_device self;
          sizes := sizes self;
          elements :=
            map (launch_renorm_kernel
                   (to_int (Z.of_nat (List.length (unique_copy (elements indices)))))
                   (data_ptr 0 (unique_copy (elements indices)))
                   max_norm norm_type (to_int (size_last self))
                   (data_ptr 0%R (elements self)))
                (zrange (tensor_numel self)) |}.
Proof.
  intros Hs Hi Hd Hg. unfold embedding_renorm_cuda_.
  unfold checkContiguous, checkDim, checkSameGPU, THCudaCheck.
  rewrite Hi, Hd, Hg, !Z.eqb_refl. rewrite Hs at 1. reflexivity.
Qed.

(** A table of one row. *)
Definition renorm_table (x y : R) : Tensor R :=
  {| scalar_type := kFloat; is_contiguous := true; get_device := 0;
     sizes := [1; 2]; elements := [x; y] |}.

(** An index list of 32-bit integers; its [elements] are the 64-bit words
    that [indices.data<int64_t>()] points to. *)
Definition int_indices : Tensor Z :=
  {| scalar_type := kInt; is_contiguous := true; get_device := 0;
     sizes := [1]; elements := [0] |}.

Definition long_indices : Tensor Z :=
  {| scalar_type := kLong; is_contiguous := true; get_device := 0;
     sizes := [1]; elements := [0] |}.

(** The host function on a table of one row, addressed once. *)
Lemma renorm_one_row (indices : Tensor Z) x y max_norm norm_type :
  is_contiguous indices = true -> get_device indices = 0 ->
  elements indices = [0] ->
  embedding_renorm_cuda_ (renorm_table x y) indices max_norm norm_type
  = Ok {| scalar_type := kFloat; is_contiguous := true; get_device := 0;
          sizes := [1; 2];
          elements :=
            [renorm_kernel (data_ptr 0 [0]) max_norm norm_type 2 0
               (data_ptr 0%R [x; y]) 0;
             renorm_kernel (data_ptr 0 [0]) max_norm norm_type 2 0
               (data_ptr 0%R [x; y]) 1] |}.
Proof.
  intros Hc Hg He.
  rewrite renorm_dispatch by (assumption || reflexivity || (symmetry; assumption)).
  rewrite He. reflexivity.
Qed.

Lemma one_row_sum x y norm_type :
  row_sum (data_ptr 0 [0]) norm_type 2 0 (data_ptr 0%R [x; y])
  = acc_add (norm_term norm_type x) (acc_add (norm_term norm_type y) (Some 0%R)).
Proof. reflexivity. Qed.

Lemma in_first_row_0 : in_row (data_ptr 0 [0]) 2 0 0 = true.
Proof. reflexivity. Qed.

Lemma in_first_row_1 : in_row (data_ptr 0 [0]) 2 0 1 = true.
Proof. reflexivity. Qed.

Lemma Rpower_gt_1 x y : (1 < x)%R -> (0 < y)%R -> (1 < Rpower x y)%R.
Proof.
  intros Hx Hy. rewrite <- (Rpower_O x) by lra. now apply Rpower_lt.
Qed.

Lemma Rpower_base_1 y : Rpower 1 y = 1%R.
Proof. unfold Rpower. now rewrite ln_1, Rmult_0_r, exp_0. Qed.

(** C5: the norm the kernel compares with max_norm is not the p-norm when
    the order is neither 1 nor 2 and the row has a negative element.  At
    order 3 the row [1, -1] has the sum 1 + (-1) = 0, so the kernel leaves
    it as it is, although its 3-norm, the cube root of 2, exceeds
    max_norm = 1. *)
Theorem renorm_misses_signed_row :
  embedding_renorm_cuda_ (renorm_table 1 (-1)) long_indices 1 3
  = Ok (renorm_table 1 (-1))
  /\ row_norm (data_ptr 0 [0]) 3 2 0 (data_ptr 0%R [1; -1]%R) = Some 0%R
  /\ (1 < Rpower (Rabs 1 ^ 3 + Rabs (-1) ^ 3) (1 / 3))%R.
Proof.
  assert (Hnorm : row_norm (data_ptr 0 [0]) 3 2 0 (data_ptr 0%R [1; -1]%R) = Some 0%R).
  { rewrite row_norm_sum, one_row_sum, !norm_term_other by lra.
    rewrite std_pow_pos by lra. rewrite Rpower_base_1.
    rewrite (std_pow_neg_whole (-1) 3) by (lra || lia).
    cbn [acc_add]. unfold powerRZ. simpl pow.
    replace (1 + (-1 * (-1 * (-1 * 1)) + 0))%R with 0%R by lra.
    apply std_pow_zero. lra. }
  split; [|split; [exact Hnorm|]].
  - rewrite renorm_one_row by reflexivity. unfold renorm_table.
    rewrite !renorm_kernel_at, Hnorm.
    destruct (Rlt_dec 1 0) as [F|_]; [lra|]. reflexivity.
  - apply Rpower_gt_1; [|lra].
    rewrite Rabs_right by lra. rewrite Rabs_left by lra. lra.
Qed.

(** *** Scaling a row scales its norm *)

Definition acc_scale (c : R) (v : option R) : option R :=
  option_map (Rmult c) v.

Lemma Rpower_pos x y : (0 < Rpower x y)%R.
Proof. unfold Rpower. apply exp_pos. Qed.

Lemma std_pow_scale x g y :
  (0 < g)%R -> y <> 0%R ->
  std_pow (x * g) y = acc_scale (Rpower g y) (std_pow x y).
Proof.
  intros Hg Hy. unfold std_pow.
  destruct (Req_dec_T y 0) as [E|_]; [contradiction|].
  destruct (Rlt_dec 0 x) as [Hx|Hx].
  - destruct (Rlt_dec 0 (x * g)) as [_|N];
      [|exfalso; apply N; now apply Rmult_lt_0_compat].
    cbn. f_equal. rewrite <- Rpower_mult_distr by assumption. apply Rmult_comm.
  - destruct (Rlt_dec 0 (x * g)) as [F|_]; [exfalso; nra|].
    destruct (Req_dec_T x 0) as [E|Hx0].
    + subst x. destruct (Req_dec_T (0 * g) 0) as [_|N]; [|exfalso; lra].
      destruct (Rlt_dec 0 y); [|reflexivity]. cbn. f_equal. lra.
    + destruct (Req_dec_T (x * g) 0) as [E|_]; [exfalso; nra|].
      destruct (Req_dec_T y (IZR (Int_part y))) as [E|_]; [|reflexivity].
      cbn. f_equal. rewrite powerRZ_mult, (powerRZ_Rpower g) by assumption.
      rewrite <- E. apply Rmult_comm.
Qed.

Lemma norm_term_scale p x f :
  (0 < f)%R -> p <> 0%R ->
  norm_term p (x * f) = acc_scale (Rpower f p) (norm_term p x).
Proof.
  intros Hf Hp. unfold norm_term.
  destruct (Req_dec_T p 1) as [->|_].
  - cbn. f_equal. rewrite Rpower_1 by assumption.
    rewrite Rabs_mult, (Rabs_pos_eq f) by lra. apply Rmult_comm.
  - destruct (Req_dec_T p 2) as [->|_]; [|now apply std_pow_scale].
    cbn. f_equal. replace 2%R with (1 + 1)%R by lra.
    rewrite Rpower_plus, Rpower_1 by assumption. ring.
Qed.

Lemma acc_sum_scale {X : Type} c (h : X -> option R) l :
  acc_sum (fun x => acc_scale c (h x)) l = acc_scale c (acc_sum h l).
Proof.
  unfold acc_sum. induction l as [|x l IH]; cbn [bigsum].
  - cbn. f_equal. ring.
  - rewrite IH. destruct (h x), (bigsum (Some 0%R) acc_add h l); cbn;
      try reflexivity. f_equal. ring.
Qed.

Lemma acc_sum_ext_in {X : Type} (h g : X -> option R) l :
  (forall x, In x l -> h x = g x) -> acc_sum h l = acc_sum g l.
Proof. apply bigsum_ext_in. Qed.

Lemma norm_term_zero p : (0 < p)%R -> norm_term p 0 = Some 0%R.
Proof.
  intros Hp. unfold norm_term.
  destruct (Req_dec_T p 1); [now rewrite Rabs_R0|].
  destruct (Req_dec_T p 2); [f_equal; ring|]. now apply std_pow_zero.
Qed.

Section RowScaling.
Variables (indices : Z -> Z) (norm_type : R) (dim : Z) (b : Z).
Hypothesis norm_type_pos : (0 < norm_type)%R.

Lemma in_row_offset i :
  In i (zrange dim) -> in_row indices dim b (base_index indices dim b + i) = true.
Proof.
  intros Hi. apply In_zrange in Hi. unfold in_row.
  apply andb_true_intro. split; [apply Z.leb_le | apply Z.ltb_lt]; lia.
Qed.

(** The norm reads the row only. *)
Lemma row_norm_ext w1 w2 :
  (forall a, in_row indices dim b a = true -> w1 a = w2 a) ->
  row_norm indices norm_type dim b w1 = row_norm indices norm_type dim b w2.
Proof.
  intros H. rewrite !row_norm_sum. unfold row_sum, acc_sum.
  rewrite (bigsum_ext_in _ (fun i => norm_term norm_type
                                       (w2 (base_index indices dim b + i)))).
  - reflexivity.
  - intros i Hi. now rewrite (H _ (in_row_offset i Hi)).
Qed.

Lemma row_norm_scaled w1 w2 f :
  (0 < f)%R ->
  (forall a, in_row indices dim b a = true -> w2 a = (w1 a * f)%R) ->
  row_norm indices norm_type dim b w2
  = acc_scale f (row_norm indices norm_type dim b w1).
Proof.
  intros Hf H. rewrite !row_norm_sum. unfold row_sum.
  rewrite (acc_sum_ext_in
             (fun i => norm_term norm_type (w2 (base_index indices dim b + i)))
             (fun i => acc_scale (Rpower f norm_type)
                         (norm_term norm_type (w1 (base_index indices dim b + i))))).
  - rewrite acc_sum_scale.
    destruct (acc_sum _ (zrange dim)) as [v|]; [|reflexivity]. cbn [acc_scale option_map].
    rewrite Rmult_comm, std_pow_scale.
    + f_equal. rewrite Rpower_mult.
      replace (norm_type * (1 / norm_type))%R with 1%R by (field; lra).
      now apply Rpower_1.
    + apply Rpower_pos.
    + unfold Rdiv. rewrite Rmult_1_l. apply Rinv_neq_0_compat. lra.
  - intros i Hi. rewrite (H _ (in_row_offset i Hi)).
    apply norm_term_scale; lra.
Qed.

Lemma row_norm_zeroed w :
  (forall a, in_row indices dim b a = true -> w a = 0%R) ->
  row_norm indices norm_type dim b w = Some 0%R.
Proof.
  intros H. rewrite row_norm_sum. unfold row_sum, acc_sum.
  rewrite bigsum_zero.
  - apply std_pow_zero. unfold Rdiv. rewrite Rmult_1_l. now apply Rinv_0_lt_compat.
  - intros i Hi. rewrite (H _ (in_row_offset i Hi)). now apply norm_term_zero.
Qed.
End RowScaling.

(** *** A second pass changes nothing *)

Section RenormTwice.
Variables (indices : Z -> Z) (max_norm norm_type : R) (dim rows : Z).
Hypothesis max_norm_nonneg : (0 <= max_norm)%R.
Hypothesis norm_type_pos : (0 < norm_type)%R.
Hypothesis dim_nonneg : 0 <= dim.
Hypothesis table_fits : rows * dim < 2 ^ 31.

Local Abbreviation kernel := (renorm_kernel indices max_norm norm_type dim).

(** The block's row needs no rescaling: its norm, as the kernel computes
    it, does not exceed [max_norm]. *)
Definition settled (b : Z) (w : Z -> R) : Prop :=
  match row_norm indices norm_type dim b w with
  | Some norm => ~ (max_norm < norm)%R
  | None => True
  end.

(** The block addresses a row of the table. *)
Definition valid_block (b : Z) : Prop := 0 <= indices b < rows.

Lemma kernel_settled b w : settled b w -> kernel b w = w.
Proof.
  unfold settled, renorm_kernel.
  destruct (row_norm indices norm_type dim b w) as [norm|]; [|reflexivity].
  intros H. destruct (Rlt_dec max_norm norm); [contradiction|reflexivity].
Qed.

Lemma kernel_settles b w : settled b (kernel b w).
Proof.
  destruct (row_norm indices norm_type dim b w) as [norm|] eqn:E.
  - destruct (Rlt_dec max_norm norm) as [Hlt|Hge].
    + set (factor := (max_norm / (norm + 1e-7))%R).
      assert (Hrow : forall a, in_row indices dim b a = true ->
                kernel b w a = (w a * factor)%R).
      { intros a Ha. rewrite renorm_kernel_at, E.
        destruct (Rlt_dec max_norm norm); [|contradiction]. rewrite Ha. reflexivity. }
      assert (Hinv : (0 < / (norm + 1e-7))%R) by (apply Rinv_0_lt_compat; lra).
      unfold settled.
      destruct (Req_dec_T max_norm 0) as [Hz|Hnz].
      * rewrite (row_norm_zeroed indices norm_type dim b norm_type_pos).
        -- lra.
        -- intros a Ha. rewrite (Hrow a Ha). unfold factor, Rdiv. rewrite Hz. ring.
      * assert (Hf : (0 < factor)%R)
          by (unfold factor, Rdiv; apply Rmult_lt_0_compat; lra).
        rewrite (row_norm_scaled indices norm_type dim b norm_type_pos w
                   (kernel b w) factor Hf Hrow), E.
        cbn [acc_scale option_map]. unfold factor.
        assert (Hle : (max_norm / (norm + 1e-7) * norm <= max_norm)%R).
        { unfold Rdiv. rewrite Rmult_assoc.
          rewrite <- (Rmult_1_r max_norm) at 2.
          apply Rmult_le_compat_l; [lra|].
          apply (Rmult_le_reg_l (norm + 1e-7)); [lra|].
          rewrite <- Rmult_assoc, Rinv_r by lra. lra. }
        lra.
    + unfold settled. assert (Hk : kernel b w = w).
      { apply kernel_settled. unfold settled. rewrite E. exact Hge. }
      rewrite Hk, E. exact Hge.
  - unfold settled. assert (Hk : kernel b w = w).
    { apply kernel_settled. unfold settled. rewrite E. exact I. }
    rewrite Hk, E. exact I.
Qed.

Lemma base_index_valid b :
  valid_block b -> base_index indices dim b = indices b * dim.
Proof. intros Hb. unfold base_index. apply to_int_small. unfold valid_block in Hb. nia. Qed.

(** Two blocks address the same row, or rows without a common element. *)
Lemma rows_same_or_apart b b' :
  valid_block b -> valid_block b' ->
  base_index indices dim b = base_index indices dim b'
  \/ forall a, in_row indices dim b a = true -> in_row indices dim b' a = false.
Proof.
  intros Hb Hb'. destruct (Z.eq_dec (indices b) (indices b')) as [E|NE].
  - left. rewrite !base_index_valid by assumption. rewrite E. reflexivity.
  - right. intros a Ha. unfold in_row in *.
    rewrite base_index_valid in * by assumption.
    apply andb_true_iff in Ha. destruct Ha as [H0 H1].
    apply Z.leb_le in H0. apply Z.ltb_lt in H1.
    apply andb_false_iff.
    destruct (Z.leb_spec 0 (a - indices b' * dim)); [right|left; reflexivity].
    apply Z.ltb_ge. nia.
Qed.

Lemma settled_same_row b b' w :
  base_index indices dim b = base_index indices dim b' ->
  settled b' w -> settled b w.
Proof.
  intros E. unfold settled. rewrite !row_norm_sum. unfold row_sum. rewrite E.
  exact (fun H => H).
Qed.

Lemma kernel_keeps_settled b b' w :
  valid_block b -> valid_block b' -> settled b w -> settled b (kernel b' w).
Proof.
  intros Hb Hb' Hs. destruct (rows_same_or_apart b b' Hb Hb') as [E|Hapart].
  - apply (settled_same_row b b' _ E). apply kernel_settles.
  - unfold settled.
    rewrite (row_norm_ext indices norm_type dim b (kernel b' w) w); [exact Hs|].
    intros a Ha. rewrite renorm_kernel_at, (Hapart a Ha).
    destruct (row_norm indices norm_type dim b' w) as [norm|]; [|reflexivity].
    destruct (Rlt_dec max_norm norm); reflexivity.
Qed.

Lemma launch_keeps_settled b l w :
  valid_block b -> Forall valid_block l -> settled b w ->
  settled b (fold_left (fun w b => kernel b w) l w).
Proof.
  intros Hb Hl. revert w. induction Hl as [|x l Hx Hl IH]; intros w Hs; cbn [fold_left].
  - exact Hs.
  - apply IH. apply kernel_keeps_settled; assumption.
Qed.

Lemma launch_settles l w :
  Forall valid_block l ->
  Forall (fun b => settled b (fold_left (fun w b => kernel b w) l w)) l.
Proof.
  intros Hl. revert w. induction Hl as [|x l Hx Hl IH]; intros w; cbn [fold_left].
  - constructor.
  - constructor; [|apply IH].
    apply launch_keeps_settled; [assumption..|]. apply kernel_settles.
Qed.

Lemma launch_settled l w :
  Forall (fun b => settled b w) l ->
  fold_left (fun w b => kernel b w) l w = w.
Proof.
  induction 1 as [|x l Hx Hl IH]; cbn [fold_left]; [reflexivity|].
  rewrite (kernel_settled x w Hx). exact IH.
Qed.
End RenormTwice.

(** *** The host function, twice *)

Lemma In_unique_copy v l : In v (unique_copy l) -> In v l.
Proof.
  induction l as [|x l IH]; [intros []|].
  cbn [unique_copy]. destruct l as [|y l]; [exact (fun H => H)|].
  destruct (x =? y).
  - intros H. right. apply IH, H.
  - intros [<-|H]; [left; reflexivity | right; apply IH, H].
Qed.

Lemma length_unique_copy l : (List.length (unique_copy l) <= List.length l)%nat.
Proof.
  induction l as [|x l IH]; [apply Nat.le_refl|].
  cbn [unique_copy]. destruct l as [|y l]; [apply Nat.le_refl|].
  destruct (x =? y); cbn [List.length] in *; lia.
Qed.

Lemma data_ptr_map_zrange (w : Z -> R) n a :
  0 <= a < n -> data_ptr 0%R (map w (zrange n)) a = w a.
Proof.
  intros Ha. rewrite data_ptr_nth by lia.
  rewrite (nth_indep _ 0%R (w 0)) by (rewrite length_map, length_zrange; lia).
  rewrite (map_nth w (zrange n) 0). unfold zrange. rewrite nth_zseq by lia.
  f_equal. lia.
Qed.

(** The arguments the renormalisation accepts: a contiguous table of
    [rows] rows of [dim] elements, and a contiguous index list on the same
    GPU that addresses rows of the table; the sizes the kernel keeps in
    [int] fit. *)
Record renorm_input_ok (self : Tensor R) (indices : Tensor Z) (rows dim : Z) : Prop :=
  { rok_self_contiguous : is_contiguous self = true;
    rok_indices_contiguous : is_contiguous indices = true;
    rok_sizes : sizes self = [rows; dim];
    rok_same_gpu : get_device self = get_device indices;
    rok_scalar_type : scalar_type indices = kLong;
    rok_numel : tensor_numel self = rows * dim;
    rok_dim : 0 <= dim < 2 ^ 31;
    rok_table : rows * dim < 2 ^ 31;
    rok_rows : forall v, In v (elements indices) -> 0 <= v < rows;
    rok_count : Z.of_nat (List.length (elements indices)) < 2 ^ 31 }.

Lemma renorm_blocks_valid (self : Tensor R) (indices : Tensor Z) rows dim :
  renorm_input_ok self indices rows dim ->
  Forall (valid_block (data_ptr 0 (unique_copy (elements indices))) rows)
    (zrange (to_int (Z.of_nat (List.length (unique_copy (elements indices)))))).
Proof.
  intros Hok. pose proof (length_unique_copy (elements indices)) as Hlen.
  pose proof (rok_count _ _ _ _ Hok) as Hcount.
  rewrite to_int_small by lia.
  apply Forall_forall. intros b Hb. apply In_zrange in Hb.
  unfold valid_block. apply (rok_rows _ _ _ _ Hok).
  apply In_unique_copy. apply data_ptr_In. exact Hb.
Qed.

Lemma settled_ext indices max_norm norm_type dim b w1 w2 :
  (forall a, in_row indices dim b a = true -> w1 a = w2 a) ->
  settled indices max_norm norm_type dim b w1 ->
  settled indices max_norm norm_type dim b w2.
Proof.
  intros H. unfold settled.
  rewrite (row_norm_ext indices norm_type dim b w1 w2 H). exact (fun Hs => Hs).
Qed.

Lemma in_row_in_table indices dim rows b a :
  0 <= dim -> rows * dim < 2 ^ 31 ->
  valid_block indices rows b ->
  in_row indices dim b a = true -> 0 <= a < rows * dim.
Proof.
  intros Hd Ht Hb Ha. unfold in_row in Ha.
  rewrite (base_index_valid indices dim rows Hd Ht b Hb) in Ha.
  apply andb_true_iff in Ha. destruct Ha as [H0 H1].
  apply Z.leb_le in H0. apply Z.ltb_lt in H1. unfold valid_block in Hb. nia.
Qed.

(** The launch leaves every addressed row within the bound, as the kernel
    measures it, and a second launch on the stored table changes nothing. *)
Lemma launch_twice (self : Tensor R) (indices : Tensor Z) rows dim max_norm norm_type :
  renorm_input_ok self indices rows dim ->
  (0 <= max_norm)%R -> (0 < norm_type)%R ->
  let unique_indices := data_ptr 0 (unique_copy (elements indices)) in
  let grid := to_int (Z.of_nat (List.length (unique_copy (elements indices)))) in
  let once :=
    launch_renorm_kernel grid unique_indices max_norm norm_type dim
      (data_ptr 0%R (elements self)) in
  let stored := data_ptr 0%R (map once (zrange (rows * dim))) in
  launch_renorm_kernel grid unique_indices max_norm norm_type dim stored = stored.
Proof.
  intros Hok Hmax Hp unique_indices grid once stored.
  pose proof (renorm_blocks_valid self indices rows dim Hok) as Hvalid.
  fold unique_indices grid in Hvalid.
  pose proof (rok_dim _ _ _ _ Hok) as Hdim.
  pose proof (rok_table _ _ _ _ Hok) as Htable.
  unfold launch_renorm_kernel. apply launch_settled.
  pose proof (launch_settles unique_indices max_norm norm_type dim rows Hmax Hp
                (proj1 Hdim) Htable (zrange grid) (data_ptr 0%R (elements self))
                Hvalid) as Hsettled.
  fold (launch_renorm_kernel grid unique_indices max_norm norm_type dim
          (data_ptr 0%R (elements self))) in Hsettled.
  fold once in Hsettled.
  rewrite Forall_forall in Hsettled, Hvalid. apply Forall_forall. intros b Hb.
  apply (settled_ext unique_indices max_norm norm_type dim b once stored);
    [|apply Hsettled, Hb].
  intros a Ha. unfold stored. symmetry. apply data_ptr_map_zrange.
  apply (in_row_in_table unique_indices dim rows b a (proj1 Hdim) Htable
           (Hvalid b Hb) Ha).
Qed.

(** Over the reals, where no product is rounded: for every table, every
    index list that addresses rows of it, every max_norm >= 0 and every
    order p > 0, the renormalisation applied again to its result with the
    same arguments returns that result unchanged. *)
Lemma renorm_twice_is_once :
  forall (self : Tensor R) (indices : Tensor Z) rows dim max_norm norm_type,
    renorm_input_ok self indices rows dim ->
    (0 <= max_norm)%R -> (0 < norm_type)%R ->
    exists once,
      embedding_renorm_cuda_ self indices max_norm norm_type = Ok once
      /\ embedding_renorm_cuda_ once indices max_norm norm_type = Ok once.
Proof.
  intros self indices rows dim max_norm norm_type Hok Hmax Hp.
  pose proof (launch_twice self indices rows dim max_norm norm_type Hok Hmax Hp)
    as Htwice. cbv zeta in Htwice.
  pose proof (rok_dim _ _ _ _ Hok) as Hdim.
  assert (Hlast : to_int (size_last self) = dim).
  { unfold size_last. rewrite (rok_sizes _ _ _ _ Hok). cbn [last].
    apply to_int_small. lia. }
  assert (Hrank : tensor_dim self = 2)
    by (unfold tensor_dim; now rewrite (rok_sizes _ _ _ _ Hok)).
  rewrite (renorm_dispatch self indices max_norm norm_type
             (rok_self_contiguous _ _ _ _ Hok) (rok_indices_contiguous _ _ _ _ Hok)
             Hrank (rok_same_gpu _ _ _ _ Hok)).
  rewrite Hlast, (rok_numel _ _ _ _ Hok).
  eexists. split; [reflexivity|].
  rewrite renorm_dispatch;
    [ | exact (rok_self_contiguous _ _ _ _ Hok)
      | exact (rok_indices_contiguous _ _ _ _ Hok)
      | exact Hrank
      | exact (rok_same_gpu _ _ _ _ Hok) ].
  cbn [scalar_type is_contiguous get_device sizes elements].
  change (size_last _) with (size_last self). rewrite Hlast.
  assert (Hnumel : forall l : list R,
            List.length l = Z.to_nat (rows * dim) ->
            tensor_numel
              {| scalar_type := scalar_type self; is_contiguous := is_contiguous self;
                 get_device := get_device self; sizes := sizes self; elements := l |}
            = rows * dim).
  { intros l Hl. unfold tensor_numel. cbn [elements]. rewrite Hl.
    pose proof (rok_numel _ _ _ _ Hok) as Hn. unfold tensor_numel in Hn. lia. }
  rewrite Hnumel by (rewrite length_map; apply length_zrange).
  rewrite Htwice.
  f_equal. f_equal. apply map_ext_in. intros a Ha. apply In_zrange in Ha.
  now apply data_ptr_map_zrange.
Qed.

Lemma renorm_twice_is_once_witness :
  exists once,
    embedding_renorm_cuda_ (renorm_table 3 4) long_indices 1 2 = Ok once
    /\ embedding_renorm_cuda_ once long_indices 1 2 = Ok once.
Proof.
  assert (Hok : renorm_input_ok (renorm_table 3 4) long_indices 1 2).
  { constructor; try reflexivity; try lia.
    intros v Hv. cbn in Hv. intuition lia. }
  assert (Hmax : (0 <= 1)%R) by lra.
  assert (Hp : (0 < 2)%R) by lra.
  exact (renorm_twice_is_once (renorm_table 3 4) long_indices 1 2 1 2 Hok Hmax Hp).
Defined.

(** At order 1 the kernel rescales a row of two elements whose sum of
    absolute values is positive and over the bound. *)
Lemma renorm_order_1 x y max_norm :
  let norm := (Rabs x + (Rabs y + 0))%R in
  (0 < norm)%R -> (max_norm < norm)%R ->
  embedding_renorm_cuda_ (renorm_table x y) long_indices max_norm 1
  = Ok (renorm_table (x * (max_norm / (norm + 1e-7)))
                     (y * (max_norm / (norm + 1e-7)))).
Proof.
  intros norm Hpos Hover.
  assert (Hnorm : row_norm (data_ptr 0 [0]) 1 2 0 (data_ptr 0%R [x; y]) = Some norm).
  { rewrite row_norm_sum, one_row_sum, !norm_term_one. cbn [acc_add].
    fold norm. rewrite std_pow_pos by lra. f_equal.
    replace (1 / 1)%R with 1%R by lra. now apply Rpower_1. }
  rewrite renorm_one_row by reflexivity. unfold renorm_table.
  rewrite !renorm_kernel_at, Hnorm, in_first_row_0, in_first_row_1.
  destruct (Rlt_dec max_norm norm); [reflexivity|contradiction].
Qed.


(** ** The reference scenarios, computed *)

(** The rows of the table a call returned, as fractions. *)
Definition table_rows (outcome : result gmem) (rows stride : Z) : list (list Q) :=
  match outcome with
  | Ok gw =>
      map (fun r => map (fun f => this (cells gw (r * stride + f))) (zrange stride))
          (zrange rows)
  | Error _ => []
  end.

Definition repeated_indices : Tensor Z :=
  {| scalar_type := kLong; is_contiguous := true; get_device := 0;
     sizes := [3]; elements := [3; 3; 3] |}.

Definition unit_grad : Tensor Qc :=
  {| scalar_type := kFloat; is_contiguous := true; get_device := 0;
     sizes := [3; 3]; elements := repeat (Zq 1) 9 |}.

(** Rows 0 (twice) and 2 are looked up: both paths return rows 0 and 2
    summed and the other rows zero; with row 0 as the padding row it stays
    zero; with scaling, three lookups of row 3 add a third each. *)
Theorem backward_scenarios :
  table_rows (embedding_backward_cuda insertion_sort_by_key example_junk_s
                example_junk_i example_grad example_indices 5 (-1) false) 5 3
  = [[2; 2; 2]; [0; 0; 0]; [2; 2; 2]; [0; 0; 0]; [0; 0; 0]]%Q
  /\ table_rows (sorted_path insertion_sort_by_key
                   (data_ptr 0%Qc (elements example_grad)) example_indices
                   3 3 (-1) false zeros) 5 3
     = [[2; 2; 2]; [0; 0; 0]; [2; 2; 2]; [0; 0; 0]; [0; 0; 0]]%Q
  /\ table_rows (embedding_backward_cuda insertion_sort_by_key example_junk_s
                   example_junk_i example_grad example_indices 5 0 false) 5 3
     = [[0; 0; 0]; [0; 0; 0]; [2; 2; 2]; [0; 0; 0]; [0; 0; 0]]%Q
  /\ table_rows (embedding_backward_cuda insertion_sort_by_key example_junk_s
                   example_junk_i unit_grad repeated_indices 5 (-1) true) 5 3
     = [[0; 0; 0]; [0; 0; 0]; [0; 0; 0]; [1; 1; 1]; [0; 0; 0]]%Q.
Proof. repeat split; vm_compute; reflexivity. Qed.

(** The example in the comments of the host function (lines 282-296): the
    forward scan numbers the members of each run, the reverse scan spreads
    the length of the run. *)
Theorem frequency_counts_example :
  inclusive_scan_by_key Z.eqb Z.add [2; 5; 5; 5; 7; 7; 8; 9; 9] (repeat 1 9)
  = [1; 1; 2; 3; 1; 2; 1; 1; 2]
  /\ frequency_counts [2; 5; 5; 5; 7; 7; 8; 9; 9] = [1; 3; 3; 3; 2; 2; 1; 2; 2].
Proof. split; reflexivity. Qed.

(** ** What the renormalisation leaves alone *)

Lemma kernel_outside_row indices max_norm norm_type dim b w a :
  in_row indices dim b a = false ->
  renorm_kernel indices max_norm norm_type dim b w a = w a.
Proof.
  intros Ha. rewrite renorm_kernel_at, Ha.
  destruct (row_norm indices norm_type dim b w) as [norm|]; [|reflexivity].
  destruct (Rlt_dec max_norm norm); reflexivity.
Qed.

Lemma launch_outside_rows indices max_norm norm_type dim l w a :
  (forall b, In b l -> in_row indices dim b a = false) ->
  fold_left (fun w b => renorm_kernel indices max_norm norm_type dim b w) l w a = w a.
Proof.
  revert w. induction l as [|b l IH]; intros w H; cbn [fold_left]; [reflexivity|].
  rewrite IH by (intros b' Hb'; apply H; right; exact Hb').
  apply kernel_outside_row. apply H. left. reflexivity.
Qed.

(** The row an element of the table belongs to. *)
Lemma in_row_quotient indices dim rows b a :
  0 <= dim -> rows * dim < 2 ^ 31 -> valid_block indices rows b ->
  in_row indices dim b a = true -> a / dim = indices b.
Proof.
  intros Hd Ht Hb Ha. unfold in_row in Ha.
  rewrite (base_index_valid indices dim rows Hd Ht b Hb) in Ha.
  apply andb_true_iff in Ha. destruct Ha as [H0 H1].
  apply Z.leb_le in H0. apply Z.ltb_lt in H1.
  symmetry. apply (Z.div_unique a dim (indices b) (a - indices b * dim)); lia.
Qed.

Lemma three_four_rescaled (indices : Tensor Z) :
  is_contiguous indices = true -> get_device indices = 0 ->
  elements indices = [0] ->
  embedding_renorm_cuda_ (renorm_table 3 4) indices 1 2
  = Ok (renorm_table (3 * (1 / (5 + 1e-7))) (4 * (1 / (5 + 1e-7)))).
Proof.
  intros Hc Hg He.
  assert (Hnorm : row_norm (data_ptr 0 [0]) 2 2 0 (data_ptr 0%R [3; 4]%R) = Some 5%R).
  { rewrite row_norm_sum, one_row_sum, !norm_term_two. cbn [acc_add].
    rewrite std_pow_pos by lra. f_equal.
    replace (1 / 2)%R with (/ 2)%R by lra. rewrite Rpower_sqrt by lra.
    replace (3 * 3 + (4 * 4 + 0))%R with (5 * 5)%R by lra.
    apply sqrt_square. lra. }
  rewrite renorm_one_row by assumption. unfold renorm_table.
  rewrite !renorm_kernel_at, Hnorm, in_first_row_0, in_first_row_1.
  destruct (Rlt_dec 1 5) as [_|N]; [reflexivity|exfalso; lra].
Qed.

(** The row [3, 4] of 2-norm 5 with max_norm 1 is multiplied by
    1 / (5 + 1e-7). *)
Theorem renorm_scales_three_four :
  embedding_renorm_cuda_ (renorm_table 3 4) long_indices 1 2
  = Ok (renorm_table (3 * (1 / (5 + 1e-7))) (4 * (1 / (5 + 1e-7)))).
Proof. apply three_four_rescaled; reflexivity. Qed.


(** * Further properties of the backward pass *)

(** ** An empty index list *)

Lemma launch_feature_kernel_empty junk_s junk_i grid_x indices grad stride padding_idx gw :
  launch_feature_kernel junk_s junk_i grid_x indices grad 0 stride padding_idx gw
  = (gw, false).
Proof.
  unfold launch_feature_kernel. generalize (zrange grid_x) as blocks.
  induction blocks as [|b blocks IH]; cbn [fold_left]; [reflexivity|].
  exact IH.
Qed.

(** With no index and without scaling, the small-batch kernel is launched
    on the features of the gradient and no thread of it stores: the host
    function returns the zeroed table as [at::zeros] made it. *)
Theorem backward_of_no_index :
  forall sort junk_s junk_i (grad_ : Tensor Qc) (indices : Tensor Z)
         num_weights padding_idx,
    scalar_type indices = kLong ->
    is_contiguous indices = true ->
    get_device grad_ = get_device indices ->
    elements indices = [] ->
    elements grad_ = [] ->
    0 < size_last grad_ ->
    embedding_backward_cuda sort junk_s junk_i grad_ indices num_weights
      padding_idx false = Ok zeros.
Proof.
  intros sort junk_s junk_i grad_ indices num_weights padding_idx
         Hty Hc Hg Hi Hgr Hstride.
  assert (Hn : tensor_numel indices = 0) by (unfold tensor_numel; now rewrite Hi).
  assert (Hgn : tensor_numel grad_ = 0) by (unfold tensor_numel; now rewrite Hgr).
  rewrite backward_dispatch; try assumption; [|rewrite Hn, Hgn; reflexivity].
  rewrite Hn. unfold takes_direct_path. cbn [Z.leb Z.compare andb negb].
  unfold direct_path.
  change (to_int 0) with 0. rewrite launch_feature_kernel_empty. reflexivity.
Qed.

Definition no_indices : Tensor Z :=
  {| scalar_type := kLong; is_contiguous := true; get_device := 0;
     sizes := [0]; elements := [] |}.

Definition no_grad : Tensor Qc :=
  {| scalar_type := kFloat; is_contiguous := true; get_device := 0;
     sizes := [0; 3]; elements := [] |}.

Lemma backward_of_no_index_witness :
  embedding_backward_cuda insertion_sort_by_key example_junk_s example_junk_i
    no_grad no_indices 5 (-1) false = Ok zeros.
Proof.
  exact (backward_of_no_index insertion_sort_by_key example_junk_s example_junk_i
           no_grad no_indices 5 (-1) eq_refl eq_refl eq_refl eq_refl eq_refl
           eq_refl).
Defined.

(** ** The padding index is narrowed to [int] *)

(** Both kernels take [padding_idx] as an [int]: the row they skip is the
    64-bit padding index narrowed to 32 bits.  That row is all zero in the
    returned table and every other row holds its sum, also when the
    padding index given does not fit an [int]. *)
Theorem skipped_row_is_narrowed_padding :
  forall sort junk_s junk_i (grad_ : Tensor Qc) (indices : Tensor Z)
         num_weights padding_idx scale_grad_by_freq,
    sort_by_key_contract sort ->
    backward_input_ok grad_ indices num_weights ->
    exists gw,
      embedding_backward_cuda sort junk_s junk_i grad_ indices num_weights
        padding_idx scale_grad_by_freq = Ok gw
      /\ (forall f, 0 <= f < size_last grad_ ->
            cells gw (to_int padding_idx * size_last grad_ + f) = 0%Qc)
      /\ (forall r f, r <> to_int padding_idx -> 0 <= f < size_last grad_ ->
            cells gw (r * size_last grad_ + f)
            = expected_cell (data_ptr 0%Qc (elements grad_)) (elements indices)
                (size_last grad_) scale_grad_by_freq r f).
Proof.
  intros sort junk_s junk_i grad_ indices num_weights padding_idx scale Hsort Hok.
  destruct (backward_entry sort junk_s junk_i grad_ indices num_weights padding_idx
              scale Hsort Hok) as (gw & Hrun & Hcells).
  exists gw. split; [exact Hrun|]. split.
  - intros f Hf. rewrite (Hcells _ f Hf). unfold path_adds.
    rewrite Z.eqb_refl. reflexivity.
  - intros r f Hr Hf. rewrite (Hcells r f Hf). unfold path_adds.
    destruct (Z.eqb_spec r (to_int padding_idx)); [contradiction|reflexivity].
Qed.

(** Row 0 is skipped when the padding index is 2^32. *)
Lemma skipped_row_is_narrowed_padding_witness :
  exists gw,
    embedding_backward_cuda insertion_sort_by_key example_junk_s example_junk_i
      example_grad example_indices 5 (2 ^ 32) false = Ok gw
    /\ forall f, 0 <= f < size_last example_grad ->
         cells gw (to_int (2 ^ 32) * size_last example_grad + f) = 0%Qc.
Proof.
  assert (Hok : backward_input_ok example_grad example_indices 5) by example_input_ok.
  destruct (skipped_row_is_narrowed_padding insertion_sort_by_key example_junk_s
              example_junk_i example_grad example_indices 5 (2 ^ 32) false
              insertion_sort_contract Hok) as (gw & Hrun & Hzero & _).
  exists gw. split; [exact Hrun | exact Hzero].
Defined.

(** ** The sorted kernel stores inside the table *)

Lemma launch_backward_kernel_no_tile grid_x grid_y input indices grad_output count
    numel stride padding_idx gw :
  grid_y <= 0 ->
  launch_backward_kernel grid_x grid_y input indices grad_output count
    numel stride padding_idx gw = gw.
Proof.
  intros Hy. unfold launch_backward_kernel, zrange.
  replace (Z.to_nat grid_y) with 0%nat by lia. cbn [zseq fold_left].
  generalize (zseq 0 (Z.to_nat grid_x)) as blocks.
  induction blocks as [|b blocks IH]; cbn [fold_left]; [reflexivity | exact IH].
Qed.

Lemma store_count_In m a : In a (stores m) -> 0 < store_count m a.
Proof.
  intros H. unfold store_count. apply (count_occ_In Z.eq_dec) in H. lia.
Qed.

Lemma occurrences_In l v : 0 < occurrences l v -> In v l.
Proof.
  unfold occurrences. intros H. apply (count_occ_In Z.eq_dec). lia.
Qed.

(** Every store of the sorted path goes to an element of the table, in a
    row that occurs in the index list and is not the (narrowed) padding
    row: no row that was not looked up is written, and nothing outside the
    [num_weights * stride] elements. *)
Theorem sorted_path_stores_in_table :
  forall sort (grad_ : Tensor Qc) (indices : Tensor Z)
         num_weights padding_idx scale_grad_by_freq,
    sort_by_key_contract sort ->
    backward_input_ok grad_ indices num_weights ->
    exists gw,
      sorted_path sort (data_ptr 0%Qc (elements grad_)) indices
        (tensor_numel indices) (size_last grad_) padding_idx
        scale_grad_by_freq zeros = Ok gw
      /\ forall a, In a (stores gw) ->
           0 <= a < num_weights * size_last grad_
           /\ In (a / size_last grad_) (elements indices)
           /\ a / size_last grad_ <> to_int padding_idx.
Proof.
  intros sort grad_ indices num_weights padding_idx scale Hsort Hok.
  destruct (backward_paths sort example_junk_s example_junk_i grad_ indices
              num_weights padding_idx scale Hsort Hok) as [(gw & Hrun & Hcells) _].
  exists gw. split; [exact Hrun|]. intros a Ha.
  destruct (Z.le_gt_cases (size_last grad_) 0) as [Hs|Hs].
  - (* no feature: the grid has no tile *)
    exfalso. revert Hrun. unfold sorted_path.
    destruct (sort (elements indices) (zrange (tensor_numel indices)))
      as [sorted orig].
    rewrite launch_backward_kernel_no_tile
      by (unfold THCCeilDiv; Z.to_euclidean_division_equations; lia).
    cbn [THCudaCheck bind]. intros E. injection E as <-. exact Ha.
  - set (stride := size_last grad_) in *.
    assert (Hdec : a = a / stride * stride + a mod stride)
      by (Z.to_euclidean_division_equations; lia).
    assert (Hf : 0 <= a mod stride < stride) by (apply Z.mod_pos_bound; lia).
    destruct (Hcells (a / stride) (a mod stride) Hf) as [_ Hcount].
    rewrite <- Hdec in Hcount. apply store_count_In in Ha. rewrite Hcount in Ha.
    destruct (Z.eqb_spec (a / stride) (to_int padding_idx)) as [|Hpad]; [lia|].
    apply occurrences_In in Ha. pose proof (ok_rows _ _ _ Hok _ Ha) as Hrow.
    split; [|split; assumption]. nia.
Qed.

Lemma sorted_path_stores_in_table_witness :
  exists gw,
    sorted_path insertion_sort_by_key (data_ptr 0%Qc (elements example_grad))
      example_indices (tensor_numel example_indices) (size_last example_grad) 0
      true zeros = Ok gw
    /\ forall a, In a (stores gw) ->
         0 <= a < 5 * size_last example_grad
         /\ In (a / size_last example_grad) (elements example_indices)
         /\ a / size_last example_grad <> to_int 0.
Proof.
  assert (Hok : backward_input_ok example_grad example_indices 5) by example_input_ok.
  exact (sorted_path_stores_in_table insertion_sort_by_key example_grad
           example_indices 5 0 true insertion_sort_contract Hok).
Defined.

(** ** Frequency scaling takes the mean *)

Lemma qsum_scale {X : Type} (c : Qc) (h : X -> Qc) l :
  qsum h l *q c = qsum (fun x => h x *q c) l.
Proof.
  unfold qsum. induction l as [|x l IH]; cbn [bigsum]; [ring|].
  rewrite <- IH. ring.
Qed.

Lemma Zq_nonzero z : z <> 0 -> Zq z <> 0%Qc.
Proof.
  intros Hz E. unfold Zq in E.
  change 0%Qc with (Q2Qc (inject_Z 0)) in E.
  apply Q2Qc_eq_iff in E. unfold Qeq in E. cbn in E. lia.
Qed.

(** With scaling, every cell holds the cell of the unscaled table divided
    by the number of times its row was looked up: the mean of the gradient
    rows instead of their sum. *)
Theorem scaling_takes_the_mean :
  forall sort junk_s junk_i (grad_ : Tensor Qc) (indices : Tensor Z)
         num_weights padding_idx,
    sort_by_key_contract sort ->
    backward_input_ok grad_ indices num_weights ->
    exists scaled plain,
      embedding_backward_cuda sort junk_s junk_i grad_ indices num_weights
        padding_idx true = Ok scaled
      /\ embedding_backward_cuda sort junk_s junk_i grad_ indices num_weights
           padding_idx false = Ok plain
      /\ forall r f, 0 <= f < size_last grad_ ->
           cells scaled (r * size_last grad_ + f)
             *q Zq (occurrences (elements indices) r)
           = cells plain (r * size_last grad_ + f).
Proof.
  intros sort junk_s junk_i grad_ indices num_weights padding_idx Hsort Hok.
  destruct (backward_entry sort junk_s junk_i grad_ indices num_weights padding_idx
              true Hsort Hok) as (g1 & H1 & C1).
  destruct (backward_entry sort junk_s junk_i grad_ indices num_weights padding_idx
              false Hsort Hok) as (g0 & H0 & C0).
  exists g1, g0. split; [exact H1|]. split; [exact H0|].
  intros r f Hf. rewrite (C1 r f Hf), (C0 r f Hf). unfold path_adds.
  destruct (r =? to_int padding_idx); [ring|].
  unfold expected_cell. rewrite qsum_scale. unfold qsum. apply bigsum_ext_in.
  intros i Hi. apply In_zrange in Hi.
  destruct (Z.eqb_spec (data_ptr 0 (elements indices) i) r) as [E|_]; [|ring].
  unfold row_count. rewrite Zq_1.
  assert (Hocc : Zq (occurrences (elements indices) r) <> 0%Qc).
  { apply Zq_nonzero. apply Z.neq_sym, Z.lt_neq, occurrences_pos.
    rewrite <- E. apply data_ptr_In. exact Hi. }
  field. split; [discriminate | exact Hocc].
Qed.

Lemma scaling_takes_the_mean_witness :
  exists scaled plain,
    embedding_backward_cuda insertion_sort_by_key example_junk_s example_junk_i
      example_grad example_indices 5 (-1) true = Ok scaled
    /\ embedding_backward_cuda insertion_sort_by_key example_junk_s example_junk_i
         example_grad example_indices 5 (-1) false = Ok plain
    /\ forall r f, 0 <= f < size_last example_grad ->
         cells scaled (r * size_last example_grad + f)
           *q Zq (occurrences (elements example_indices) r)
         = cells plain (r * size_last example_grad + f).
Proof.
  assert (Hok : backward_input_ok example_grad example_indices 5) by example_input_ok.
  exact (scaling_takes_the_mean insertion_sort_by_key example_junk_s example_junk_i
           example_grad example_indices 5 (-1) insertion_sort_contract Hok).
Defined.

(** ** Arrays and the lists they point to *)

Lemma map_data_ptr {X : Type} (d : X) l :
  map (data_ptr d l) (zrange (Z.of_nat (List.length l))) = l.
Proof.
  apply (nth_ext _ _ (data_ptr d l 0) d).
  - rewrite length_map, length_zrange. lia.
  - intros k Hk. rewrite length_map, length_zrange in Hk.
    rewrite (map_nth (data_ptr d l) _ 0). unfold zrange.
    rewrite nth_zseq by lia. rewrite data_ptr_nth by lia. f_equal. lia.
Qed.

Lemma data_ptr_map {X Y : Type} (d : X) (d' : Y) (g : X -> Y) l i :
  0 <= i < Z.of_nat (List.length l) ->
  data_ptr d' (map g l) i = g (data_ptr d l i).
Proof.
  intros Hi. rewrite !data_ptr_nth by lia.
  rewrite (nth_indep _ d' (g d)) by (rewrite length_map; lia).
  apply map_nth.
Qed.

(** ** The small-batch kernel beyond its buffer *)

Lemma fold_left_keeps {S X : Type} (g : S -> bool) (step : S -> X -> S) l :
  (forall x s, g s = true -> g (step s x) = true) ->
  forall s, g s = true -> g (fold_left step l s) = true.
Proof.
  intros Hmono. induction l as [|x l IH]; intros s Hs; cbn [fold_left];
    [exact Hs|].
  apply IH, Hmono, Hs.
Qed.

Lemma fold_left_raises {S X : Type} (g : S -> bool) (step : S -> X -> S) l x :
  In x l ->
  (forall s, g (step s x) = true) ->
  (forall y s, g s = true -> g (step s y) = true) ->
  forall s, g (fold_left step l s) = true.
Proof.
  intros Hin Hx Hmono. induction l as [|y l IH]; intros s; [destruct Hin|].
  cbn [fold_left]. destruct Hin as [->|Hin].
  - apply fold_left_keeps; [exact Hmono | apply Hx].
  - apply IH, Hin.
Qed.

Section BeyondBuffer.
Variables (indices : Z -> Z) (grad : Z -> Qc) (n stride padding_idx : Z).
Variable blockIdx_x : Z.

Lemma stage_grad_observes batch_start chunk_start tx ty st :
  oob (stage_grad grad n stride padding_idx blockIdx_x batch_start chunk_start tx ty st)
  = oob st || negb (in_batch_buffer (chunk_start + ty - batch_start)).
Proof.
  unfold stage_grad, read_batch.
  match goal with |- context [if ?c then _ else _] => destruct c end; reflexivity.
Qed.

Lemma elect_and_add_keeps batch_start chunk_start tx ty st :
  oob st = true ->
  oob (elect_and_add n stride padding_idx blockIdx_x batch_start chunk_start tx ty st)
  = true.
Proof.
  intros H. unfold elect_and_add, read_batch.
  repeat match goal with
         | |- context [if ?c then _ else _] => destruct c
         end;
    cbn [oob set_grad_weight]; rewrite ?H; reflexivity.
Qed.

Lemma process_chunk_keeps batch_start chunk_start st :
  oob st = true ->
  oob (process_chunk grad n stride padding_idx blockIdx_x batch_start chunk_start st)
  = true.
Proof.
  intros H. unfold process_chunk, run_phase.
  apply fold_left_keeps; [intros t s; apply elect_and_add_keeps|].
  apply fold_left_keeps; [|exact H].
  intros t s Hs. rewrite stage_grad_observes, Hs. reflexivity.
Qed.

(** A chunk that starts past the end of the buffer is read all the same. *)
Lemma process_chunk_raises batch_start chunk_start st :
  N_BATCH_SLOTS <= chunk_start - batch_start ->
  oob (process_chunk grad n stride padding_idx blockIdx_x batch_start chunk_start st)
  = true.
Proof.
  intros Hc. unfold process_chunk, run_phase.
  apply fold_left_keeps; [intros t s; apply elect_and_add_keeps|].
  apply (fold_left_raises oob _ _ (0, 0)).
  - apply In_block_threads. cbn [fst snd].
    unfold blockDim_x, blockDim_y, WARP_SIZE, BLOCKDIMY. lia.
  - intros s. rewrite stage_grad_observes. cbn [fst snd].
    replace (in_batch_buffer (chunk_start + 0 - batch_start)) with false;
      [apply orb_true_r|].
    symmetry. unfold in_batch_buffer. apply andb_false_iff. right.
    apply Z.ltb_ge. lia.
  - intros t s Hs. rewrite stage_grad_observes, Hs. reflexivity.
Qed.

Lemma feature_kernel_raises st :
  N_BATCH_SLOTS < n ->
  oob (embedding_backward_feature_kernel indices grad n stride padding_idx
         blockIdx_x st) = true.
Proof.
  intros Hn. unfold N_BATCH_SLOTS, WARP_SIZE, BLOCKDIMY in Hn.
  unfold embedding_backward_feature_kernel. rewrite for_loop_fold.
  assert (Hinner : forall batch_start s, batch_start = 0 \/ oob s = true ->
            oob (for_loop (Z.to_nat n) batch_start n blockDim_y
                   (process_chunk grad n stride padding_idx blockIdx_x batch_start) s)
            = true).
  { intros batch_start s [->|Hs]; rewrite for_loop_fold.
    - apply (fold_left_raises oob _ _ 1024).
      + apply loop_indices_spec; unfold blockDim_y, BLOCKDIMY; try lia.
        split; [lia | reflexivity].
      + intros s'. apply process_chunk_raises.
        unfold N_BATCH_SLOTS, WARP_SIZE, BLOCKDIMY. lia.
      + intros cs s'. apply process_chunk_keeps.
    - apply fold_left_keeps; [intros cs s'; apply process_chunk_keeps | exact Hs]. }
  apply (fold_left_raises oob _ _ 0).
  - apply loop_indices_spec; unfold blockDim_x, blockDim_y, WARP_SIZE, BLOCKDIMY;
      try lia.
    split; [lia | reflexivity].
  - intros s. apply Hinner. left. reflexivity.
  - intros batch_start s Hs. apply Hinner. right.
    unfold run_phase. apply fold_left_keeps; [|exact Hs].
    intros t s' Hs'. rewrite load_batch_oob. exact Hs'.
Qed.
End BeyondBuffer.

(** Launched with more than 1024 indices, the small-batch kernel reads
    [indices_batch] outside its 1024 slots: its inner loop runs over the
    chunks up to [n], not up to the end of the batch that was loaded.  The
    768 of the host function cannot be raised beyond the buffer. *)
Theorem small_batch_kernel_overruns_buffer :
  forall junk_s junk_i grid_x indices grad n stride padding_idx gw,
    0 < grid_x ->
    N_BATCH_SLOTS < n ->
    snd (launch_feature_kernel junk_s junk_i grid_x indices grad n stride
           padding_idx gw) = true.
Proof.
  intros junk_s junk_i grid_x indices grad n stride padding_idx gw Hg Hn.
  unfold launch_feature_kernel.
  apply (fold_left_raises (fun acc : gmem * bool => snd acc) _ _ 0).
  - apply In_zrange. lia.
  - intros acc. cbn [snd]. apply feature_kernel_raises. exact Hn.
  - intros b acc Hacc. cbn [snd]. apply feature_kernel_raises. exact Hn.
Qed.

Lemma small_batch_kernel_overruns_buffer_witness :
  snd (launch_feature_kernel example_junk_s example_junk_i 1
         (fun _ => 0) (fun _ => 0%Qc) 1025 3 (-1) zeros) = true.
Proof.
  assert (Hg : 0 < 1) by lia.
  assert (Hn : N_BATCH_SLOTS < 1025) by reflexivity.
  exact (small_batch_kernel_overruns_buffer example_junk_s example_junk_i 1
           (fun _ => 0) (fun _ => 0%Qc) 1025 3 (-1) zeros Hg Hn).
Defined.

(** ** The small-batch kernel: one store per row and chunk *)

Section DirectStores.
Variables (grad : Z -> Qc) (n stride padding_idx blockIdx_x chunk_start : Z).
Variable ib : Z -> Z.
Hypothesis stride_fits : to_int stride = stride.
Hypothesis chunk_in_buffer : 0 <= chunk_start /\ chunk_start + 32 <= N_BATCH_SLOTS.

Local Abbreviation is_active := (active n padding_idx chunk_start ib).
Local Abbreviation is_leader := (leads n chunk_start ib).
Local Abbreviation feature tx := (tx + blockIdx_x * 32).

(** Thread [(tx, ty)] stores to cell [a]. *)
Definition thread_stores (a tx ty : Z) : bool :=
  is_active ty && is_leader ty && (feature tx <? stride)
  && (a =? ib (chunk_start + ty) * stride + feature tx).

Lemma elect_store_step tx ty st a :
  indices_batch st = ib -> 0 <= tx < 32 -> 0 <= ty < 32 ->
  let st' := elect_and_add n stride padding_idx blockIdx_x 0 chunk_start tx ty st in
  indices_batch st' = ib
  /\ store_count (grad_weight st') a
     = store_count (grad_weight st) a + (if thread_stores a tx ty then 1 else 0).
Proof.
  intros Hib Htx Hty. unfold elect_and_add, read_batch, thread_stores.
  rewrite stride_fits, !Z.sub_0_r, Hib. fold (is_active ty).
  destruct (is_active ty) eqn:Ha; cbn [andb]; [|split; [exact Hib | lia]].
  cbv beta iota.
  set (st1 := {| smem := smem st; indices_batch := ib;
                 grad_weight := grad_weight st;
                 oob := oob st || negb (in_batch_buffer (chunk_start + tx)) |}).
  rewrite (WARP_BALLOT_ext (match_found n st1 0 chunk_start (ib (chunk_start + ty)))
             (peer n chunk_start ib (ib (chunk_start + ty))))
    by (intros; apply match_found_peer; reflexivity).
  fold (is_leader ty). destruct (is_leader ty) eqn:Hl; cbn [andb].
  - unfold blockDim_x, WARP_SIZE.
    destruct (Z.ltb_spec (tx + blockIdx_x * 32) stride) as [Hf|Hf]; cbn [andb].
    + subst st1. cbn [indices_batch grad_weight set_grad_weight].
      split; [reflexivity|]. apply store_count_gstore.
    + subst st1. cbn [indices_batch grad_weight]. split; [reflexivity | lia].
  - subst st1. cbn [indices_batch grad_weight]. split; [reflexivity | lia].
Qed.

Lemma elect_store_phase st a :
  indices_batch st = ib ->
  let st' := run_phase blockDim_x blockDim_y
               (elect_and_add n stride padding_idx blockIdx_x 0 chunk_start) st in
  indices_batch st' = ib
  /\ store_count (grad_weight st') a
     = store_count (grad_weight st) a
       + zsum (fun t => if thread_stores a (fst t) (snd t) then 1 else 0)
              (block_threads blockDim_x blockDim_y).
Proof.
  intros Hib. unfold run_phase.
  apply (fold_adds_inv (fun s => store_count (grad_weight s) a)
           (fun t s => elect_and_add n stride padding_idx blockIdx_x 0 chunk_start
                         (fst t) (snd t) s)
           (fun t => if thread_stores a (fst t) (snd t) then 1 else 0)
           (fun s => indices_batch s = ib)); [|exact Hib].
  intros t s Ht Hs. apply In_block_threads in Ht.
  unfold blockDim_x, blockDim_y, WARP_SIZE, BLOCKDIMY in Ht.
  apply elect_store_step; [exact Hs | lia | lia].
Qed.

(** The cell observed: feature [f0] of row [r]. *)
Variables (r f0 : Z).
Hypothesis f0_range : 0 <= f0 < stride.
Hypothesis block_nonneg : 0 <= blockIdx_x.

Local Abbreviation adds := (adds_to_cell n stride padding_idx blockIdx_x chunk_start ib r f0).

(** Row [r] stands at a position of the chunk. *)
Definition chunk_holds : bool :=
  existsb (fun l => (chunk_start + l <? n) && (ib (chunk_start + l) =? r)) (zrange 32).

Lemma chunk_adder_exists l :
  in_tile blockIdx_x f0 = true -> r <> padding_idx ->
  0 <= l < 32 -> chunk_start + l < n -> ib (chunk_start + l) = r ->
  exists t, In t (block_threads blockDim_x blockDim_y) /\ adds t = true.
Proof.
  intros Htile Hr Hl Hln Hrow. unfold in_tile in Htile. apply Z.eqb_eq in Htile.
  assert (Hp : peer n chunk_start ib r l = true).
  { unfold peer. rewrite Hrow, Z.eqb_refl. cbn [andb].
    apply negb_true_iff, Z.leb_gt.
    destruct (Z.ltb_spec (n - chunk_start) 32); lia. }
  destruct (set_lanes (WARP_BALLOT (peer n chunk_start ib r))) as [|j rest] eqn:Elanes.
  { assert (H : In l (set_lanes (WARP_BALLOT (peer n chunk_start ib r))))
      by (rewrite WARP_BALLOT_lanes, filter_In, In_zrange; split; [lia|assumption]).
    rewrite Elanes in H. destruct H. }
  assert (Hj : In j (set_lanes (WARP_BALLOT (peer n chunk_start ib r))))
    by (rewrite Elanes; left; reflexivity).
  rewrite WARP_BALLOT_lanes, filter_In, In_zrange in Hj. destruct Hj as [Hj Hpj].
  pose proof Hpj as Hpj'. unfold peer in Hpj'.
  apply andb_prop in Hpj'. destruct Hpj' as [Hj1 Hj2].
  apply Z.eqb_eq in Hj1. apply negb_true_iff, Z.leb_gt in Hj2.
  assert (Hjn : chunk_start + j < n)
    by (destruct (Z.ltb_spec (n - chunk_start) 32); lia).
  exists (f0 - blockIdx_x * 32, j). split.
  - apply In_block_threads. cbn [fst snd].
    unfold blockDim_x, blockDim_y, WARP_SIZE, BLOCKDIMY.
    split; [|lia]. clear - Htile f0_range block_nonneg.
    Z.to_euclidean_division_equations. lia.
  - unfold adds_to_cell, active, leads. cbn [fst snd].
    rewrite <- Hj1, ffs_set_lanes, Elanes.
    replace (r =? padding_idx) with false by (symmetry; apply Z.eqb_neq; exact Hr).
    replace (chunk_start + j <? n) with true by (symmetry; apply Z.ltb_lt; exact Hjn).
    replace (j =? j + 1 - 1) with true by (symmetry; apply Z.eqb_eq; lia).
    replace (f0 - blockIdx_x * 32 + blockIdx_x * 32) with f0 by lia.
    replace (f0 <? stride) with true by (symmetry; apply Z.ltb_lt; lia).
    cbn [negb andb]. apply Z.eqb_refl.
Qed.

(** Of the threads of the block, at most one stores to the cell in this
    chunk, and one does when the row stands in the chunk. *)
Lemma chunk_threads_stores :
  zsum (fun t => if thread_stores (r * stride + f0) (fst t) (snd t) then 1 else 0)
       (block_threads blockDim_x blockDim_y)
  = if in_tile blockIdx_x f0 && negb (r =? padding_idx) && chunk_holds then 1 else 0.
Proof.
  set (v := if in_tile blockIdx_x f0 && negb (r =? padding_idx) && chunk_holds
            then 1 else 0).
  unfold zsum.
  rewrite (bigsum_ext_in _ (fun t => if adds t then v else 0)).
  - apply bigsum_at_most_one; [typeclasses eauto | | apply NoDup_block_threads |].
    + intros [x1 y1] [x2 y2] H1 H2 C1 C2.
      apply In_block_threads in H1, H2. cbn [fst snd] in *.
      unfold blockDim_x, blockDim_y, WARP_SIZE, BLOCKDIMY in H1, H2.
      apply (adds_to_cell_inv grad) in C1, C2; cbn [fst snd] in *;
        try assumption; try lia.
      destruct C1 as (_ & L1 & R1 & F1), C2 as (_ & L2 & R2 & F2).
      unfold leads in L1, L2. rewrite R1 in L1. rewrite R2 in L2.
      apply Z.eqb_eq in L1, L2. f_equal; lia.
    + intros Hnone. unfold v.
      destruct (in_tile blockIdx_x f0) eqn:Htile; [|reflexivity].
      destruct (Z.eqb_spec r padding_idx) as [|Hr]; [reflexivity|]. cbn [andb negb].
      destruct chunk_holds eqn:Hh; [|reflexivity].
      exfalso. unfold chunk_holds in Hh. apply existsb_exists in Hh.
      destruct Hh as (l & Hl & Hc). apply In_zrange in Hl.
      apply andb_prop in Hc. destruct Hc as [Hc1 Hc2].
      apply Z.ltb_lt in Hc1. apply Z.eqb_eq in Hc2.
      destruct (chunk_adder_exists l Htile Hr Hl Hc1 Hc2) as (t & Ht & Hadd).
      rewrite (Hnone t Ht) in Hadd. discriminate.
  - intros [tx ty] Ht. apply In_block_threads in Ht. cbn [fst snd] in *.
    unfold blockDim_x, blockDim_y, WARP_SIZE, BLOCKDIMY in Ht.
    change (thread_stores (r * stride + f0) tx ty) with (adds (tx, ty)).
    destruct (adds (tx, ty)) eqn:C; [|reflexivity].
    apply (adds_to_cell_inv grad) in C; cbn [fst snd] in *; try assumption; try lia.
    destruct C as (Ca & _ & Cr & Cf).
    unfold v. unfold active in Ca. rewrite Cr in Ca.
    apply andb_prop in Ca. destruct Ca as [Ca Cn]. rewrite Ca.
    replace (in_tile blockIdx_x f0) with true.
    + replace chunk_holds with true; [reflexivity|].
      symmetry. unfold chunk_holds. apply existsb_exists. exists ty.
      split; [apply In_zrange; lia|]. rewrite Cn, Cr, Z.eqb_refl. reflexivity.
    + symmetry. unfold in_tile. apply Z.eqb_eq.
      Z.to_euclidean_division_equations. lia.
Qed.

Lemma process_chunk_stores st :
  indices_batch st = ib ->
  let st' := process_chunk grad n stride padding_idx blockIdx_x 0 chunk_start st in
  indices_batch st' = ib
  /\ store_count (grad_weight st') (r * stride + f0)
     = store_count (grad_weight st) (r * stride + f0)
       + (if in_tile blockIdx_x f0 && negb (r =? padding_idx) && chunk_holds
          then 1 else 0).
Proof.
  intros Hib. unfold process_chunk.
  destruct (stage_phase grad n stride padding_idx blockIdx_x chunk_start ib
              stride_fits chunk_in_buffer st Hib) as (S1 & S2 & _).
  destruct (elect_store_phase _ (r * stride + f0) S1) as (E1 & E2).
  cbv zeta. rewrite E2, chunk_threads_stores, S2. split; [exact E1 | reflexivity].
Qed.
End DirectStores.

Lemma existsb_ext_in {X : Type} (p q : X -> bool) l :
  (forall x, In x l -> p x = q x) -> existsb p l = existsb q l.
Proof.
  induction l as [|x l IH]; intros H; cbn [existsb]; [reflexivity|].
  rewrite (H x) by (left; reflexivity). f_equal. apply IH.
  intros y Hy. apply H. right. exact Hy.
Qed.

(** The number of chunks of 32 positions in which row [r] stands. *)
Definition chunks_holding (indices : Z -> Z) (n r : Z) : Z :=
  zsum (fun chunk_start =>
          if existsb (fun l => (chunk_start + l <? n)
                               && (to_int (indices (chunk_start + l)) =? r))
                     (zrange 32)
          then 1 else 0)
       (loop_indices (Z.to_nat n) 0 n 32).

Section DirectBlockStores.
Variables (indices : Z -> Z) (grad : Z -> Qc) (n stride padding_idx : Z).
Hypothesis stride_fits : to_int stride = stride.
Hypothesis n_fits_batch : 0 <= n <= N_BATCH_SLOTS.
Variables (r f0 : Z).
Hypothesis f0_range : 0 <= f0 < stride.
Variable blockIdx_x : Z.
Hypothesis block_nonneg : 0 <= blockIdx_x.

Definition block_stores : Z :=
  if in_tile blockIdx_x f0 && negb (r =? padding_idx)
  then chunks_holding indices n r else 0.

Lemma chunk_loop_stores st :
  (forall t, 0 <= t < n -> indices_batch st t = to_int (indices t)) ->
  let st' := for_loop (Z.to_nat n) 0 n blockDim_y
               (process_chunk grad n stride padding_idx blockIdx_x 0) st in
  store_count (grad_weight st') (r * stride + f0)
  = store_count (grad_weight st) (r * stride + f0) + block_stores.
Proof.
  intros Hib. rewrite for_loop_fold. unfold blockDim_y, BLOCKDIMY.
  set (ib := indices_batch st) in *.
  destruct (fold_adds_inv (fun s => store_count (grad_weight s) (r * stride + f0))
              (process_chunk grad n stride padding_idx blockIdx_x 0)
              (fun cs => if in_tile blockIdx_x f0 && negb (r =? padding_idx)
                            && chunk_holds n cs ib r
                         then 1 else 0)
              (fun s => indices_batch s = ib)
              (loop_indices (Z.to_nat n) 0 n 32))
    with (s := st) as [_ H2].
  - intros cs s Hcs I1.
    apply loop_indices_spec in Hcs; [|lia|lia].
    unfold N_BATCH_SLOTS, WARP_SIZE, BLOCKDIMY in n_fits_batch.
    apply (process_chunk_stores grad n stride padding_idx blockIdx_x cs ib
             stride_fits); try assumption.
    unfold N_BATCH_SLOTS, WARP_SIZE, BLOCKDIMY.
    rewrite Z.sub_0_r in Hcs. Z.to_euclidean_division_equations. lia.
  - reflexivity.
  - rewrite H2. f_equal. unfold block_stores, chunks_holding, zsum.
    rewrite <- (bigsum_if (zero := 0) (add := Z.add)).
    apply bigsum_ext_in. intros cs Hcs.
    apply loop_indices_spec in Hcs; [|lia|lia].
    replace (chunk_holds n cs ib r)
      with (existsb (fun l => (cs + l <? n) && (to_int (indices (cs + l)) =? r))
                    (zrange 32)).
    + destruct (in_tile blockIdx_x f0 && negb (r =? padding_idx)); reflexivity.
    + unfold chunk_holds. apply existsb_ext_in. intros l Hl. apply In_zrange in Hl.
      destruct (Z.ltb_spec (cs + l) n); cbn [andb]; [|reflexivity].
      unfold ib. rewrite Hib by lia. reflexivity.
Qed.

Lemma block_kernel_stores st :
  let st' := embedding_backward_feature_kernel indices grad n stride padding_idx
               blockIdx_x st in
  store_count (grad_weight st') (r * stride + f0)
  = store_count (grad_weight st) (r * stride + f0) + block_stores.
Proof.
  unfold embedding_backward_feature_kernel.
  destruct (Z.eq_dec n 0) as [Hn0|Hn0].
  - rewrite Hn0. cbn [Z.to_nat for_loop].
    unfold block_stores, chunks_holding. rewrite Hn0.
    cbn [Z.to_nat loop_indices zsum bigsum].
    destruct (in_tile blockIdx_x f0 && negb (r =? padding_idx)); lia.
  - rewrite for_loop_once
      by (unfold blockDim_x, blockDim_y;
          unfold N_BATCH_SLOTS in n_fits_batch; lia).
    destruct (load_phase indices grad n stride n_fits_batch f0 f0_range st)
      as (L1 & _ & L3).
    cbv zeta. rewrite (chunk_loop_stores _ L3), L1. reflexivity.
Qed.
End DirectBlockStores.

Section DirectLaunchStores.
Variables (junk_s : Z -> Z -> Qc) (junk_i : Z -> Z -> Z).
Variables (grid_x : Z) (indices : Z -> Z) (grad : Z -> Qc) (n stride padding_idx : Z).
Hypothesis stride_fits : to_int stride = stride.
Hypothesis n_fits_batch : 0 <= n <= N_BATCH_SLOTS.
Variables (r f0 : Z).
Hypothesis f0_range : 0 <= f0 < stride.
Hypothesis grid_covers : stride <= 32 * grid_x.

Lemma launch_feature_stores gw :
  store_count
    (fst (launch_feature_kernel junk_s junk_i grid_x indices grad n stride
            padding_idx gw))
    (r * stride + f0)
  = store_count gw (r * stride + f0)
    + (if r =? padding_idx then 0 else chunks_holding indices n r).
Proof.
  unfold launch_feature_kernel.
  rewrite (fold_adds (fun acc : gmem * bool => store_count (fst acc) (r * stride + f0))
             (fun b acc =>
                let st := embedding_backward_feature_kernel indices grad n stride
                            padding_idx b
                            {| smem := junk_s b; indices_batch := junk_i b;
                               grad_weight := fst acc; oob := snd acc |} in
                (grad_weight st, oob st))
             (fun b => block_stores indices n padding_idx r f0 b)
             (zrange grid_x)).
  - cbn [fst]. f_equal. unfold block_stores, in_tile, zrange.
    rewrite (bigsum_ext_in _
               (fun b => if b =? f0 / 32
                         then (if r =? padding_idx then 0
                               else chunks_holding indices n r)
                         else 0))
      by (intros b _; destruct (b =? f0 / 32), (r =? padding_idx); reflexivity).
    rewrite (bigsum_pick (zero := 0) (add := Z.add)).
    replace ((0 <=? f0 / 32) && (f0 / 32 <? 0 + Z.of_nat (Z.to_nat grid_x)))
      with true; [reflexivity|].
    symmetry. apply andb_true_intro.
    split; [apply Z.leb_le | apply Z.ltb_lt];
      Z.to_euclidean_division_equations; lia.
  - intros b acc Hb. apply In_zrange in Hb. cbn [fst].
    apply (block_kernel_stores indices grad n stride padding_idx stride_fits
             n_fits_batch r f0 f0_range b (proj1 Hb)
             {| smem := junk_s b; indices_batch := junk_i b;
                grad_weight := fst acc; oob := snd acc |}).
Qed.
End DirectLaunchStores.

Lemma zsum_indicator_pos {X : Type} (c : X -> bool) l :
  0 < zsum (fun x => if c x then 1 else 0) l -> exists x, In x l /\ c x = true.
Proof.
  unfold zsum. induction l as [|x l IH]; cbn [bigsum]; [lia|].
  destruct (c x) eqn:E.
  - intros _. exists x. split; [left; reflexivity | exact E].
  - intros H. destruct IH as (y & Hy & Hc); [lia|].
    exists y. split; [right; exact Hy | exact Hc].
Qed.

Lemma chunks_holding_pos indices n r :
  0 < chunks_holding indices n r ->
  exists j, 0 <= j < n /\ to_int (indices j) = r.
Proof.
  intros H. apply zsum_indicator_pos in H. destruct H as (cs & Hcs & Hex).
  apply loop_indices_spec in Hcs; [|lia|lia].
  apply existsb_exists in Hex. destruct Hex as (l & Hl & Hc).
  apply In_zrange in Hl. apply andb_prop in Hc. destruct Hc as [Hc1 Hc2].
  apply Z.ltb_lt in Hc1. apply Z.eqb_eq in Hc2.
  exists (cs + l). split; [lia | exact Hc2].
Qed.

(** On the small-batch path every cell of row [r] is stored once for each
    chunk of 32 consecutive positions in which [r] stands, by the leader
    the warps of the chunk elect, however many positions of the chunk hold
    [r]; the padding row is never stored; and every store goes to an
    element of the table. *)
Theorem direct_path_stores_once_per_chunk :
  forall junk_s junk_i (grad_ : Tensor Qc) (indices : Tensor Z)
         num_weights padding_idx,
    backward_input_ok grad_ indices num_weights ->
    tensor_numel indices <= N_BATCH_SLOTS ->
    exists gw,
      direct_path junk_s junk_i (data_ptr 0%Qc (elements grad_)) indices
        (tensor_numel indices) (size_last grad_) padding_idx zeros = Ok gw
      /\ (forall r f, 0 <= f < size_last grad_ ->
            store_count gw (r * size_last grad_ + f)
            = if r =? to_int padding_idx then 0
              else chunks_holding (data_ptr 0 (elements indices))
                     (tensor_numel indices) r)
      /\ (forall a, In a (stores gw) -> 0 <= a < num_weights * size_last grad_).
Proof.
  intros junk_s junk_i grad_ indices num_weights padding_idx Hok Hn.
  set (stride := size_last grad_). set (n := tensor_numel indices) in *.
  assert (Hn0 : 0 <= n) by (unfold n, tensor_numel; lia).
  assert (Hnint : to_int n = n)
    by (apply to_int_small; unfold N_BATCH_SLOTS, WARP_SIZE, BLOCKDIMY in Hn; lia).
  pose proof (ok_stride _ _ _ Hok) as Hstride. fold stride in Hstride.
  unfold direct_path. rewrite Hnint.
  rewrite launch_feature_kernel_oob
    by (unfold N_BATCH_SLOTS, WARP_SIZE, BLOCKDIMY in Hn; lia).
  cbn [THCudaCheck bind]. eexists. split; [reflexivity|].
  destruct (Z.le_gt_cases stride 0) as [Hs|Hs].
  - (* no feature, no block *)
    unfold launch_feature_kernel, zrange.
    replace (Z.to_nat (THCCeilDiv stride WARP_SIZE)) with 0%nat
      by (unfold THCCeilDiv, WARP_SIZE; Z.to_euclidean_division_equations; lia).
    cbn [zseq fold_left fst]. split; [intros r f Hf; lia | intros a []].
  - assert (Hsf : to_int stride = stride) by (apply to_int_small; lia).
    assert (Hgrid : stride <= 32 * THCCeilDiv stride WARP_SIZE)
      by (unfold THCCeilDiv, WARP_SIZE; Z.to_euclidean_division_equations; lia).
    assert (Hcount : forall r f, 0 <= f < stride ->
              store_count
                (fst (launch_feature_kernel junk_s junk_i (THCCeilDiv stride WARP_SIZE)
                        (data_ptr 0 (elements indices))
                        (data_ptr 0%Qc (elements grad_)) n stride
                        (to_int padding_idx) zeros))
                (r * stride + f)
              = if r =? to_int padding_idx then 0
                else chunks_holding (data_ptr 0 (elements indices)) n r).
    { intros r f Hf.
      rewrite (launch_feature_stores junk_s junk_i (THCCeilDiv stride WARP_SIZE)
                 (data_ptr 0 (elements indices)) (data_ptr 0%Qc (elements grad_))
                 n stride (to_int padding_idx) Hsf (conj Hn0 Hn) r f Hf Hgrid zeros).
      reflexivity. }
    split; [exact Hcount|]. intros a Ha.
    assert (Hdec : a = a / stride * stride + a mod stride)
      by (Z.to_euclidean_division_equations; lia).
    assert (Hf : 0 <= a mod stride < stride) by (apply Z.mod_pos_bound; lia).
    apply store_count_In in Ha. rewrite Hdec, (Hcount _ _ Hf) in Ha.
    destruct (a / stride =? to_int padding_idx); [lia|].
    apply chunks_holding_pos in Ha. destruct Ha as (j & Hj & Hrow).
    assert (Hin : In (data_ptr 0 (elements indices) j) (elements indices))
      by (apply data_ptr_In; exact Hj).
    pose proof (ok_rows _ _ _ Hok _ Hin) as Hvalid.
    pose proof (ok_table _ _ _ Hok) as Htable. fold stride in Htable.
    rewrite to_int_small in Hrow by nia. nia.
Qed.

Lemma direct_path_stores_once_per_chunk_witness :
  exists gw,
    direct_path example_junk_s example_junk_i (data_ptr 0%Qc (elements example_grad))
      example_indices (tensor_numel example_indices) (size_last example_grad) (-1)
      zeros = Ok gw
    /\ store_count gw 0 = 1.
Proof.
  assert (Hok : backward_input_ok example_grad example_indices 5) by example_input_ok.
  assert (Hn : tensor_numel example_indices <= N_BATCH_SLOTS) by discriminate.
  destruct (direct_path_stores_once_per_chunk example_junk_s example_junk_i
              example_grad example_indices 5 (-1) Hok Hn) as (gw & Hrun & Hcount & _).
  exists gw. split; [exact Hrun|].
  assert (Hf : 0 <= 0 < size_last example_grad) by (split; [lia | reflexivity]).
  exact (Hcount 0 0 Hf).
Defined.

(** ** Indices are not checked against the table *)

Lemma zsum_indicator_nonneg {X : Type} (c : X -> bool) l :
  0 <= zsum (fun x => if c x then 1 else 0) l.
Proof.
  unfold zsum. induction l as [|x l IH]; cbn [bigsum]; [lia|].
  destruct (c x); lia.
Qed.

Lemma zsum_indicator_holds {X : Type} (c : X -> bool) l x :
  In x l -> c x = true -> 0 < zsum (fun x => if c x then 1 else 0) l.
Proof.
  intros Hin Hc. induction l as [|y l IH]; [destruct Hin|].
  pose proof (zsum_indicator_nonneg c l) as Hl.
  unfold zsum in *. cbn [bigsum]. destruct Hin as [->|Hin].
  - rewrite Hc. lia.
  - specialize (IH Hin). destruct (c y); lia.
Qed.

Lemma chunks_holding_holds indices n r j :
  0 <= j < n -> to_int (indices j) = r -> 0 < chunks_holding indices n r.
Proof.
  intros Hj Hr. unfold chunks_holding.
  apply (zsum_indicator_holds _ _ (32 * (j / 32))).
  - apply loop_indices_spec; [lia|lia|].
    split; Z.to_euclidean_division_equations; lia.
  - apply existsb_exists. exists (j mod 32). split.
    + apply In_zrange. Z.to_euclidean_division_equations; lia.
    + replace (32 * (j / 32) + j mod 32) with j
        by (Z.to_euclidean_division_equations; lia).
      apply andb_true_intro. split; [apply Z.ltb_lt; lia | apply Z.eqb_eq; exact Hr].
Qed.

(** The small-batch path never compares an index with the number of rows:
    an index outside the table, other than the padding index, makes the
    kernel store to addresses outside the table, one row of them. *)
Theorem unchecked_index_stored_outside_table :
  forall junk_s junk_i (grad_ : Tensor Qc) (indices : Tensor Z)
         num_weights padding_idx j r,
    scalar_type indices = kLong ->
    tensor_numel indices <= N_BATCH_SLOTS ->
    0 < size_last grad_ < 2 ^ 31 ->
    0 <= j < tensor_numel indices ->
    to_int (data_ptr 0 (elements indices) j) = r ->
    r <> to_int padding_idx ->
    ~ 0 <= r < num_weights ->
    exists gw,
      direct_path junk_s junk_i (data_ptr 0%Qc (elements grad_)) indices
        (tensor_numel indices) (size_last grad_) padding_idx zeros = Ok gw
      /\ forall f, 0 <= f < size_last grad_ ->
           0 < store_count gw (r * size_last grad_ + f)
           /\ ~ 0 <= r * size_last grad_ + f < num_weights * size_last grad_.
Proof.
  intros junk_s junk_i grad_ indices num_weights padding_idx j r
         Htype Hn Hstride Hj Hr Hpad Hout.
  set (stride := size_last grad_) in *. set (n := tensor_numel indices) in *.
  assert (Hn0 : 0 <= n) by lia.
  assert (Hnint : to_int n = n)
    by (apply to_int_small; unfold N_BATCH_SLOTS, WARP_SIZE, BLOCKDIMY in Hn; lia).
  unfold direct_path. rewrite Hnint.
  rewrite launch_feature_kernel_oob
    by (unfold N_BATCH_SLOTS, WARP_SIZE, BLOCKDIMY in Hn; lia).
  cbn [THCudaCheck bind]. eexists. split; [reflexivity|]. intros f Hf.
  assert (Hsf : to_int stride = stride) by (apply to_int_small; lia).
  assert (Hgrid : stride <= 32 * THCCeilDiv stride WARP_SIZE)
    by (unfold THCCeilDiv, WARP_SIZE; Z.to_euclidean_division_equations; lia).
  split.
  - rewrite (launch_feature_stores junk_s junk_i (THCCeilDiv stride WARP_SIZE)
               (data_ptr 0 (elements indices)) (data_ptr 0%Qc (elements grad_))
               n stride (to_int padding_idx) Hsf (conj Hn0 Hn) r f Hf Hgrid zeros).
    apply Z.eqb_neq in Hpad. rewrite Hpad.
    pose proof (chunks_holding_holds (data_ptr 0 (elements indices)) n r j Hj Hr).
    change (store_count zeros (r * stride + f)) with 0. lia.
  - intros Hin. apply Hout. nia.
Qed.

Lemma unchecked_index_stored_outside_table_witness :
  exists gw,
    direct_path example_junk_s example_junk_i (data_ptr 0%Qc (elements example_grad))
      example_indices (tensor_numel example_indices) (size_last example_grad) (-1)
      zeros = Ok gw
    /\ 0 < store_count gw (2 * size_last example_grad + 0)
    /\ ~ 0 <= 2 * size_last example_grad + 0 < 2 * size_last example_grad.
Proof.
  assert (Hn : tensor_numel example_indices <= N_BATCH_SLOTS) by discriminate.
  assert (Hs : 0 < size_last example_grad < 2 ^ 31) by (split; reflexivity).
  assert (Hj : 0 <= 2 < tensor_numel example_indices) by (split; [lia | reflexivity]).
  assert (Hpad : 2 <> to_int (-1)) by discriminate.
  assert (Hout : ~ 0 <= 2 < 2) by lia.
  destruct (unchecked_index_stored_outside_table example_junk_s example_junk_i
              example_grad example_indices 2 (-1) 2 2 eq_refl Hn Hs Hj eq_refl
              Hpad Hout) as (gw & Hrun & Hstore).
  exists gw. split; [exact Hrun|].
  assert (Hf : 0 <= 0 < size_last example_grad) by (split; [lia | reflexivity]).
  exact (Hstore 0 Hf).
Defined.

(** * Further properties of the renormalisation *)

(** ** A block only shrinks its row *)

Lemma kernel_shrinks indices max_norm norm_type dim b w a :
  (0 <= max_norm)%R ->
  exists c, (0 <= c <= 1)%R
            /\ renorm_kernel indices max_norm norm_type dim b w a = (w a * c)%R.
Proof.
  intros Hmax. rewrite renorm_kernel_at.
  assert (Hone : exists c, (0 <= c <= 1)%R /\ w a = (w a * c)%R)
    by (exists 1%R; split; lra).
  destruct (row_norm indices norm_type dim b w) as [norm|]; [|exact Hone].
  destruct (Rlt_dec max_norm norm) as [Hlt|_]; [|exact Hone].
  destruct (in_row indices dim b a); [|exact Hone].
  exists (max_norm / (norm + 1e-7))%R. split; [|reflexivity].
  assert (Hinv : (0 < / (norm + 1e-7))%R) by (apply Rinv_0_lt_compat; lra).
  unfold Rdiv. split.
  - apply Rmult_le_pos; lra.
  - apply (Rmult_le_reg_r (norm + 1e-7)); [lra|].
    rewrite Rmult_assoc, Rinv_l by lra. lra.
Qed.

Lemma launch_shrinks indices max_norm norm_type dim l : forall w a,
  (0 <= max_norm)%R ->
  exists c, (0 <= c <= 1)%R
            /\ fold_left (fun w b => renorm_kernel indices max_norm norm_type dim b w)
                 l w a = (w a * c)%R.
Proof.
  induction l as [|b l IH]; intros w a Hmax; cbn [fold_left].
  - exists 1%R. split; lra.
  - destruct (IH (renorm_kernel indices max_norm norm_type dim b w) a Hmax)
      as (c1 & Hc1 & E1).
    destruct (kernel_shrinks indices max_norm norm_type dim b w a Hmax)
      as (c2 & Hc2 & E2).
    exists (c2 * c1)%R. split.
    + split; [apply Rmult_le_pos; lra|].
      rewrite <- (Rmult_1_r 1). apply Rmult_le_compat; lra.
    + rewrite E1, E2. ring.
Qed.

(** ** Adjacent duplicates *)

Lemma unique_copy_head y t :
  exists u, unique_copy (y :: t) = y :: u.
Proof.
  revert y. induction t as [|z t IH]; intros y; cbn [unique_copy].
  - exists []. reflexivity.
  - destruct (Z.eqb_spec y z) as [->|_].
    + apply IH.
    + eexists. reflexivity.
Qed.

Lemma unique_copy_cons x y t :
  unique_copy (x :: y :: t)
  = if x =? y then unique_copy (y :: t) else x :: unique_copy (y :: t).
Proof. reflexivity. Qed.

Lemma unique_copy_idempotent l : unique_copy (unique_copy l) = unique_copy l.
Proof.
  induction l as [|x l IH]; [reflexivity|].
  destruct l as [|y t]; [reflexivity|].
  rewrite unique_copy_cons. destruct (Z.eqb_spec x y) as [E|NE]; [exact IH|].
  destruct (unique_copy_head y t) as [u Hu].
  rewrite Hu in IH |- *. rewrite unique_copy_cons.
  destruct (Z.eqb_spec x y); [contradiction|]. rewrite IH. reflexivity.
Qed.

(** An index given several times in a row counts once: the host function
    returns the same table as on the index list without its adjacent
    duplicates. *)
Theorem renorm_ignores_adjacent_duplicates :
  forall (self : Tensor R) (indices deduplicated : Tensor Z) max_norm norm_type,
    elements deduplicated = unique_copy (elements indices) ->
    scalar_type deduplicated = scalar_type indices ->
    is_contiguous deduplicated = is_contiguous indices ->
    get_device deduplicated = get_device indices ->
    embedding_renorm_cuda_ self deduplicated max_norm norm_type
    = embedding_renorm_cuda_ self indices max_norm norm_type.
Proof.
  intros self indices deduplicated max_norm norm_type He Hty Hc Hg.
  unfold embedding_renorm_cuda_, checkContiguous, checkSameGPU.
  rewrite He, Hc, Hg, unique_copy_idempotent. reflexivity.
Qed.

Lemma renorm_ignores_adjacent_duplicates_witness :
  embedding_renorm_cuda_ (renorm_table 3 4) long_indices 1 2
  = embedding_renorm_cuda_ (renorm_table 3 4)
      {| scalar_type := kLong; is_contiguous := true; get_device := 0;
         sizes := [3]; elements := [0; 0; 0] |} 1 2.
Proof.
  exact (renorm_ignores_adjacent_duplicates (renorm_table 3 4)
           {| scalar_type := kLong; is_contiguous := true; get_device := 0;
              sizes := [3]; elements := [0; 0; 0] |}
           long_indices 1 2 eq_refl eq_refl eq_refl eq_refl).
Defined.

(** ** Blocks on distinct rows *)

Lemma unique_copy_In v l : In v l -> In v (unique_copy l).
Proof.
  induction l as [|x l IH]; [intros []|].
  destruct l as [|y t]; [exact (fun H => H)|].
  rewrite unique_copy_cons. intros [<-|H].
  - destruct (Z.eqb_spec x y) as [->|_]; [|left; reflexivity].
    destruct (unique_copy_head y t) as [u ->]. left. reflexivity.
  - destruct (x =? y); [|right]; apply IH, H.
Qed.

(** An ascending index list leaves one block per row. *)
Lemma unique_copy_sorted l :
  StronglySorted Z.le l -> StronglySorted Z.lt (unique_copy l).
Proof.
  induction l as [|x l IH]; intros HS; [constructor|].
  apply StronglySorted_inv in HS. destruct HS as [HS Hall].
  destruct l as [|y t]; [constructor; constructor|].
  rewrite unique_copy_cons. destruct (Z.eqb_spec x y) as [E|NE]; [apply IH, HS|].
  constructor; [apply IH, HS|].
  apply Forall_forall. intros v Hv. apply In_unique_copy in Hv.
  rewrite Forall_forall in Hall. pose proof (Hall v Hv) as Hxv.
  apply StronglySorted_inv in HS. destruct HS as [_ Hy].
  rewrite Forall_forall in Hy.
  assert (Hxy : x <= y) by (apply Hall; left; reflexivity).
  destruct Hv as [<-|Hv]; [lia|]. pose proof (Hy v Hv). lia.
Qed.

Lemma unique_copy_sorted_NoDup l :
  StronglySorted Z.le l -> NoDup (unique_copy l).
Proof.
  intros HS. apply unique_copy_sorted in HS.
  induction HS as [|x u HS IH Hall]; constructor; [|exact IH].
  intros Hin. rewrite Forall_forall in Hall. pose proof (Hall x Hin). lia.
Qed.

Section RenormDistinct.
Variables (indices : Z -> Z) (max_norm norm_type : R) (dim rows : Z).
Hypothesis dim_nonneg : 0 <= dim.
Hypothesis table_fits : rows * dim < 2 ^ 31.

Local Abbreviation kernel := (renorm_kernel indices max_norm norm_type dim).
Local Abbreviation row b a := (in_row indices dim b a).

Lemma kernel_ext_row b w1 w2 a :
  (forall a', row b a' = true -> w1 a' = w2 a') ->
  row b a = true -> kernel b w1 a = kernel b w2 a.
Proof.
  intros H Ha. rewrite !renorm_kernel_at.
  rewrite (row_norm_ext indices norm_type dim b w1 w2 H), (H a Ha). reflexivity.
Qed.

Lemma rows_apart b b' a :
  valid_block indices rows b -> valid_block indices rows b' ->
  indices b <> indices b' -> row b a = true -> row b' a = false.
Proof.
  intros Hb Hb' Hne Ha.
  destruct (rows_same_or_apart indices dim rows dim_nonneg table_fits b b' Hb Hb')
    as [E|Hapart]; [|apply Hapart, Ha].
  exfalso. unfold in_row in Ha.
  rewrite !(base_index_valid indices dim rows dim_nonneg table_fits) in * by assumption.
  apply andb_true_iff in Ha. destruct Ha as [H0 H1].
  apply Z.leb_le in H0. apply Z.ltb_lt in H1.
  unfold valid_block in *. nia.
Qed.

Lemma launch_distinct l : forall w b a,
  Forall (valid_block indices rows) l ->
  NoDup (map indices l) ->
  In b l -> row b a = true ->
  fold_left (fun w b => kernel b w) l w a = kernel b w a.
Proof.
  induction l as [|x l IH]; intros w b a Hvalid Hnd Hin Ha; [destruct Hin|].
  cbn [fold_left]. cbn [map] in Hnd.
  inversion Hvalid as [|? ? Hx Hl]; subst.
  inversion Hnd as [|? ? Hxl Hnd']; subst.
  assert (Hother : forall b', In b' l -> indices x <> indices b').
  { intros b' Hb' E. apply Hxl. rewrite E. apply in_map, Hb'. }
  rewrite Forall_forall in Hl.
  destruct Hin as [->|Hin].
  - apply launch_outside_rows. intros b' Hb'.
    apply (rows_apart b b' a Hx (Hl b' Hb') (Hother b' Hb') Ha).
  - rewrite (IH (kernel x w) b a) by (try apply Forall_forall; assumption).
    apply kernel_ext_row; [|exact Ha].
    intros a' Ha'. apply kernel_outside_row.
    apply (rows_apart b x a' (Hl b Hin) Hx); [|exact Ha'].
    intros E. apply (Hother b Hin). symmetry. exact E.
Qed.

(** When the blocks address distinct rows, the table a launch leaves does
    not depend on the order in which the blocks run. *)
Lemma launch_any_order l l' w a :
  Permutation l l' ->
  Forall (valid_block indices rows) l ->
  NoDup (map indices l) ->
  fold_left (fun w b => kernel b w) l w a
  = fold_left (fun w b => kernel b w) l' w a.
Proof.
  intros Hperm Hvalid Hnd.
  assert (Hvalid' : Forall (valid_block indices rows) l')
    by (apply (Permutation_Forall Hperm), Hvalid).
  assert (Hnd' : NoDup (map indices l'))
    by (apply (Permutation_NoDup (Permutation_map indices Hperm)), Hnd).
  destruct (existsb (fun b => row b a) l) eqn:E.
  - apply existsb_exists in E. destruct E as (b & Hb & Ha).
    rewrite (launch_distinct l w b a Hvalid Hnd Hb Ha).
    symmetry. apply launch_distinct; try assumption.
    apply (Permutation_in _ Hperm), Hb.
  - assert (Hnone : forall b, In b l -> row b a = false).
    { intros b Hb. destruct (row b a) eqn:Ha; [|reflexivity].
      rewrite <- E. symmetry. apply existsb_exists. exists b. split; assumption. }
    rewrite !launch_outside_rows; [reflexivity | | exact Hnone].
    intros b Hb. apply Hnone. apply (Permutation_in _ (Permutation_sym Hperm)), Hb.
Qed.
End RenormDistinct.

Lemma renorm_blocks_distinct (indices : Tensor Z) :
  NoDup (unique_copy (elements indices)) ->
  NoDup (map (data_ptr 0 (unique_copy (elements indices)))
           (zrange (Z.of_nat (List.length (unique_copy (elements indices)))))).
Proof. intros H. rewrite map_data_ptr. exact H. Qed.

(** The table the host function stores, once its checks pass. *)
Lemma renorm_stored (self : Tensor R) (indices : Tensor Z) rows dim max_norm norm_type :
  renorm_input_ok self indices rows dim ->
  exists t,
    embedding_renorm_cuda_ self indices max_norm norm_type = Ok t
    /\ forall a, 0 <= a < rows * dim ->
         data_ptr 0%R (elements t) a
         = fold_left
             (fun w b => renorm_kernel (data_ptr 0 (unique_copy (elements indices)))
                           max_norm norm_type dim b w)
             (zrange (Z.of_nat (List.length (unique_copy (elements indices)))))
             (data_ptr 0%R (elements self)) a.
Proof.
  intros Hok. pose proof (rok_dim _ _ _ _ Hok) as Hdim.
  assert (Hgrid : to_int (Z.of_nat (List.length (unique_copy (elements indices))))
                  = Z.of_nat (List.length (unique_copy (elements indices)))).
  { pose proof (length_unique_copy (elements indices)).
    pose proof (rok_count _ _ _ _ Hok). apply to_int_small. lia. }
  assert (Hlast : to_int (size_last self) = dim).
  { unfold size_last. rewrite (rok_sizes _ _ _ _ Hok). cbn [last].
    apply to_int_small. lia. }
  assert (Hrank : tensor_dim self = 2)
    by (unfold tensor_dim; rewrite (rok_sizes _ _ _ _ Hok); reflexivity).
  rewrite (renorm_dispatch self indices max_norm norm_type
             (rok_self_contiguous _ _ _ _ Hok) (rok_indices_contiguous _ _ _ _ Hok)
             Hrank (rok_same_gpu _ _ _ _ Hok)).
  rewrite Hlast, Hgrid, (rok_numel _ _ _ _ Hok).
  eexists. split; [reflexivity|]. cbn [elements]. intros a Ha.
  rewrite data_ptr_map_zrange by exact Ha. reflexivity.
Qed.

(** When no index occurs again after another one (as in an ascending
    index list), the blocks of the launch address distinct rows, and the
    table the host function returns is the one the blocks leave in any
    order of execution. *)
Theorem renorm_block_order_free :
  forall (self : Tensor R) (indices : Tensor Z) rows dim max_norm norm_type
         (order : list Z),
    renorm_input_ok self indices rows dim ->
    NoDup (unique_copy (elements indices)) ->
    Permutation order
      (zrange (Z.of_nat (List.length (unique_copy (elements indices))))) ->
    exists t,
      embedding_renorm_cuda_ self indices max_norm norm_type = Ok t
      /\ forall a, 0 <= a < rows * dim ->
           data_ptr 0%R (elements t) a
           = fold_left
               (fun w b => renorm_kernel (data_ptr 0 (unique_copy (elements indices)))
                             max_norm norm_type dim b w)
               order (data_ptr 0%R (elements self)) a.
Proof.
  intros self indices rows dim max_norm norm_type order Hok Hnd Hperm.
  destruct (renorm_stored self indices rows dim max_norm norm_type Hok)
    as (t & Hrun & Hcells).
  exists t. split; [exact Hrun|]. intros a Ha. rewrite (Hcells a Ha).
  pose proof (renorm_blocks_valid self indices rows dim Hok) as Hvalid.
  assert (Hgrid : to_int (Z.of_nat (List.length (unique_copy (elements indices))))
                  = Z.of_nat (List.length (unique_copy (elements indices)))).
  { pose proof (length_unique_copy (elements indices)).
    pose proof (rok_count _ _ _ _ Hok). apply to_int_small. lia. }
  rewrite Hgrid in Hvalid.
  apply (launch_any_order _ max_norm norm_type dim rows
           (proj1 (rok_dim _ _ _ _ Hok)) (rok_table _ _ _ _ Hok)).
  - apply Permutation_sym, Hperm.
  - exact Hvalid.
  - apply renorm_blocks_distinct, Hnd.
Qed.

(** A table of two rows and an ascending index list that names both. *)
Definition two_rows : Tensor R :=
  {| scalar_type := kFloat; is_contiguous := true; get_device := 0;
     sizes := [2; 2]; elements := [3; 4; 6; 8]%R |}.

Definition both_rows : Tensor Z :=
  {| scalar_type := kLong; is_contiguous := true; get_device := 0;
     sizes := [3]; elements := [0; 1; 1] |}.

Ltac two_rows_ok :=
  constructor; try reflexivity; try lia;
  intros v Hv; cbn in Hv; intuition lia.

Lemma renorm_block_order_free_witness :
  exists t,
    embedding_renorm_cuda_ two_rows both_rows 1 2 = Ok t
    /\ forall a, 0 <= a < 2 * 2 ->
         data_ptr 0%R (elements t) a
         = fold_left
             (fun w b => renorm_kernel (data_ptr 0 (unique_copy (elements both_rows)))
                           1 2 2 b w)
             [1; 0] (data_ptr 0%R (elements two_rows)) a.
Proof.
  assert (Hok : renorm_input_ok two_rows both_rows 2 2) by two_rows_ok.
  assert (Hnd : NoDup (unique_copy (elements both_rows))).
  { apply unique_copy_sorted_NoDup. cbn [elements both_rows].
    repeat constructor; lia. }
  assert (Hperm : Permutation [1; 0]
                    (zrange (Z.of_nat (List.length
                                         (unique_copy (elements both_rows)))))).
  { change (zrange _) with [0; 1]. apply perm_swap. }
  exact (renorm_block_order_free two_rows both_rows 2 2 1 2 [1; 0] Hok Hnd Hperm).
Defined.

(** * The renormalisation at any instantiation of the kernel *)

Lemma to_int_le x : 0 <= x -> to_int x <= x.
Proof. intros H. unfold to_int. Z.to_euclidean_division_equations; lia. Qed.

Section AnyArithmetic.
Context {D S A : Type} (ar : arithmetic D S A).
Variables (indices : Z -> Z) (max_norm norm_type : A) (dim : Z).

(** The test of line 196 for block [b]: the norm the block computes of its
    row exceeds [max_norm]. *)
Definition exceeds (b : Z) (w : Z -> S) : bool :=
  acc_gt ar (row_norm_of ar indices norm_type dim b w) max_norm.

Lemma kernel_of_within b w :
  exceeds b w = false -> renorm_kernel_of ar indices max_norm norm_type dim b w = w.
Proof.
  unfold exceeds, renorm_kernel_of. cbv zeta. intros ->. reflexivity.
Qed.

Lemma blocks_of_within l w :
  (forall b, In b l -> exceeds b w = false) ->
  fold_left (fun w b => renorm_kernel_of ar indices max_norm norm_type dim b w) l w
  = w.
Proof.
  induction l as [|b l IH]; intros H; cbn [fold_left]; [reflexivity|].
  rewrite kernel_of_within by (apply H; left; reflexivity).
  apply IH. intros b' Hb'. apply H. right. exact Hb'.
Qed.
End AnyArithmetic.

(** On the reals the kernel above is [renorm_kernel]. *)
Lemma norm_term_of_real p x :
  norm_term_of real_arithmetic (Some p) (Some x) = norm_term p x.
Proof.
  unfold norm_term_of, norm_term. cbn [acc_is acc_abs acc_times acc_pow real_arithmetic
                                        option_map].
  destruct (Req_dec_T p 1); [reflexivity|].
  destruct (Req_dec_T p 2); reflexivity.
Qed.

Lemma partial_norm_of_real indices p dim b w tid :
  partial_norm_of real_arithmetic indices (Some p) dim b w tid
  = partial_norm indices p dim b w tid.
Proof.
  unfold partial_norm_of, partial_norm. rewrite !for_loop_fold.
  apply fold_left_ext_eq. intros v i.
  cbn [acc_plus to_acc real_arithmetic]. now rewrite norm_term_of_real.
Qed.

Lemma row_norm_of_real indices p dim b w :
  row_norm_of real_arithmetic indices (Some p) dim b w = row_norm indices p dim b w.
Proof.
  unfold row_norm_of, row_norm.
  rewrite (map_ext _ _ (partial_norm_of_real indices p dim b w)).
  cbn [block_reduce acc_zero acc_pow acc_inverse real_arithmetic option_map].
  destruct (reduceBlock _ _); reflexivity.
Qed.

Lemma renorm_kernel_of_real indices max_norm p dim b w :
  renorm_kernel_of real_arithmetic indices (Some max_norm) (Some p) dim b w
  = renorm_kernel indices max_norm p dim b w.
Proof.
  unfold renorm_kernel_of, renorm_kernel. cbv zeta. rewrite row_norm_of_real.
  destruct (row_norm indices p dim b w) as [norm|]; [|reflexivity].
  cbn [acc_gt acc_factor real_arithmetic].
  destruct (Rlt_dec max_norm norm); reflexivity.
Qed.

Lemma launch_renorm_kernel_of_real grid_x indices max_norm p dim w :
  launch_renorm_kernel_of real_arithmetic grid_x indices (Some max_norm) (Some p) dim w
  = launch_renorm_kernel grid_x indices max_norm p dim w.
Proof.
  unfold launch_renorm_kernel_of, launch_renorm_kernel.
  apply fold_left_ext_eq. intros w' b. apply renorm_kernel_of_real.
Qed.

(** With an index to launch a block for, the host function at the reals is
    [embedding_renorm_cuda_]. *)
Lemma embedding_renorm_cuda_of_real (self : Tensor R) (indices : Tensor Z) max_norm p :
  0 < to_int (Z.of_nat (List.length (unique_copy (elements indices)))) ->
  embedding_renorm_cuda_of real_arithmetic 0%R self indices max_norm p
  = embedding_renorm_cuda_ self indices max_norm p.
Proof.
  intros Hgrid. unfold embedding_renorm_cuda_of, embedding_renorm_cuda_.
  cbn [acc_of_double real_arithmetic]. rewrite launch_renorm_kernel_of_real.
  replace (_ <=? 0) with false by (symmetry; apply Z.leb_gt; exact Hgrid).
  reflexivity.
Qed.



(** ** Rows and blocks at any instantiation *)

Section AnyArithmeticRows.
Context {D S A : Type} (ar : arithmetic D S A).
Variables (indices : Z -> Z) (max_norm norm_type : A) (dim : Z).

Local Abbreviation kernel_of := (renorm_kernel_of ar indices max_norm norm_type dim).
Local Abbreviation base b := (base_index indices dim b).

Definition scale_elements_of (start : Z) (factor : S) (l : list Z) (w : Z -> S)
    : Z -> S :=
  fold_left (fun w i => upd w (start + i) (scalar_times ar (w (start + i)%Z) factor))
    l w.

Lemma scale_elements_of_other start factor l w a :
  ~ In (a - start) l -> scale_elements_of start factor l w a = w a.
Proof.
  unfold scale_elements_of. revert w.
  induction l as [|i l IH]; intros w Hn; cbn [fold_left]; [reflexivity|].
  rewrite IH by (intro; apply Hn; right; assumption).
  unfold upd. destruct (Z.eqb_spec a (start + i)) as [E|_]; [|reflexivity].
  exfalso. apply Hn. left. lia.
Qed.

Lemma scale_elements_of_at start factor l w a :
  NoDup l -> In (a - start) l ->
  scale_elements_of start factor l w a = scalar_times ar (w a) factor.
Proof.
  unfold scale_elements_of. revert w.
  induction l as [|i l IH]; intros w Hnd Hin; cbn [fold_left]; [destruct Hin|].
  inversion Hnd as [|? ? Hi Hl]; subst. destruct Hin as [E|Hin].
  - fold (scale_elements_of start factor l
            (upd w (start + i) (scalar_times ar (w (start + i)%Z) factor))).
    rewrite scale_elements_of_other by (rewrite <- E; exact Hi).
    unfold upd. replace (start + i) with a by lia. rewrite Z.eqb_refl. reflexivity.
  - rewrite IH by assumption. unfold upd.
    destruct (Z.eqb_spec a (start + i)) as [E|_]; [|reflexivity].
    exfalso. apply Hi. replace i with (a - start) by lia. exact Hin.
Qed.

(** The threads of a block rescale each element of the row once. *)
Lemma rescale_of_all b factor w a :
  fold_left (fun w tid => rescale_of ar indices dim b factor tid w)
    (zrange RENORM_THREADS) w a
  = if in_row indices dim b a then scalar_times ar (w a) factor else w a.
Proof.
  unfold rescale_of.
  rewrite (fold_left_ext_eq _
             (fun w tid =>
                fold_left
                  (fun w i => upd w (base b + i)
                                (scalar_times ar (w (base b + i)%Z) factor))
                  (loop_indices (Z.to_nat dim) tid dim RENORM_THREADS) w))
    by (intros; apply for_loop_fold).
  rewrite fold_left_flat_map.
  fold (scale_elements_of (base b) factor
          (flat_map (fun tid => loop_indices (Z.to_nat dim) tid dim RENORM_THREADS)
             (zrange RENORM_THREADS)) w).
  pose proof (strided_indices_perm dim) as Hperm.
  unfold in_row.
  destruct (Z.leb_spec 0 (a - base b)) as [H0|H0];
    [destruct (Z.ltb_spec (a - base b) dim) as [H1|H1]|]; cbn [andb].
  - apply scale_elements_of_at.
    + apply (Permutation_NoDup (Permutation_sym Hperm)), NoDup_zrange.
    + apply (Permutation_in _ (Permutation_sym Hperm)), In_zrange. lia.
  - apply scale_elements_of_other. intros Hin.
    apply (Permutation_in _ Hperm), In_zrange in Hin. lia.
  - apply scale_elements_of_other. intros Hin.
    apply (Permutation_in _ Hperm), In_zrange in Hin. lia.
Qed.

(** What a block leaves in each element. *)
Lemma renorm_kernel_of_at b w a :
  kernel_of b w a
  = if exceeds ar indices max_norm norm_type dim b w && in_row indices dim b a
    then scalar_times ar (w a)
           (acc_factor ar max_norm (row_norm_of ar indices norm_type dim b w))
    else w a.
Proof.
  unfold renorm_kernel_of, exceeds. cbv zeta.
  destruct (acc_gt ar _ max_norm); [|reflexivity].
  cbn [andb]. apply rescale_of_all.
Qed.

Lemma kernel_of_outside_row b w a :
  in_row indices dim b a = false -> kernel_of b w a = w a.
Proof.
  intros Ha. rewrite renorm_kernel_of_at, Ha, andb_false_r. reflexivity.
Qed.

Lemma blocks_of_outside_rows l w a :
  (forall b, In b l -> in_row indices dim b a = false) ->
  fold_left (fun w b => kernel_of b w) l w a = w a.
Proof.
  revert w. induction l as [|b l IH]; intros w H; cbn [fold_left]; [reflexivity|].
  rewrite IH by (intros b' Hb'; apply H; right; exact Hb').
  apply kernel_of_outside_row. apply H. left. reflexivity.
Qed.
End AnyArithmeticRows.

Lemma fold_left_ext_in_eq {T X : Type} (f g : T -> X -> T) l s :
  (forall s x, In x l -> f s x = g s x) -> fold_left f l s = fold_left g l s.
Proof.
  revert s. induction l as [|x l IH]; intros s H; cbn [fold_left]; [reflexivity|].
  rewrite (H s x) by (left; reflexivity).
  apply IH. intros s' x' Hx'. apply H. right. exact Hx'.
Qed.

Section AnyArithmeticDistinct.
Context {D S A : Type} (ar : arithmetic D S A).
Variables (indices : Z -> Z) (max_norm norm_type : A) (dim rows : Z).
Hypothesis dim_nonneg : 0 <= dim.
Hypothesis table_fits : rows * dim < 2 ^ 31.

Local Abbreviation kernel_of := (renorm_kernel_of ar indices max_norm norm_type dim).
Local Abbreviation row b a := (in_row indices dim b a).

(** The norm a block computes depends on the elements of its row only. *)
Lemma partial_norm_of_ext b w1 w2 tid :
  0 <= tid ->
  (forall a, row b a = true -> w1 a = w2 a) ->
  partial_norm_of ar indices norm_type dim b w1 tid
  = partial_norm_of ar indices norm_type dim b w2 tid.
Proof.
  intros Htid H. unfold partial_norm_of. rewrite !for_loop_fold.
  apply fold_left_ext_in_eq. intros v i Hi.
  apply loop_indices_spec in Hi;
    [|unfold RENORM_THREADS; lia|unfold RENORM_THREADS; lia].
  rewrite (H (base_index indices dim b + i)); [reflexivity|].
  unfold in_row. apply andb_true_intro. split; [apply Z.leb_le | apply Z.ltb_lt]; lia.
Qed.

Lemma row_norm_of_ext b w1 w2 :
  (forall a, row b a = true -> w1 a = w2 a) ->
  row_norm_of ar indices norm_type dim b w1 = row_norm_of ar indices norm_type dim b w2.
Proof.
  intros H. unfold row_norm_of. f_equal. f_equal.
  apply map_ext_in. intros tid Htid. apply In_zrange in Htid.
  apply partial_norm_of_ext; [lia | exact H].
Qed.

Lemma kernel_of_ext_row b w1 w2 a :
  (forall a', row b a' = true -> w1 a' = w2 a') ->
  row b a = true -> kernel_of b w1 a = kernel_of b w2 a.
Proof.
  intros H Ha. rewrite !renorm_kernel_of_at. unfold exceeds.
  rewrite (row_norm_of_ext b w1 w2 H), (H a Ha). reflexivity.
Qed.

(** Among blocks on distinct rows, an element is written by the block of
    its row only, which sees the row as it was before the launch. *)
Lemma blocks_of_distinct l : forall w b a,
  Forall (valid_block indices rows) l ->
  NoDup (map indices l) ->
  In b l -> row b a = true ->
  fold_left (fun w b => kernel_of b w) l w a = kernel_of b w a.
Proof.
  induction l as [|x l IH]; intros w b a Hvalid Hnd Hin Ha; [destruct Hin|].
  cbn [fold_left]. cbn [map] in Hnd.
  inversion Hvalid as [|? ? Hx Hl]; subst.
  inversion Hnd as [|? ? Hxl Hnd']; subst.
  assert (Hother : forall b', In b' l -> indices x <> indices b').
  { intros b' Hb' E. apply Hxl. rewrite E. apply in_map, Hb'. }
  rewrite Forall_forall in Hl.
  destruct Hin as [->|Hin].
  - apply blocks_of_outside_rows. intros b' Hb'.
    apply (rows_apart indices dim rows dim_nonneg table_fits b b' a Hx (Hl b' Hb')
             (Hother b' Hb') Ha).
  - rewrite (IH (kernel_of x w) b a) by (try apply Forall_forall; assumption).
    apply kernel_of_ext_row; [|exact Ha].
    intros a' Ha'. apply kernel_of_outside_row.
    apply (rows_apart indices dim rows dim_nonneg table_fits b x a' (Hl b Hin) Hx);
      [|exact Ha'].
    intros E. apply (Hother b Hin). symmetry. exact E.
Qed.
End AnyArithmeticDistinct.

(** ** The host function at any instantiation *)

(** The arguments the renormalisation works on: a contiguous table of
    [rows] rows of [dim] elements, and a contiguous index list on the same
    GPU that is not empty and addresses rows of the table; the sizes the
    kernel keeps in [int] fit. *)
Record renorm_args_ok {S : Type} (self : Tensor S) (indices : Tensor Z)
    (rows dim : Z) : Prop :=
  { rao_self_contiguous : is_contiguous self = true;
    rao_indices_contiguous : is_contiguous indices = true;
    rao_sizes : sizes self = [rows; dim];
    rao_same_gpu : get_device self = get_device indices;
    rao_numel : tensor_numel self = rows * dim;
    rao_dim : 0 <= dim < 2 ^ 31;
    rao_table : rows * dim < 2 ^ 31;
    rao_rows : forall v, In v (elements indices) -> 0 <= v < rows;
    rao_some : elements indices <> [];
    rao_count : Z.of_nat (List.length (elements indices)) < 2 ^ 31 }.

Lemma unique_copy_nonempty l : l <> [] -> unique_copy l <> [].
Proof.
  destruct l as [|x t]; [intros H; contradiction|]. intros _.
  destruct (unique_copy_head x t) as [u ->]. discriminate.
Qed.

Lemma data_ptr_map_zrange_any {X : Type} (d : X) (w : Z -> X) n a :
  0 <= a < n -> data_ptr d (map w (zrange n)) a = w a.
Proof.
  intros Ha.
  assert (Hlen : Z.of_nat (List.length (zrange n)) = n)
    by (rewrite length_zrange; lia).
  rewrite (data_ptr_map 0 d w) by lia.
  f_equal. rewrite data_ptr_nth by lia.
  unfold zrange. rewrite nth_zseq by lia. lia.
Qed.

Section HostOfAnyArithmetic.
Context {D S A : Type} (ar : arithmetic D S A) (outside : S).
Variables (self : Tensor S) (indices : Tensor Z) (rows dim : Z).
Variables (max_norm norm_type : D).
Hypothesis args_ok : renorm_args_ok self indices rows dim.

Local Abbreviation unique := (unique_copy (elements indices)).

Lemma renorm_grid_fits :
  to_int (Z.of_nat (List.length unique)) = Z.of_nat (List.length unique)
  /\ 0 < Z.of_nat (List.length unique).
Proof.
  pose proof (length_unique_copy (elements indices)) as Hlen.
  pose proof (rao_count _ _ _ _ args_ok) as Hcount.
  pose proof (unique_copy_nonempty _ (rao_some _ _ _ _ args_ok)) as Hsome.
  split; [apply to_int_small; lia|].
  destruct unique; [contradiction | cbn [List.length]; lia].
Qed.

Lemma renorm_blocks_in_table :
  Forall (valid_block (data_ptr 0 unique) rows)
    (zrange (Z.of_nat (List.length unique))).
Proof.
  apply Forall_forall. intros b Hb. apply In_zrange in Hb.
  unfold valid_block. apply (rao_rows _ _ _ _ args_ok).
  apply In_unique_copy. apply data_ptr_In. exact Hb.
Qed.

(** The table the host function returns is the one its blocks leave. *)
Lemma renorm_of_stored :
  exists t,
    embedding_renorm_cuda_of ar outside self indices max_norm norm_type = Ok t
    /\ forall a, 0 <= a < rows * dim ->
         data_ptr outside (elements t) a
         = fold_left
             (fun w b =>
                renorm_kernel_of ar (data_ptr 0 unique) (acc_of_double ar max_norm)
                  (acc_of_double ar norm_type) dim b w)
             (zrange (Z.of_nat (List.length unique)))
             (data_ptr outside (elements self)) a.
Proof.
  destruct renorm_grid_fits as [Hgrid Hsome].
  pose proof (rao_dim _ _ _ _ args_ok) as Hdim.
  assert (Hlast : to_int (size_last self) = dim).
  { unfold size_last. rewrite (rao_sizes _ _ _ _ args_ok). cbn [last].
    apply to_int_small. lia. }
  assert (Hrank : tensor_dim self = 2)
    by (unfold tensor_dim; rewrite (rao_sizes _ _ _ _ args_ok); reflexivity).
  unfold embedding_renorm_cuda_of, checkContiguous, checkDim, checkSameGPU, THCudaCheck.
  rewrite (rao_self_contiguous _ _ _ _ args_ok), (rao_indices_contiguous _ _ _ _ args_ok),
    Hrank, (rao_same_gpu _ _ _ _ args_ok), !Z.eqb_refl, Hgrid, Hlast,
    (rao_numel _ _ _ _ args_ok).
  cbn [bind].
  replace (_ <=? 0) with false by (symmetry; apply Z.leb_gt; exact Hsome).
  cbn [bind]. eexists. split; [reflexivity|]. cbn [elements]. intros a Ha.
  rewrite data_ptr_map_zrange_any by exact Ha. reflexivity.
Qed.
End HostOfAnyArithmetic.

(** Every row the index list does not address is left as it was, for
    every bound and order and at every instantiation of the kernel. *)
Theorem renorm_leaves_unaddressed_rows :
  forall (D S A : Type) (ar : arithmetic D S A) (outside : S)
         (self : Tensor S) (indices : Tensor Z) rows dim (max_norm norm_type : D),
    renorm_args_ok self indices rows dim ->
    exists t,
      embedding_renorm_cuda_of ar outside self indices max_norm norm_type = Ok t
      /\ forall a, 0 <= a < rows * dim ->
           ~ In (a / dim) (elements indices) ->
           data_ptr outside (elements t) a = data_ptr outside (elements self) a.
Proof.
  intros D S A ar outside self indices rows dim max_norm norm_type Hok.
  destruct (renorm_of_stored ar outside self indices rows dim max_norm norm_type Hok)
    as (t & Hrun & Hcells).
  exists t. split; [exact Hrun|]. intros a Ha Hnot. rewrite (Hcells a Ha).
  pose proof (rao_dim _ _ _ _ Hok) as Hdim.
  pose proof (renorm_blocks_in_table self indices rows dim Hok) as Hvalid.
  rewrite Forall_forall in Hvalid.
  apply blocks_of_outside_rows. intros b Hb.
  destruct (in_row _ dim b a) eqn:E; [|reflexivity].
  exfalso. apply Hnot.
  rewrite (in_row_quotient _ dim rows b a (proj1 Hdim) (rao_table _ _ _ _ Hok)
             (Hvalid b Hb) E).
  apply In_unique_copy, data_ptr_In. apply In_zrange in Hb. exact Hb.
Qed.

(** Of the two rows [3, 4] and [6, 8], the index list [0] names the
    first: the second is returned as it was. *)
Lemma renorm_leaves_unaddressed_rows_witness :
  exists t,
    embedding_renorm_cuda_of real_arithmetic 0%R two_rows long_indices 1%R 2%R = Ok t
    /\ data_ptr 0%R (elements t) 2 = 6%R
    /\ data_ptr 0%R (elements t) 3 = 8%R.
Proof.
  assert (Hok : renorm_args_ok two_rows long_indices 2 2).
  { constructor; try reflexivity; try lia; try discriminate.
    intros v Hv. cbn in Hv. intuition lia. }
  destruct (renorm_leaves_unaddressed_rows R R (option R) real_arithmetic 0%R
              two_rows long_indices 2 2 1%R 2%R Hok) as (t & Hrun & Hkept).
  exists t. split; [exact Hrun|]. split.
  - apply (Hkept 2); [lia|]. cbn. intuition lia.
  - apply (Hkept 3); [lia|]. cbn. intuition lia.
Defined.

(** When no index occurs again after another one, every addressed row is
    rescaled on its own, at every instantiation of the kernel: its
    elements are multiplied by the factor of line 197 when the norm the
    kernel computes of the row as it was given exceeds max_norm, and kept
    otherwise. *)
Theorem renorm_rescales_each_row_once :
  forall (D S A : Type) (ar : arithmetic D S A) (outside : S)
         (self : Tensor S) (indices : Tensor Z) rows dim (max_norm norm_type : D),
    renorm_args_ok self indices rows dim ->
    NoDup (unique_copy (elements indices)) ->
    exists t,
      embedding_renorm_cuda_of ar outside self indices max_norm norm_type = Ok t
      /\ forall r i, In r (elements indices) -> 0 <= i < dim ->
           data_ptr outside (elements t) (r * dim + i)
           = let norm :=
               row_norm_of ar (fun _ => r) (acc_of_double ar norm_type) dim 0
                 (data_ptr outside (elements self)) in
             if acc_gt ar norm (acc_of_double ar max_norm)
             then scalar_times ar (data_ptr outside (elements self) (r * dim + i))
                    (acc_factor ar (acc_of_double ar max_norm) norm)
             else data_ptr outside (elements self) (r * dim + i).
Proof.
  intros D S A ar outside self indices rows dim max_norm norm_type Hok Hnd.
  destruct (renorm_of_stored ar outside self indices rows dim max_norm norm_type Hok)
    as (t & Hrun & Hcells).
  exists t. split; [exact Hrun|]. intros r i Hr Hi.
  pose proof (rao_dim _ _ _ _ Hok) as Hdim.
  pose proof (rao_table _ _ _ _ Hok) as Htable.
  pose proof (rao_rows _ _ _ _ Hok r Hr) as Hrow.
  pose proof (renorm_blocks_in_table self indices rows dim Hok) as Hvalid.
  set (unique := unique_copy (elements indices)) in *.
  destruct (In_nth unique r 0 (unique_copy_In r _ Hr)) as (k & Hk & Hnth).
  set (b := Z.of_nat k).
  assert (Hb : In b (zrange (Z.of_nat (List.length unique))))
    by (apply In_zrange; unfold b; lia).
  assert (Hidx : data_ptr 0 unique b = r).
  { rewrite data_ptr_nth by (unfold b; lia). unfold b. rewrite Nat2Z.id. exact Hnth. }
  assert (Hbase : base_index (data_ptr 0 unique) dim b = r * dim).
  { unfold base_index. rewrite Hidx. apply to_int_small. nia. }
  assert (Hin : in_row (data_ptr 0 unique) dim b (r * dim + i) = true).
  { unfold in_row. rewrite Hbase. apply andb_true_intro.
    split; [apply Z.leb_le | apply Z.ltb_lt]; lia. }
  rewrite Hcells by nia.
  rewrite (blocks_of_distinct ar (data_ptr 0 unique) (acc_of_double ar max_norm)
             (acc_of_double ar norm_type) dim rows (proj1 Hdim) Htable _ _ b
             (r * dim + i) Hvalid (renorm_blocks_distinct indices Hnd) Hb Hin).
  rewrite renorm_kernel_of_at, Hin, andb_true_r. unfold exceeds. cbv zeta.
  replace (row_norm_of ar (data_ptr 0 unique) (acc_of_double ar norm_type) dim b
             (data_ptr outside (elements self)))
    with (row_norm_of ar (fun _ => r) (acc_of_double ar norm_type) dim 0
            (data_ptr outside (elements self)));
    [reflexivity|].
  unfold row_norm_of, partial_norm_of, base_index. rewrite Hidx. reflexivity.
Qed.

Lemma renorm_rescales_each_row_once_witness :
  exists t,
    embedding_renorm_cuda_of real_arithmetic 0%R two_rows both_rows 1%R 2%R = Ok t
    /\ forall r i, In r (elements both_rows) -> 0 <= i < 2 ->
         data_ptr 0%R (elements t) (r * 2 + i)
         = let norm :=
             row_norm_of real_arithmetic (fun _ => r) (Some 2%R) 2 0
               (data_ptr 0%R (elements two_rows)) in
           if acc_gt real_arithmetic norm (Some 1%R)
           then scalar_times real_arithmetic
                  (data_ptr 0%R (elements two_rows) (r * 2 + i))
                  (acc_factor real_arithmetic (Some 1%R) norm)
           else data_ptr 0%R (elements two_rows) (r * 2 + i).
Proof.
  assert (Hok : renorm_args_ok two_rows both_rows 2 2).
  { constructor; try reflexivity; try lia; try discriminate.
    intros v Hv. cbn in Hv. intuition lia. }
  assert (Hnd : NoDup (unique_copy (elements both_rows))).
  { apply unique_copy_sorted_NoDup. cbn [elements both_rows].
    repeat constructor; lia. }
  exact (renorm_rescales_each_row_once R R (option R) real_arithmetic 0%R
           two_rows both_rows 2 2 1%R 2%R Hok Hnd).
Defined.

(** ** Elements only shrink *)

(** Over the reals, with [max_norm >= 0], an order above 0 and one block
    per row, the renormalisation multiplies every element of the table by
    a factor between 0 and 1: no element grows or changes its sign. *)
Theorem renorm_only_shrinks :
  forall (self : Tensor R) (indices : Tensor Z) rows dim (max_norm norm_type : R),
    renorm_args_ok self indices rows dim ->
    NoDup (unique_copy (elements indices)) ->
    (0 <= max_norm)%R -> (0 < norm_type)%R ->
    exists t,
      embedding_renorm_cuda_of real_arithmetic 0%R self indices max_norm norm_type
      = Ok t
      /\ forall a, 0 <= a < rows * dim ->
           exists c, (0 <= c <= 1)%R
                     /\ data_ptr 0%R (elements t) a
                        = (data_ptr 0%R (elements self) a * c)%R.
Proof.
  intros self indices rows dim max_norm norm_type Hok Hnd Hmax Hp.
  destruct (renorm_of_stored real_arithmetic 0%R self indices rows dim max_norm
              norm_type Hok) as (t & Hrun & Hcells).
  exists t. split; [exact Hrun|]. intros a Ha. rewrite (Hcells a Ha).
  cbn [acc_of_double real_arithmetic].
  rewrite (fold_left_ext_eq _
             (fun w b => renorm_kernel (data_ptr 0 (unique_copy (elements indices)))
                           max_norm norm_type dim b w))
    by (intros; apply renorm_kernel_of_real).
  apply launch_shrinks. exact Hmax.
Qed.

(** The row [3, 4] with max_norm 1 at order 2: its first element is 3
    times a factor between 0 and 1. *)
Lemma renorm_only_shrinks_witness :
  exists t,
    embedding_renorm_cuda_of real_arithmetic 0%R (renorm_table 3 4) long_indices
      1%R 2%R = Ok t
    /\ exists c, (0 <= c <= 1)%R /\ data_ptr 0%R (elements t) 0 = (3 * c)%R.
Proof.
  assert (Hok : renorm_args_ok (renorm_table 3 4) long_indices 1 2).
  { constructor; try reflexivity; try lia; try discriminate.
    intros v Hv. cbn in Hv. intuition lia. }
  assert (Hnd : NoDup (unique_copy (elements long_indices)))
    by (cbn; repeat constructor; intros []).
  assert (Hmax : (0 <= 1)%R) by lra.
  assert (Hp : (0 < 2)%R) by lra.
  destruct (renorm_only_shrinks (renorm_table 3 4) long_indices 1 2 1%R 2%R
              Hok Hnd Hmax Hp) as (t & Hrun & Hshrink).
  exists t. split; [exact Hrun|].
  assert (Ha : 0 <= 0 < 1 * 2) by lia.
  exact (Hshrink 0 Ha).
Defined.
